(** * marshal: claim lifecycle and partition assignment, embedded in Rocq

    A shallow embedding of the two Go sources of the repository,

    - the per-partition [claim] (type, [newClaim], [setup], [Release],
      [messagePump], [heartbeat], [healthCheck], [average], [updateOffsets]
      and the loops around them), and
    - the per-topic [Consumer] of consumer.go ([consumerClaim], its
      [messagePump], [updateOffsets], [tryClaimPartition], [claimPartitions],
      [getUnhealthyClaims], the health sweep of [manageClaims], [Consume]),

    together with the properties the specification states about them.

    Conventions.  Go's [int64] (and [int], on the 64-bit targets the library
    is built for) is a [Z] with the two's-complement wrap-around written out;
    [int32] likewise.  [float64] is the kernel's binary64 [float].  A Go map
    is a [gmap]; the order in which [range] visits it is not fixed by the
    language and is an argument of every function that ranges over the map.
    Calls into the marshaler and the broker are answered by an oracle that
    sees the history of calls made so far, and every call is appended to that
    history, so that "which calls were made" is a property of the final
    state.  [time.Now().Unix()] is an argument [now].  Log output
    ([log.Infof] and the like) is not modelled. *)

From Stdlib Require Import ZArith List Lia Bool.
From Stdlib Require Import Floats Uint63.
From stdpp Require Import gmap strings list fin_maps.

Local Open Scope Z_scope.

(** ** Machine integers *)

Module Int.

Definition wrap (bits : Z) (z : Z) : Z :=
  (z + 2 ^ (bits - 1)) mod 2 ^ bits - 2 ^ (bits - 1).

Definition min64 : Z := - 2 ^ 63.
Definition max64 : Z := 2 ^ 63 - 1.

Definition in64 (z : Z) : Prop := min64 <= z <= max64.

Definition wrap64 (z : Z) : Z := wrap 64 z.
Definition wrap32 (z : Z) : Z := wrap 32 z.

Definition add64 (a b : Z) : Z := wrap64 (a + b).
Definition sub64 (a b : Z) : Z := wrap64 (a - b).

(** Go's [/] and [%] on integers truncate towards zero. *)
Definition div64 (a b : Z) : Z := wrap64 (Z.quot a b).
Definition rem64 (a b : Z) : Z := Z.rem a b.

End Int.

(** ** float64 *)

Module Float64.

(** The conversion [float64(x)] of an [int64]: exact where the integer has at
    most 53 significant bits, rounded to nearest-even otherwise.  The
    primitive conversion takes an unsigned 63-bit integer, which covers every
    non-negative [int64]; a negative one is converted through its absolute
    value ([-2^63] is a power of two, hence exact). *)
Definition of_int64 (z : Z) : float :=
  if 0 <=? z then PrimFloat.of_uint63 (Uint63.of_Z z)
  else if z =? Int.min64
       then (- 0x1p63)%float
       else PrimFloat.opp (PrimFloat.of_uint63 (Uint63.of_Z (- z))).

Definition zero : float := PrimFloat.zero.

Definition div (x y : float) : float := PrimFloat.div x y.

(** Go's [<=] on float64 (false when either side is NaN). *)
Definition le (x y : float) : bool := PrimFloat.leb x y.

End Float64.


(** ** The broker and the marshaler

    Both are external collaborators.  Their answers are given by an oracle
    that may depend on everything that has happened so far (the event log),
    so a theorem quantified over the oracle covers every behaviour of the
    coordination log and of the broker. *)

Module Kafka.

(** [proto.Message]: the fields the library reads. *)
Record Message := {
  Topic : string;
  Partition : Z;            (* int32 *)
  Offset : Z;               (* int64 *)
  Value : list Byte.byte
}.

(** Go [error] values; [proto.ErrOffsetOutOfRange] is the one the pumps
    compare against.  [nil] is [None]. *)
Inductive Error := ErrOffsetOutOfRange | ErrOther (what : string).
Definition error := option Error.

Definition is_nil (e : error) : bool :=
  match e with None => true | Some _ => false end.

Definition is_out_of_range (e : error) : bool :=
  match e with Some ErrOffsetOutOfRange => true | _ => false end.

(** A [kafka.Consumer] handle. *)
Definition Consumer := nat.

End Kafka.

Export Kafka(error).

(** Heap addresses of [consumerClaim] objects. *)
Definition loc := nat.

Inductive ExtCall :=
| CGetPartitionClaim (topic : string) (partID : Z)
| CGetPartitionOffsets (topic : string) (partID : Z)
| CClaimPartition (topic : string) (partID : Z)
| CHeartbeat (topic : string) (partID : Z) (offset : Z)
| CReleasePartition (topic : string) (partID : Z) (offset : Z)
| CKafkaConsumer (topic : string) (partID : Z) (startOffset : Z)
| CConsume (h : Kafka.Consumer).

(** Goroutines started with [go]. *)
Inductive Goroutine :=
| GoRelease                                   (* go c.Release() *)
| GoHeartbeat                                 (* go c.heartbeat() *)
| GoUpdateOffsetsLoop | GoHealthCheckLoop | GoMessagePump  (* claim.setup *)
| GoPump (l : loc)                            (* go claim.messagePump() of a consumerClaim *)
| GoMarshalHeartbeat (topic : string) (partID : Z) (offset : Z)
                                              (* the closure in Consumer.Consume *)
| GoManageClaims.

Inductive Event :=
| Call (c : ExtCall)
| Go (g : Goroutine)
| Sleep (ms : Z).

Definition History := list Event.

(** [PartitionClaim], as returned by [GetPartitionClaim]. *)
Record PartitionClaim := { LastHeartbeat : Z }.

Record Marshaler := {
  Partitions : string -> Z;
  GetPartitionClaim : History -> string -> Z -> PartitionClaim;
  GetPartitionOffsets : History -> string -> Z -> Z * Z * Z * error;
  ClaimPartition : History -> string -> Z -> bool;
  Heartbeat : History -> string -> Z -> Z -> error;
  ReleasePartition : History -> string -> Z -> Z -> error;
  (* marshal.kafka.Consumer(conf) *)
  NewKafkaConsumer : History -> string -> Z -> Z -> Kafka.Consumer * error;
  (* kafka.Consumer.Consume() *)
  BrokerConsume : History -> Kafka.Consumer -> option Kafka.Message * error
}.

Definition is_release_call (e : Event) : bool :=
  match e with Call (CReleasePartition _ _ _) => true | _ => false end.

Definition is_heartbeat_call_for (p : Z) (e : Event) : bool :=
  match e with Call (CHeartbeat _ q _) => Z.eqb p q | _ => false end.

(** How many times [ReleasePartition] was invoked in a history. *)
Definition release_calls (h : History) : nat :=
  length (List.filter is_release_call h).

(** Capacity of the per-claim message channel ([make(chan *proto.Message, 100)]). *)
Definition chan_cap : nat := 100.

(** How one trip round a message pump's loop ends. *)
Inductive PumpStep :=
| PumpExit          (* the loop was left: the goroutine ends *)
| PumpNext          (* back to the top of the loop *)
| PumpBlocked (pending : option Kafka.Message)
                    (* parked on the send of [pending]: the channel is full *)
| PumpPanic.        (* method call on a nil [kafka.Consumer] *)

(** ** The claim (one per claimed partition) *)

Module Claim.

(** The [claim] struct.  [marshal] is the oracle argument of the methods,
    [rand] is unused by the methods below and [lock] is represented by each
    critical section being one function. *)
Record claim := {
  topic : string;
  partID : Z;
  claimed : Z;                       (* the int32 behind [claimed *int32] *)
  lastHeartbeat : Z;
  consumer : option Kafka.Consumer;
  messages : list (option Kafka.Message);   (* chan *proto.Message, capacity 100 *)
  cyclesBehind : Z;
  offsetCurrent : Z;
  offsetEarliest : Z;
  offsetLatest : Z;
  offsetCurrentHistory : list Z;     (* [10]int64 *)
  offsetLatestHistory : list Z       (* [10]int64 *)
}.

Definition with_claimed (v : Z) (c : claim) : claim :=
  {| topic := topic c; partID := partID c; claimed := v;
     lastHeartbeat := lastHeartbeat c; consumer := consumer c;
     messages := messages c; cyclesBehind := cyclesBehind c;
     offsetCurrent := offsetCurrent c; offsetEarliest := offsetEarliest c;
     offsetLatest := offsetLatest c;
     offsetCurrentHistory := offsetCurrentHistory c;
     offsetLatestHistory := offsetLatestHistory c |}.

Definition with_lastHeartbeat (v : Z) (c : claim) : claim :=
  {| topic := topic c; partID := partID c; claimed := claimed c;
     lastHeartbeat := v; consumer := consumer c;
     messages := messages c; cyclesBehind := cyclesBehind c;
     offsetCurrent := offsetCurrent c; offsetEarliest := offsetEarliest c;
     offsetLatest := offsetLatest c;
     offsetCurrentHistory := offsetCurrentHistory c;
     offsetLatestHistory := offsetLatestHistory c |}.

Definition with_consumer (v : option Kafka.Consumer) (c : claim) : claim :=
  {| topic := topic c; partID := partID c; claimed := claimed c;
     lastHeartbeat := lastHeartbeat c; consumer := v;
     messages := messages c; cyclesBehind := cyclesBehind c;
     offsetCurrent := offsetCurrent c; offsetEarliest := offsetEarliest c;
     offsetLatest := offsetLatest c;
     offsetCurrentHistory := offsetCurrentHistory c;
     offsetLatestHistory := offsetLatestHistory c |}.

Definition with_messages (v : list (option Kafka.Message)) (c : claim) : claim :=
  {| topic := topic c; partID := partID c; claimed := claimed c;
     lastHeartbeat := lastHeartbeat c; consumer := consumer c;
     messages := v; cyclesBehind := cyclesBehind c;
     offsetCurrent := offsetCurrent c; offsetEarliest := offsetEarliest c;
     offsetLatest := offsetLatest c;
     offsetCurrentHistory := offsetCurrentHistory c;
     offsetLatestHistory := offsetLatestHistory c |}.

Definition with_cyclesBehind (v : Z) (c : claim) : claim :=
  {| topic := topic c; partID := partID c; claimed := claimed c;
     lastHeartbeat := lastHeartbeat c; consumer := consumer c;
     messages := messages c; cyclesBehind := v;
     offsetCurrent := offsetCurrent c; offsetEarliest := offsetEarliest c;
     offsetLatest := offsetLatest c;
     offsetCurrentHistory := offsetCurrentHistory c;
     offsetLatestHistory := offsetLatestHistory c |}.

Definition with_offsetCurrent (v : Z) (c : claim) : claim :=
  {| topic := topic c; partID := partID c; claimed := claimed c;
     lastHeartbeat := lastHeartbeat c; consumer := consumer c;
     messages := messages c; cyclesBehind := cyclesBehind c;
     offsetCurrent := v; offsetEarliest := offsetEarliest c;
     offsetLatest := offsetLatest c;
     offsetCurrentHistory := offsetCurrentHistory c;
     offsetLatestHistory := offsetLatestHistory c |}.

(** The four assignments at the end of [updateOffsets]. *)
Definition with_refresh (early late : Z) (hcur hlate : list Z) (c : claim) : claim :=
  {| topic := topic c; partID := partID c; claimed := claimed c;
     lastHeartbeat := lastHeartbeat c; consumer := consumer c;
     messages := messages c; cyclesBehind := cyclesBehind c;
     offsetCurrent := offsetCurrent c; offsetEarliest := early;
     offsetLatest := late;
     offsetCurrentHistory := hcur;
     offsetLatestHistory := hlate |}.

(** A claim together with the history of calls, goroutine starts and sleeps. *)
Record state := { self : claim; log : History }.

Definition on_self (f : claim -> claim) (s : state) : state :=
  {| self := f (self s); log := log s |}.

Definition emit (e : Event) (s : state) : state :=
  {| self := self s; log := log s ++ [e] |}.

(** *** [Claimed], [Consumed], [GetCurrentLag] *)

Definition Claimed (c : claim) : bool := claimed c =? 1.

Definition Consumed (offset : Z) (c : claim) : bool * claim :=
  if negb (claimed c =? 1) then (false, c)
  else (true, with_offsetCurrent (Int.add64 offset 1) c).

Definition GetCurrentLag (c : claim) : Z :=
  if offsetCurrent c <? offsetLatest c
  then Int.sub64 (offsetLatest c) (offsetCurrent c)
  else 0.

(** *** [Release]

    The method has two atomic points: the compare-and-swap on the flag, and
    (for the caller that won it) the call to the marshaler.  They are given
    separately, so that the same two definitions serve the sequential method
    and the interleaving of several concurrent callers. *)

(** [atomic.CompareAndSwapInt32(c.claimed, 1, 0)] *)
Definition Release_cas (c : claim) : bool * claim :=
  if claimed c =? 1 then (true, with_claimed 0 c) else (false, c).

(** The rest of [Release], run by the caller whose swap succeeded. *)
Definition Release_call (m : Marshaler) (s : state) : bool * state :=
  let c := self s in
  let err := ReleasePartition m (log s) (topic c) (partID c) (offsetCurrent c) in
  let s := emit (Call (CReleasePartition (topic c) (partID c) (offsetCurrent c))) s in
  if negb (Kafka.is_nil err) then (false, s) else (true, s).

Definition Release (m : Marshaler) (s : state) : bool * state :=
  let '(swapped, c) := Release_cas (self s) in
  if negb swapped then (false, s)
  else Release_call m {| self := c; log := log s |}.

(** Concurrent callers of [Release]: each is before its swap, between the
    swap and the marshaler call, or has returned. *)
Inductive pc := AtCas | AtCall | Returned (r : bool).

Definition config : Type := state * list pc.

(** What the other workers of the claim (and [Consumed]) may do between two
    steps of the releasers: change any field, but the flag only towards
    released (no code stores 1 after construction), and make any call except
    [ReleasePartition], which only [Release] issues. *)
Definition env_may (s s' : state) : Prop :=
  (claimed (self s') = claimed (self s) \/ claimed (self s') = 0) /\
  exists evs, log s' = log s ++ evs /\
              Forall (fun e => is_release_call e = false) evs.

Inductive step (m : Marshaler) : config -> config -> Prop :=
| step_cas s pcs i :
    pcs !! i = Some AtCas ->
    step m (s, pcs)
      ({| self := snd (Release_cas (self s)); log := log s |},
       <[i := if fst (Release_cas (self s)) then AtCall else Returned false]> pcs)
| step_call s pcs i :
    pcs !! i = Some AtCall ->
    step m (s, pcs)
      (snd (Release_call m s), <[i := Returned (fst (Release_call m s))]> pcs)
| step_env s s' pcs :
    env_may s s' ->
    step m (s, pcs) (s', pcs).

Inductive steps (m : Marshaler) : config -> config -> Prop :=
| steps_refl cfg : steps m cfg cfg
| steps_snoc cfg1 cfg2 cfg3 :
    steps m cfg1 cfg2 -> step m cfg2 cfg3 -> steps m cfg1 cfg3.

(** *** [messagePump]: one trip round the loop *)

(** [c.messages <- msg]: the send goes through when the channel has room;
    otherwise the pump is parked on it, and takes it up again (with the same
    function) when it is woken. *)
Definition messagePump_send (msg : option Kafka.Message) (s : state)
  : PumpStep * state :=
  if (length (messages (self s)) <? chan_cap)%nat
  then (PumpNext, on_self (fun c => with_messages (messages c ++ [msg]) c) s)
  else (PumpBlocked msg, s).

Definition messagePump_iter (m : Marshaler) (s : state) : PumpStep * state :=
  if negb (Claimed (self s)) then (PumpExit, s)
  else
    match consumer (self s) with
    | None => (PumpPanic, s)
    | Some h =>
        let '(msg, err) := BrokerConsume m (log s) h in
        let s := emit (Call (CConsume h)) s in
        if Kafka.is_out_of_range err then (PumpExit, emit (Go GoRelease) s)
        else if negb (Kafka.is_nil err) then (PumpNext, emit (Sleep 1000) s)
        else messagePump_send msg s
    end.

(** The loop, for at most [fuel] trips, or until the pump exits or is
    parked on a full channel. *)
Fixpoint messagePump (m : Marshaler) (fuel : nat) (s : state)
  : PumpStep * state :=
  match fuel with
  | O => (PumpNext, s)
  | S fuel' =>
      match messagePump_iter m s with
      | (PumpNext, s') => messagePump m fuel' s'
      | r => r
      end
  end.

(** *** [heartbeat] *)

Definition heartbeat (m : Marshaler) (now : Z) (s : state) : state :=
  let c := self s in
  let err := Heartbeat m (log s) (topic c) (partID c) (offsetCurrent c) in
  let s := emit (Call (CHeartbeat (topic c) (partID c) (offsetCurrent c))) s in
  let s := if negb (Kafka.is_nil err) then emit (Go GoRelease) s else s in
  on_self (with_lastHeartbeat now) s.

(** *** [average] and the two velocities *)

Fixpoint average_loop (vals : list Z) (min max ct : Z) : Z * Z * Z :=
  match vals with
  | [] => (min, max, ct)
  | val :: rest =>
      if val <=? 0 then average_loop rest min max ct
      else
        let min := if (min =? 0) || (val <? min) then val else min in
        let max := if (max =? 0) || (val >? max) then val else max in
        average_loop rest min max (Int.add64 ct 1)
  end.

Definition average (vals : list Z) : float :=
  let '(min, max, ct) := average_loop vals 0 0 0 in
  if ct =? 0 then Float64.zero
  else Float64.div (Float64.of_int64 (Int.sub64 max min)) (Float64.of_int64 ct).

Definition ConsumerVelocity (c : claim) : float :=
  average (offsetCurrentHistory c).

Definition PartitionVelocity (c : claim) : float :=
  average (offsetLatestHistory c).

(** *** [healthCheck]

    [HeartbeatInterval] is a package constant declared outside the two
    source files; it is a parameter here. *)

Definition healthCheck (HeartbeatInterval now : Z) (s : state) : bool * state :=
  let consumerVelocity := ConsumerVelocity (self s) in
  let partitionVelocity := PartitionVelocity (self s) in
  if lastHeartbeat (self s) <? Int.sub64 now HeartbeatInterval
  then (false, emit (Go GoRelease) s)
  else if offsetCurrent (self s) >=? offsetLatest (self s)
  then (true, on_self (with_cyclesBehind 0) s)
  else if Float64.le partitionVelocity consumerVelocity
  then (true, on_self (with_cyclesBehind 0) s)
  else
    let s := on_self (fun c => with_cyclesBehind (Int.add64 (cyclesBehind c) 1) c) s in
    if cyclesBehind (self s) >=? 3
    then (false, emit (Go GoRelease) s)
    else (true, s).

(** One trip round [healthCheckLoop]; [jitter] is the duration received
    from [c.marshal.jitters]. *)
Definition healthCheckLoop_iter (HeartbeatInterval now jitter : Z) (s : state)
  : PumpStep * state :=
  if negb (Claimed (self s)) then (PumpExit, s)
  else
    let s := emit (Sleep jitter) s in
    let '(healthy, s) := healthCheck HeartbeatInterval now s in
    (PumpNext, if healthy then emit (Go GoHeartbeat) s else s).

(** *** [updateOffsets]

    A store [a[i] = v] into a [[10]int64] panics when the index is out of
    range; [ctr % 10] is negative when [ctr] is.  [None] is the panic. *)

Definition array10_store (a : list Z) (i v : Z) : option (list Z) :=
  if (0 <=? i) && (i <? 10) then Some (<[Z.to_nat i := v]> a) else None.

Definition updateOffsets (m : Marshaler) (ctr : Z) (s : state)
  : option (error * state) :=
  let c := self s in
  let '(oEarly, oLate, _, err) := GetPartitionOffsets m (log s) (topic c) (partID c) in
  let s := emit (Call (CGetPartitionOffsets (topic c) (partID c))) s in
  if negb (Kafka.is_nil err) then Some (err, s)
  else
    match array10_store (offsetLatestHistory c) (Int.rem64 ctr 10) oLate with
    | None => None
    | Some hlate =>
        match array10_store (offsetCurrentHistory c) (Int.rem64 ctr 10) (offsetCurrent c) with
        | None => None
        | Some hcur => Some (None, on_self (with_refresh oEarly oLate hcur hlate) s)
        end
    end.

(** [updateOffsetsLoop], for at most [fuel] trips, from the counter [ctr]
    (0 when the goroutine starts).  [None] is the panic of [updateOffsets]. *)
Fixpoint updateOffsetsLoop (m : Marshaler) (jitter : Z) (fuel : nat) (ctr : Z)
    (s : state) : option state :=
  match fuel with
  | O => Some s
  | S fuel' =>
      if negb (Claimed (self s)) then Some s
      else
        let s := emit (Sleep jitter) s in
        match updateOffsets m ctr s with
        | None => None
        | Some (_, s) => updateOffsetsLoop m jitter fuel' (Int.add64 ctr 1) s
        end
  end.

(** *** [setup] and [newClaim] *)

Definition setup (m : Marshaler) (now : Z) (s : state) : state :=
  let s :=
    if offsetCurrent (self s) <? offsetEarliest (self s)
    then on_self (fun c => with_offsetCurrent (offsetEarliest c) c) s
    else s in
  let c := self s in
  let err := Heartbeat m (log s) (topic c) (partID c) (offsetCurrent c) in
  let s := emit (Call (CHeartbeat (topic c) (partID c) (offsetCurrent c))) s in
  if negb (Kafka.is_nil err) then on_self (with_claimed 0) s
  else
    let s := on_self (with_lastHeartbeat now) s in
    let '(kafkaConsumer, err) :=
      NewKafkaConsumer m (log s) (topic c) (Int.wrap32 (partID c)) (offsetCurrent c) in
    let s := emit (Call (CKafkaConsumer (topic c) (Int.wrap32 (partID c))
                           (offsetCurrent c))) s in
    if negb (Kafka.is_nil err) then on_self (with_claimed 0) s
    else
      let s := on_self (with_consumer (Some kafkaConsumer)) s in
      let s := emit (Go GoUpdateOffsetsLoop) s in
      let s := emit (Go GoHealthCheckLoop) s in
      emit (Go GoMessagePump) s.

(** [newClaim] returns the claim, or nil ([None]); the history goes on
    either way. *)
Definition newClaim (m : Marshaler) (now : Z) (topic : string) (partID : Z)
    (h : History) : option claim * History :=
  let '(oEarly, oLate, oCur, err) := GetPartitionOffsets m h topic partID in
  let h := h ++ [Call (CGetPartitionOffsets topic partID)] in
  if negb (Kafka.is_nil err) then (None, h)
  else
    let obj :=
      {| topic := topic; partID := partID; claimed := 1; lastHeartbeat := 0;
         consumer := None; messages := []; cyclesBehind := 0;
         offsetCurrent := oCur; offsetEarliest := oEarly; offsetLatest := oLate;
         offsetCurrentHistory := replicate 10 0;
         offsetLatestHistory := replicate 10 0 |} in
    let won := ClaimPartition m h topic partID in
    let h := h ++ [Call (CClaimPartition topic partID)] in
    if negb won then (None, h)
    else
      let s := setup m now {| self := obj; log := h |} in
      (Some (self s), log s).

End Claim.

(** ** The consumer (one per topic), consumer.go *)

Module ConsumerClaim.

(** The [consumerClaim] struct. *)
Record consumerClaim := {
  topic : string;
  partID : Z;
  claimed : Z;                       (* the int32 behind [claimed *int32] *)
  lastHeartbeat : Z;
  consumer : option Kafka.Consumer;
  messages : list (option Kafka.Message);   (* chan *proto.Message, capacity 100 *)
  cyclesBehind : Z;
  offsetCurrent : Z;
  offsetEarliest : Z;
  offsetLatest : Z;
  startOffset : Z;
  startTime : Z
}.

(** The zero value of the struct. *)
Definition zero : consumerClaim :=
  {| topic := ""; partID := 0; claimed := 0; lastHeartbeat := 0;
     consumer := None; messages := []; cyclesBehind := 0;
     offsetCurrent := 0; offsetEarliest := 0; offsetLatest := 0;
     startOffset := 0; startTime := 0 |}.

Definition with_claimed (v : Z) (c : consumerClaim) : consumerClaim :=
  {| topic := topic c; partID := partID c; claimed := v;
     lastHeartbeat := lastHeartbeat c; consumer := consumer c;
     messages := messages c; cyclesBehind := cyclesBehind c;
     offsetCurrent := offsetCurrent c; offsetEarliest := offsetEarliest c;
     offsetLatest := offsetLatest c;
     startOffset := startOffset c; startTime := startTime c |}.

Definition with_lastHeartbeat (v : Z) (c : consumerClaim) : consumerClaim :=
  {| topic := topic c; partID := partID c; claimed := claimed c;
     lastHeartbeat := v; consumer := consumer c;
     messages := messages c; cyclesBehind := cyclesBehind c;
     offsetCurrent := offsetCurrent c; offsetEarliest := offsetEarliest c;
     offsetLatest := offsetLatest c;
     startOffset := startOffset c; startTime := startTime c |}.

Definition with_consumer (v : option Kafka.Consumer) (c : consumerClaim) : consumerClaim :=
  {| topic := topic c; partID := partID c; claimed := claimed c;
     lastHeartbeat := lastHeartbeat c; consumer := v;
     messages := messages c; cyclesBehind := cyclesBehind c;
     offsetCurrent := offsetCurrent c; offsetEarliest := offsetEarliest c;
     offsetLatest := offsetLatest c;
     startOffset := startOffset c; startTime := startTime c |}.

Definition with_messages (v : list (option Kafka.Message)) (c : consumerClaim)
  : consumerClaim :=
  {| topic := topic c; partID := partID c; claimed := claimed c;
     lastHeartbeat := lastHeartbeat c; consumer := consumer c;
     messages := v; cyclesBehind := cyclesBehind c;
     offsetCurrent := offsetCurrent c; offsetEarliest := offsetEarliest c;
     offsetLatest := offsetLatest c;
     startOffset := startOffset c; startTime := startTime c |}.

Definition with_cyclesBehind (v : Z) (c : consumerClaim) : consumerClaim :=
  {| topic := topic c; partID := partID c; claimed := claimed c;
     lastHeartbeat := lastHeartbeat c; consumer := consumer c;
     messages := messages c; cyclesBehind := v;
     offsetCurrent := offsetCurrent c; offsetEarliest := offsetEarliest c;
     offsetLatest := offsetLatest c;
     startOffset := startOffset c; startTime := startTime c |}.

Definition with_offsetCurrent (v : Z) (c : consumerClaim) : consumerClaim :=
  {| topic := topic c; partID := partID c; claimed := claimed c;
     lastHeartbeat := lastHeartbeat c; consumer := consumer c;
     messages := messages c; cyclesBehind := cyclesBehind c;
     offsetCurrent := v; offsetEarliest := offsetEarliest c;
     offsetLatest := offsetLatest c;
     startOffset := startOffset c; startTime := startTime c |}.

Definition with_offsetEarliest (v : Z) (c : consumerClaim) : consumerClaim :=
  {| topic := topic c; partID := partID c; claimed := claimed c;
     lastHeartbeat := lastHeartbeat c; consumer := consumer c;
     messages := messages c; cyclesBehind := cyclesBehind c;
     offsetCurrent := offsetCurrent c; offsetEarliest := v;
     offsetLatest := offsetLatest c;
     startOffset := startOffset c; startTime := startTime c |}.

Definition with_offsetLatest (v : Z) (c : consumerClaim) : consumerClaim :=
  {| topic := topic c; partID := partID c; claimed := claimed c;
     lastHeartbeat := lastHeartbeat c; consumer := consumer c;
     messages := messages c; cyclesBehind := cyclesBehind c;
     offsetCurrent := offsetCurrent c; offsetEarliest := offsetEarliest c;
     offsetLatest := v;
     startOffset := startOffset c; startTime := startTime c |}.

Definition with_startOffset (v : Z) (c : consumerClaim) : consumerClaim :=
  {| topic := topic c; partID := partID c; claimed := claimed c;
     lastHeartbeat := lastHeartbeat c; consumer := consumer c;
     messages := messages c; cyclesBehind := cyclesBehind c;
     offsetCurrent := offsetCurrent c; offsetEarliest := offsetEarliest c;
     offsetLatest := offsetLatest c;
     startOffset := v; startTime := startTime c |}.

Definition with_startTime (v : Z) (c : consumerClaim) : consumerClaim :=
  {| topic := topic c; partID := partID c; claimed := claimed c;
     lastHeartbeat := lastHeartbeat c; consumer := consumer c;
     messages := messages c; cyclesBehind := cyclesBehind c;
     offsetCurrent := offsetCurrent c; offsetEarliest := offsetEarliest c;
     offsetLatest := offsetLatest c;
     startOffset := startOffset c; startTime := v |}.

End ConsumerClaim.

Module Consumer.

Import ConsumerClaim.

Inductive ConsumerBehavior := CbAggressive | CbBalanced.

Definition behavior_eqb (a b : ConsumerBehavior) : bool :=
  match a, b with
  | CbAggressive, CbAggressive | CbBalanced, CbBalanced => true
  | _, _ => false
  end.

(** The [Consumer] struct.  [claims] maps a partition id to the address of
    its [consumerClaim]; the nil map ([None]) is the terminated consumer. *)
Record Consumer := {
  ctopic : string;                   (* topic *)
  partitions : Z;
  claims : option (gmap Z loc);
  behavior : ConsumerBehavior
}.

Definition with_claims (v : option (gmap Z loc)) (c : Consumer) : Consumer :=
  {| ctopic := ctopic c; partitions := partitions c; claims := v;
     behavior := behavior c |}.

(** The store: the [consumerClaim] objects by address (Go pointers never
    dangle, so a read is total), the next free address, the consumer, and
    the history. *)
Record World := {
  heap : loc -> consumerClaim;
  next : loc;
  cons : Consumer;
  log : History
}.

Definition emit (e : Event) (w : World) : World :=
  {| heap := heap w; next := next w; cons := cons w; log := log w ++ [e] |}.

(** An update in place of the object at address [l]. *)
Definition modify (l : loc) (f : consumerClaim -> consumerClaim) (w : World) : World :=
  {| heap := fun l' => if Nat.eqb l' l then f (heap w l) else heap w l';
     next := next w; cons := cons w; log := log w |}.

(** [&consumerClaim{...}] at the point the object escapes the function. *)
Definition alloc (c : consumerClaim) (w : World) : loc * World :=
  (next w,
   {| heap := fun l' => if Nat.eqb l' (next w) then c else heap w l';
      next := S (next w); cons := cons w; log := log w |}).

Definition set_claims (v : option (gmap Z loc)) (w : World) : World :=
  {| heap := heap w; next := next w; cons := with_claims v (cons w); log := log w |}.

(** [_, ok := c.claims[partID]]: reading a nil map finds nothing. *)
Definition claims_lookup (w : World) (partID : Z) : option loc :=
  match claims (cons w) with
  | Some cl => cl !! partID
  | None => None
  end.

(** [len(c.claims)] *)
Definition claims_len (w : World) : Z :=
  match claims (cons w) with
  | Some cl => Z.of_nat (size cl)
  | None => 0
  end.

(** The entries of the map in some order: what a [range] over it visits.
    Go leaves the order open, so it is an argument wherever the source
    ranges over [c.claims]. *)
Definition range_of (w : World) (order : list (Z * loc)) : Prop :=
  order ≡ₚ map_to_list (default ∅ (claims (cons w))).

(** *** [NewConsumer] *)

Definition NewConsumer (m : option Marshaler) (topicName : string)
    (behavior : ConsumerBehavior) : option World * option string :=
  match m with
  | None => (None, Some "Must provide a marshaler"%string)
  | Some m =>
      (Some {| heap := fun _ => ConsumerClaim.zero; next := O;
               cons := {| ctopic := topicName;
                          partitions := Partitions m topicName;
                          claims := Some ∅;
                          behavior := behavior |};
               log := [Go GoManageClaims] |},
       None)
  end.

(** *** [consumerClaim.messagePump]: one trip round the loop *)

(** [c.messages <- msg], as for the [claim]. *)
Definition messagePump_send (msg : option Kafka.Message) (l : loc) (w : World)
  : PumpStep * World :=
  if (length (messages (heap w l)) <? chan_cap)%nat
  then (PumpNext, modify l (fun c => with_messages (messages c ++ [msg]) c) w)
  else (PumpBlocked msg, w).

Definition messagePump_iter (m : Marshaler) (l : loc) (w : World) : PumpStep * World :=
  if negb (claimed (heap w l) =? 1) then (PumpExit, w)
  else
    match consumer (heap w l) with
    | None => (PumpPanic, w)
    | Some h =>
        let '(msg, err) := BrokerConsume m (log w) h in
        let w := emit (Call (CConsume h)) w in
        if Kafka.is_out_of_range err then (PumpExit, modify l (with_claimed 0) w)
        else if negb (Kafka.is_nil err) then (PumpNext, emit (Sleep 1000) w)
        else messagePump_send msg l w
    end.

(** *** [updateOffsets] *)

Fixpoint updateOffsets (m : Marshaler) (order : list (Z * loc)) (w : World)
  : error * World :=
  match order with
  | [] => (None, w)
  | (partID, claim) :: rest =>
      let '(oEarly, oLate, _, err) :=
        GetPartitionOffsets m (log w) (ctopic (cons w)) partID in
      let w := emit (Call (CGetPartitionOffsets (ctopic (cons w)) partID)) w in
      if negb (Kafka.is_nil err) then (err, w)
      else
        let w := modify claim (with_offsetEarliest oEarly) w in
        let w := modify claim (with_offsetLatest oLate) w in
        updateOffsets m rest w
  end.

(** *** [tryClaimPartition]

    The new [consumerClaim] is a local value until [go claim.messagePump()]
    hands its address to another goroutine; it is allocated there. *)

Definition tryClaimPartition (m : Marshaler) (now : Z) (partID : Z) (w : World)
  : bool * World :=
  let t := ctopic (cons w) in
  let currentClaim := GetPartitionClaim m (log w) t partID in
  let w := emit (Call (CGetPartitionClaim t partID)) w in
  if LastHeartbeat currentClaim >? 0 then (false, w)
  else
  let '(oEarly, oLate, oCur, err) := GetPartitionOffsets m (log w) t partID in
  let w := emit (Call (CGetPartitionOffsets t partID)) w in
  if negb (Kafka.is_nil err) then (false, w)
  else
  let claim :=
    {| topic := t; partID := partID; claimed := 1; lastHeartbeat := 0;
       consumer := None; messages := []; cyclesBehind := 0;
       offsetCurrent := oCur; offsetEarliest := oEarly; offsetLatest := oLate;
       startOffset := 0; startTime := 0 |} in
  let won := ClaimPartition m (log w) t partID in
  let w := emit (Call (CClaimPartition t partID)) w in
  if negb won then (false, w)
  else
  let claim :=
    if offsetCurrent claim <? offsetEarliest claim
    then with_offsetCurrent (offsetEarliest claim) claim
    else claim in
  let err := Heartbeat m (log w) t partID (offsetCurrent claim) in
  let w := emit (Call (CHeartbeat t partID (offsetCurrent claim))) w in
  if negb (Kafka.is_nil err) then (false, w)
  else
  let claim := with_lastHeartbeat now claim in
  let claim := with_startOffset (offsetCurrent claim) claim in
  let claim := with_startTime (lastHeartbeat claim) claim in
  let '(kafkaConsumer, err) :=
    NewKafkaConsumer m (log w) t (Int.wrap32 partID) (offsetCurrent claim) in
  let w := emit (Call (CKafkaConsumer t (Int.wrap32 partID) (offsetCurrent claim))) w in
  if negb (Kafka.is_nil err) then (false, w)
  else
  let claim := with_consumer (Some kafkaConsumer) claim in
  let '(l, w) := alloc claim w in
  let w := emit (Go (GoPump l)) w in
  match claims (cons w) with
  | Some cl => (true, set_claims (Some (<[partID := l]> cl)) w)
  | None => (true, w)
  end.

(** *** [claimPartitions]

    [offset] is the value of [rand.Intn(c.partitions)], which panics
    ([None]) when [c.partitions <= 0].  The loop bound and the counter are
    not changed by the body, so the loop runs [c.partitions] times unless it
    is left by [break]. *)

Fixpoint claimPartitions_loop (m : Marshaler) (now : Z) (offset : Z)
    (n : nat) (i : Z) (w : World) : World :=
  match n with
  | O => w
  | S n' =>
      let partID := Int.rem64 (Int.add64 i offset) (partitions (cons w)) in
      match claims_lookup w partID with
      | Some _ => claimPartitions_loop m now offset n' (Int.add64 i 1) w
      | None =>
          let '(ok, w) := tryClaimPartition m now partID w in
          if negb ok then claimPartitions_loop m now offset n' (Int.add64 i 1) w
          else if behavior_eqb (behavior (cons w)) CbBalanced then w
          else claimPartitions_loop m now offset n' (Int.add64 i 1) w
      end
  end.

Definition claimPartitions (m : Marshaler) (now : Z) (offset : Z) (w : World)
  : option World :=
  if partitions (cons w) <=? 0 then None
  else Some (claimPartitions_loop m now offset
               (Z.to_nat (partitions (cons w))) 0 w).

(** *** [getUnhealthyClaims]

    [HeartbeatInterval] is a package constant declared outside the two
    source files; it is a parameter. *)

Fixpoint getUnhealthyClaims_range (HeartbeatInterval nowTime : Z)
    (order : list (Z * loc)) (unclaimPartitions : list loc) (w : World)
  : list loc * World :=
  match order with
  | [] => (unclaimPartitions, w)
  | (_, claim) :: rest =>
      let c := heap w claim in
      if claimed c =? 0
      then getUnhealthyClaims_range HeartbeatInterval nowTime rest
             (unclaimPartitions ++ [claim]) w
      else if offsetCurrent c >=? offsetLatest c
      then getUnhealthyClaims_range HeartbeatInterval nowTime rest unclaimPartitions w
      else if (offsetCurrent c =? startOffset c) || (nowTime =? startTime c)
      then getUnhealthyClaims_range HeartbeatInterval nowTime rest unclaimPartitions w
      else
        let velocity :=
          Float64.div
            (Float64.of_int64 (Int.sub64 (offsetCurrent c) (startOffset c)))
            (Float64.of_int64 (Int.sub64 nowTime (startTime c))) in
        let secondsBehind :=
          Float64.div
            (Float64.of_int64 (Int.sub64 (offsetLatest c) (offsetCurrent c)))
            velocity in
        if PrimFloat.ltb (Float64.of_int64 (HeartbeatInterval * 2)) secondsBehind
        then
          let w := modify claim
                     (fun c => with_cyclesBehind (Int.add64 (cyclesBehind c) 1) c) w in
          if cyclesBehind (heap w claim) >=? 3
          then getUnhealthyClaims_range HeartbeatInterval nowTime rest
                 (unclaimPartitions ++ [claim]) w
          else getUnhealthyClaims_range HeartbeatInterval nowTime rest
                 unclaimPartitions w
        else
          getUnhealthyClaims_range HeartbeatInterval nowTime rest unclaimPartitions
            (modify claim (with_cyclesBehind 0) w)
  end.

Definition getUnhealthyClaims (HeartbeatInterval nowTime : Z)
    (order : list (Z * loc)) (w : World) : list loc * World :=
  getUnhealthyClaims_range HeartbeatInterval nowTime order [] w.

(** *** The health sweep of [manageClaims] *)

(** The loop under the write lock: flip the flag and delete from the map,
    for as long as [maxToRelease] allows. *)
Fixpoint unclaim_loop (unclaimPartitions : list loc) (maxToRelease : Z) (w : World)
  : World :=
  match unclaimPartitions with
  | [] => w
  | claim :: rest =>
      if maxToRelease <=? 0 then w
      else
        let maxToRelease := Int.sub64 maxToRelease 1 in
        let w := modify claim (with_claimed 0) w in
        let w := set_claims
                   (delete (partID (heap w claim)) <$> claims (cons w)) w in
        unclaim_loop rest maxToRelease w
  end.

(** The loop outside the lock: the release messages. *)
Fixpoint release_loop (m : Marshaler) (unclaimPartitions : list loc) (w : World)
  : World :=
  match unclaimPartitions with
  | [] => w
  | claim :: rest =>
      let c := heap w claim in
      (* the error ReleasePartition returns is dropped *)
      let _ := ReleasePartition m (log w) (topic c) (partID c) (offsetCurrent c) in
      let w := emit (Call (CReleasePartition (topic c) (partID c) (offsetCurrent c))) w in
      release_loop m rest w
  end.

(** [if len(unclaimPartitions) > 0 { ... }] *)
Definition releaseUnhealthy (m : Marshaler) (claimCount : Z)
    (unclaimPartitions : list loc) (w : World) : World :=
  if (0 <? length unclaimPartitions)%nat
  then
    let maxToRelease := Int.div64 claimCount 2 in
    let w := unclaim_loop unclaimPartitions maxToRelease w in
    release_loop m unclaimPartitions w
  else w.

(** The body of [if time.Now().After(nextOffsetUpdate) { ... }]: the offset
    refresh, then the health sweep.  [claimCount] was read at the top of the
    iteration; the two orders are those of the two [range] loops. *)
Definition healthSweep (m : Marshaler) (HeartbeatInterval nowTime claimCount : Z)
    (order1 order2 : list (Z * loc)) (w : World) : World :=
  let '(_, w) := updateOffsets m order1 w in
  let '(unclaimPartitions, w) :=
    getUnhealthyClaims HeartbeatInterval nowTime order2 w in
  releaseUnhealthy m claimCount unclaimPartitions w.

Inductive LoopStep := LoopReturn | LoopPanic | LoopNext.

(** One iteration of the [for] loop of [manageClaims].  [due] is
    [time.Now().After(nextOffsetUpdate)], [offset] the random start of the
    claim sweep and [pause] the random sleep in milliseconds. *)
Definition manageClaims_iter (m : Marshaler) (HeartbeatInterval nowTime : Z)
    (due : bool) (order1 order2 : list (Z * loc)) (offset pause : Z) (w : World)
  : LoopStep * World :=
  match claims (cons w) with
  | None => (LoopReturn, w)
  | Some _ =>
      let claimCount := claims_len w in
      let w := if due
               then healthSweep m HeartbeatInterval nowTime claimCount order1 order2 w
               else w in
      match claimPartitions m nowTime offset w with
      | None => (LoopPanic, w)
      | Some w => (LoopNext, emit (Sleep pause) w)
      end
  end.

(** *** [Terminate], [GetCurrentLag], [GetCurrentLoad] *)

Fixpoint Terminate_range (m : Marshaler) (order : list (Z * loc)) (w : World) : World :=
  match order with
  | [] => w
  | (partID, claim) :: rest =>
      let w := modify claim (with_claimed 0) w in
      let _ := ReleasePartition m (log w) (ctopic (cons w)) partID
                 (offsetCurrent (heap w claim)) in
      let w := emit (Call (CReleasePartition (ctopic (cons w)) partID
                             (offsetCurrent (heap w claim)))) w in
      Terminate_range m rest w
  end.

Definition Terminate (m : Marshaler) (order : list (Z * loc)) (w : World) : World :=
  set_claims None (Terminate_range m order w).

Fixpoint GetCurrentLag_range (order : list (Z * loc)) (lag : Z) (w : World) : Z :=
  match order with
  | [] => lag
  | (_, claim) :: rest =>
      let c := heap w claim in
      if offsetLatest c >? offsetCurrent c
      then GetCurrentLag_range rest
             (Int.add64 lag (Int.sub64 (offsetLatest c) (offsetCurrent c))) w
      else GetCurrentLag_range rest lag w
  end.

Definition GetCurrentLag (order : list (Z * loc)) (w : World) : Z :=
  GetCurrentLag_range order 0 w.

Definition GetCurrentLoad (w : World) : Z := claims_len w.

(** *** [Consume] *)

(** The scan under the read lock.  For each claim the [select] either
    receives from the channel into [msg] or takes the [default] branch; the
    [break] leaves the [select] only, so the scan goes on to the next claim. *)
Fixpoint Consume_scan (order : list (Z * loc)) (msg : option Kafka.Message)
    (w : World) : option Kafka.Message * World :=
  match order with
  | [] => (msg, w)
  | (_, claim) :: rest =>
      match messages (heap w claim) with
      | received :: queue =>
          Consume_scan rest received (modify claim (with_messages queue) w)
      | [] => Consume_scan rest msg w
      end
  end.

(** The outer [for] loop; every trip makes one scan, in the order given for
    it.  [None] as a result: still waiting when the given orders ran out.
    [now] is [time.Now().Unix()], read on the returning path only. *)
Fixpoint Consume (HeartbeatInterval now : Z) (orders : list (list (Z * loc)))
    (w : World) : option (list Byte.byte) * World :=
  match orders with
  | [] => (None, w)
  | order :: later =>
      let '(msg, w) := Consume_scan order None w in
      match msg with
      | None => Consume HeartbeatInterval now later (emit (Sleep 50) w)
      | Some msg =>
          match claims_lookup w (Kafka.Partition msg) with
          | None => Consume HeartbeatInterval now later w
          | Some claim =>
              if claimed (heap w claim) =? 1
              then
                let w := modify claim
                           (with_offsetCurrent (Int.add64 (Kafka.Offset msg) 1)) w in
                let w :=
                  if lastHeartbeat (heap w claim) <=? Int.sub64 now HeartbeatInterval
                  then
                    let w := modify claim (with_lastHeartbeat now) w in
                    emit (Go (GoMarshalHeartbeat (Kafka.Topic msg)
                                (Kafka.Partition msg) (Kafka.Offset msg))) w
                  else w in
                (Some (Kafka.Value msg), w)
              else Consume HeartbeatInterval now later w
          end
      end
  end.

End Consumer.

(** * Properties *)

(** ** Machine arithmetic *)

Module IntFacts.

Import Int.

Lemma wrap64_id z : in64 z -> wrap64 z = z.
Proof.
  unfold in64, min64, max64, wrap64, wrap. intros H.
  rewrite Z.mod_small; lia.
Qed.

Lemma add64_id a b : in64 (a + b) -> add64 a b = a + b.
Proof. apply wrap64_id. Qed.

Lemma sub64_id a b : in64 (a - b) -> sub64 a b = a - b.
Proof. apply wrap64_id. Qed.

End IntFacts.

Module Float64Facts.

(** Dividing zero by a converted positive integer.

    [float64(0) / float64(n)] is [+0] for every [0 < n < 2^63]: the
    conversion of a positive integer is a positive finite number (or, were it
    to overflow, [+oo]), never zero or NaN.  This is read off the
    specification of the primitive operations. *)

Section PositiveConversion.

Let prec := FloatOps.prec.
Let emax := FloatOps.emax.

Lemma shr_1_div2 mrs :
  0 <= shr_m mrs -> shr_m (shr_1 mrs) = shr_m mrs / 2.
Proof.
  destruct mrs as [m r s]; simpl. intros Hm.
  destruct m as [|p|p]; [reflexivity| |lia].
  destruct p as [p|p|]; simpl.
  - rewrite Pos2Z.inj_xI. apply Z.div_unique with (r := 1); lia.
  - rewrite Pos2Z.inj_xO. apply Z.div_unique with (r := 0); lia.
  - reflexivity.
Qed.

Lemma shr_iter_div p : forall mrs,
  0 <= shr_m mrs ->
  shr_m (SpecFloat.iter_pos shr_1 p mrs) = shr_m mrs / 2 ^ Z.pos p.
Proof.
  induction p as [p IH|p IH|]; intros mrs Hm; simpl SpecFloat.iter_pos.
  - assert (H1 : 0 <= shr_m (shr_1 mrs)).
    { rewrite shr_1_div2 by assumption. apply Z.div_pos; lia. }
    assert (H2 : 0 <= shr_m (SpecFloat.iter_pos shr_1 p (shr_1 mrs))).
    { rewrite IH by assumption. apply Z.div_pos; lia. }
    rewrite IH, IH, shr_1_div2 by assumption.
    rewrite !Z.div_div by lia. f_equal.
    replace (Z.pos p~1) with (1 + Z.pos p + Z.pos p) by lia.
    rewrite !Z.pow_add_r by lia. change (2 ^ 1) with 2. ring.
  - assert (H2 : 0 <= shr_m (SpecFloat.iter_pos shr_1 p mrs)).
    { rewrite IH by assumption. apply Z.div_pos; lia. }
    rewrite IH, IH by assumption.
    rewrite !Z.div_div by lia. f_equal.
    replace (Z.pos p~0) with (Z.pos p + Z.pos p) by lia.
    rewrite Z.pow_add_r by lia. ring.
  - rewrite shr_1_div2 by assumption. reflexivity.
Qed.

Lemma digits2_pos_le p : 2 ^ (Z.pos (digits2_pos p) - 1) <= Z.pos p.
Proof.
  induction p as [p IH|p IH|]; simpl digits2_pos.
  - rewrite Pos2Z.inj_succ.
    replace (Z.succ (Z.pos (digits2_pos p)) - 1)
      with (Z.succ (Z.pos (digits2_pos p) - 1)) by lia.
    rewrite Z.pow_succ_r by lia. lia.
  - rewrite Pos2Z.inj_succ.
    replace (Z.succ (Z.pos (digits2_pos p)) - 1)
      with (Z.succ (Z.pos (digits2_pos p) - 1)) by lia.
    rewrite Z.pow_succ_r by lia. lia.
  - reflexivity.
Qed.

Lemma shr_record_of_loc_m m l : shr_m (shr_record_of_loc m l) = m.
Proof. destruct l as [|[]]; reflexivity. Qed.

(** Shifting a positive mantissa to its canonical exponent keeps it
    positive, as long as the exponent is not below the smallest one. *)
Lemma shr_fexp_pos m e l :
  0 < m -> SpecFloat.emin prec emax <= e ->
  0 < shr_m (fst (shr_fexp prec emax m e l)) /\
  SpecFloat.emin prec emax <= snd (shr_fexp prec emax m e l).
Proof.
  intros Hm He. unfold shr_fexp, shr.
  destruct m as [|p|p]; try lia. simpl Zdigits2.
  destruct (fexp prec emax (Z.pos (digits2_pos p) + e) - e) as [|n|n] eqn:En;
    simpl fst; simpl snd; rewrite ?shr_record_of_loc_m; try (split; lia).
  split; [|lia].
  rewrite shr_iter_div by (rewrite shr_record_of_loc_m; lia).
  rewrite shr_record_of_loc_m.
  assert (Hn : Z.pos n <= Z.pos (digits2_pos p) - 1).
  { unfold fexp, SpecFloat.emin, prec, emax, FloatOps.prec, FloatOps.emax in *.
    lia. }
  pose proof (digits2_pos_le p) as Hd.
  assert (H2 : 2 ^ Z.pos n <= 2 ^ (Z.pos (digits2_pos p) - 1))
    by (apply Z.pow_le_mono_r; lia).
  apply Z.div_str_pos. lia.
Qed.

Lemma round_nearest_even_pos m l : 0 < m -> 0 < round_nearest_even m l.
Proof.
  intros Hm. destruct l as [|[]]; simpl; try lia.
  destruct (Z.even m); lia.
Qed.

Definition positive_sf (x : spec_float) : Prop :=
  match x with
  | S754_finite false _ _ | S754_infinity false => True
  | _ => False
  end.

Lemma binary_round_aux_positive m e l :
  0 < m -> SpecFloat.emin prec emax <= e ->
  positive_sf (binary_round_aux prec emax false m e l).
Proof.
  intros Hm He. unfold binary_round_aux.
  destruct (shr_fexp_pos m e l Hm He) as [H1 H1e].
  destruct (shr_fexp prec emax m e l) as [mrs' e'] eqn:E1.
  simpl in H1, H1e.
  pose proof (round_nearest_even_pos _ (loc_of_shr_record mrs') H1) as Hr.
  destruct (shr_fexp_pos _ e' loc_Exact Hr H1e) as [H2 _].
  destruct (shr_fexp prec emax
              (round_nearest_even (shr_m mrs') (loc_of_shr_record mrs'))
              e' loc_Exact) as [mrs'' e''].
  simpl in H2.
  destruct (shr_m mrs'') as [|q|q]; try lia.
  destruct (e'' <=? emax - prec); exact I.
Qed.

Lemma binary_normalize_positive n :
  0 < n -> positive_sf (binary_normalize prec emax n 0 false).
Proof.
  intros Hn. destruct n as [|p|p]; try lia.
  unfold binary_normalize, binary_round, shl_align.
  destruct (fexp prec emax (Z.pos (digits2_pos p) + 0) - 0) as [|d|d] eqn:Ed;
    apply binary_round_aux_positive; try lia;
    try (unfold SpecFloat.emin, prec, emax, FloatOps.prec, FloatOps.emax; lia).
  unfold fexp. apply Z.le_max_r.
Qed.

End PositiveConversion.

Lemma zero_div_of_pos n :
  0 < n < 2 ^ 63 ->
  Float64.div (Float64.of_int64 0) (Float64.of_int64 n) = Float64.zero.
Proof.
  intros Hn. unfold Float64.div, Float64.zero, Float64.of_int64.
  destruct (0 <=? n) eqn:E; [|apply Z.leb_gt in E; lia].
  apply Prim2SF_inj. rewrite FloatAxioms.div_spec.
  rewrite !FloatAxioms.of_uint63_spec.
  assert (Hz : Uint63.to_Z (Uint63.of_Z n) = n).
  { rewrite Uint63.of_Z_spec. apply Z.mod_small.
    change Uint63.wB with (2 ^ 63). lia. }
  rewrite Hz.
  pose proof (binary_normalize_positive n ltac:(lia)) as Hp.
  change (Uint63.to_Z (Uint63.of_Z 0)) with 0.
  destruct (binary_normalize FloatOps.prec FloatOps.emax n 0 false)
    as [s|[]| |[] m e]; simpl in Hp; try contradiction; reflexivity.
Qed.

End Float64Facts.

(** ** The velocity estimator *)

Module AverageFacts.

Import Claim.

(** The specification's words: the valid samples are the positive ones, and
    the estimate is [(max - min) / count] over them. *)
Definition valid_samples (vals : list Z) : list Z :=
  List.filter (fun v => 0 <? v) vals.

Definition list_min (x : Z) (xs : list Z) : Z := fold_left Z.min xs x.
Definition list_max (x : Z) (xs : list Z) : Z := fold_left Z.max xs x.

Definition velocity_spec (vals : list Z) : float :=
  match valid_samples vals with
  | [] => Float64.zero
  | x :: xs =>
      Float64.div (Float64.of_int64 (list_max x xs - list_min x xs))
                  (Float64.of_int64 (Z.of_nat (length (x :: xs))))
  end.

Lemma list_min_spec xs : forall x,
  In (list_min x xs) (x :: xs) /\ forall y, In y (x :: xs) -> list_min x xs <= y.
Proof.
  unfold list_min. induction xs as [|a xs IH]; intros x; simpl.
  - split; [now left|]. intros y [->|[]]. lia.
  - destruct (IH (Z.min x a)) as [Hin Hle]. split.
    + destruct Hin as [Hin|Hin]; [|now right; right].
      rewrite <- Hin. destruct (Z.min_spec x a) as [[_ ->]|[_ ->]]; auto.
    + intros y [->|[->|Hy]].
      * specialize (Hle (Z.min y a) (or_introl eq_refl)). lia.
      * specialize (Hle (Z.min x y) (or_introl eq_refl)). lia.
      * apply Hle. now right.
Qed.

Lemma list_max_spec xs : forall x,
  In (list_max x xs) (x :: xs) /\ forall y, In y (x :: xs) -> y <= list_max x xs.
Proof.
  unfold list_max. induction xs as [|a xs IH]; intros x; simpl.
  - split; [now left|]. intros y [->|[]]. lia.
  - destruct (IH (Z.max x a)) as [Hin Hle]. split.
    + destruct Hin as [Hin|Hin]; [|now right; right].
      rewrite <- Hin. destruct (Z.max_spec x a) as [[_ ->]|[_ ->]]; auto.
    + intros y [->|[->|Hy]].
      * specialize (Hle (Z.max y a) (or_introl eq_refl)). lia.
      * specialize (Hle (Z.max x y) (or_introl eq_refl)). lia.
      * apply Hle. now right.
Qed.

Lemma valid_samples_cons v vals :
  valid_samples (v :: vals) =
    if 0 <? v then v :: valid_samples vals else valid_samples vals.
Proof. reflexivity. Qed.

(** The loop once [min] and [max] have been set by a first valid sample. *)
Lemma average_loop_set vals : forall mn mx ct,
  0 < mn -> 0 < mx -> 0 <= ct ->
  ct + Z.of_nat (length vals) <= Int.max64 ->
  average_loop vals mn mx ct =
    (list_min mn (valid_samples vals), list_max mx (valid_samples vals),
     ct + Z.of_nat (length (valid_samples vals))).
Proof.
  induction vals as [|v vals IH]; intros mn mx ct Hmn Hmx Hct Hlen.
  - simpl. now rewrite Z.add_0_r.
  - rewrite valid_samples_cons. cbn [average_loop length] in *.
    destruct (Z.leb_spec v 0) as [Hv|Hv].
    + destruct (Z.ltb_spec 0 v) as [Hv'|_]; [lia|].
      apply IH; lia.
    + destruct (Z.ltb_spec 0 v) as [_|Hv']; [|lia].
      replace (mn =? 0) with false by (symmetry; apply Z.eqb_neq; lia).
      replace (mx =? 0) with false by (symmetry; apply Z.eqb_neq; lia).
      cbn [orb]. rewrite IntFacts.add64_id by (unfold Int.in64, Int.min64, Int.max64 in *; lia).
      rewrite IH; try lia.
      * unfold list_min, list_max. cbn [fold_left length].
        f_equal; [f_equal|lia].
        -- destruct (Z.ltb_spec v mn); f_equal; lia.
        -- rewrite Z.gtb_ltb. destruct (Z.ltb_spec mx v); f_equal; lia.
      * destruct (v <? mn); lia.
      * destruct (v >? mx); lia.
Qed.

(** The whole loop from its initial state. *)
Lemma average_loop_init vals :
  Z.of_nat (length vals) <= Int.max64 ->
  average_loop vals 0 0 0 =
    match valid_samples vals with
    | [] => (0, 0, 0)
    | x :: xs => (list_min x xs, list_max x xs, Z.of_nat (length (x :: xs)))
    end.
Proof.
  induction vals as [|v vals IH]; intros Hlen; [reflexivity|].
  rewrite valid_samples_cons. cbn [average_loop length] in *.
  destruct (Z.leb_spec v 0) as [Hv|Hv].
  - destruct (Z.ltb_spec 0 v) as [Hv'|_]; [lia|]. apply IH. lia.
  - destruct (Z.ltb_spec 0 v) as [_|Hv']; [|lia].
    cbn [Z.eqb orb]. rewrite IntFacts.add64_id by (unfold Int.in64, Int.min64, Int.max64; lia).
    rewrite average_loop_set; try lia.
    f_equal. cbn [length]. lia.
Qed.

Lemma valid_samples_pos vals x : In x (valid_samples vals) -> 0 < x.
Proof.
  unfold valid_samples. rewrite filter_In. intros [_ H]. now apply Z.ltb_lt.
Qed.

Lemma valid_samples_in64 vals x :
  Forall Int.in64 vals -> In x (valid_samples vals) -> Int.in64 x.
Proof.
  intros Hall Hin. unfold valid_samples in Hin. apply filter_In in Hin.
  rewrite List.Forall_forall in Hall. now apply Hall.
Qed.

Lemma valid_samples_length vals :
  (length (valid_samples vals) <= length vals)%nat.
Proof. apply List.filter_length_le. Qed.

(** The code computes what the specification says. *)
Lemma average_refines vals :
  Forall Int.in64 vals -> Z.of_nat (length vals) <= Int.max64 ->
  average vals = velocity_spec vals.
Proof.
  intros Hall Hlen. unfold average, velocity_spec.
  rewrite average_loop_init by assumption.
  destruct (valid_samples vals) as [|x xs] eqn:E; [reflexivity|].
  replace (Z.of_nat (length (x :: xs)) =? 0) with false
    by (symmetry; apply Z.eqb_neq; cbn [length]; lia).
  rewrite IntFacts.sub64_id; [reflexivity|].
  destruct (list_min_spec xs x) as [Hmin _].
  destruct (list_max_spec xs x) as [Hmax _].
  rewrite <- E in Hmin, Hmax.
  pose proof (valid_samples_pos _ _ Hmin).
  pose proof (valid_samples_pos _ _ Hmax).
  pose proof (valid_samples_in64 _ _ Hall Hmin) as H1.
  pose proof (valid_samples_in64 _ _ Hall Hmax) as H2.
  unfold Int.in64, Int.min64, Int.max64 in *. lia.
Qed.

Lemma velocity_spec_equal_samples vals :
  Z.of_nat (length vals) <= Int.max64 ->
  (forall x y, In x (valid_samples vals) -> In y (valid_samples vals) -> x = y) ->
  velocity_spec vals = Float64.zero.
Proof.
  intros Hlen Heq. unfold velocity_spec.
  pose proof (valid_samples_length vals) as Hl.
  destruct (valid_samples vals) as [|x xs] eqn:E; [reflexivity|].
  destruct (list_min_spec xs x) as [Hmin _].
  destruct (list_max_spec xs x) as [Hmax _].
  rewrite (Heq _ _ Hmax Hmin), Z.sub_diag.
  apply Float64Facts.zero_div_of_pos.
  cbn [length] in *. unfold Int.max64 in Hlen. lia.
Qed.

(** C5. For every sequence of int64 samples, [average] ignores the
    non-positive samples and returns [(max - min) / count] over the positive
    ones as a float64; it returns 0 when there is no positive sample (empty
    or all-zero input), 0 for exactly one positive sample, and 0 whenever
    all positive samples are equal. *)
Theorem average_velocity_estimator (vals : list Z) :
  Forall Int.in64 vals -> Z.of_nat (length vals) <= Int.max64 ->
  average vals = velocity_spec vals /\
  (valid_samples vals = [] -> average vals = Float64.zero) /\
  (vals = [] -> average vals = Float64.zero) /\
  (Forall (fun v => v = 0) vals -> average vals = Float64.zero) /\
  (length (valid_samples vals) = 1%nat -> average vals = Float64.zero) /\
  ((forall x y, In x (valid_samples vals) -> In y (valid_samples vals) -> x = y) ->
   average vals = Float64.zero).
Proof.
  intros Hall Hlen.
  pose proof (average_refines vals Hall Hlen) as Href.
  assert (Hnone : valid_samples vals = [] -> average vals = Float64.zero).
  { intros E. rewrite Href. unfold velocity_spec. now rewrite E. }
  assert (Heq : (forall x y, In x (valid_samples vals) ->
                             In y (valid_samples vals) -> x = y) ->
                average vals = Float64.zero).
  { intros H. rewrite Href. now apply velocity_spec_equal_samples. }
  repeat split; try assumption.
  - intros ->. reflexivity.
  - intros Hz. apply Hnone. unfold valid_samples.
    clear -Hz. induction Hz as [|v l Hv _ IH]; [reflexivity|].
    subst v. exact IH.
  - intros H1. apply Heq. intros x y Hx Hy.
    destruct (valid_samples vals) as [|a [|b l]]; try discriminate.
    destruct Hx as [<-|[]], Hy as [<-|[]]. reflexivity.
Qed.

(** The theorem at a buffer that holds the sample 7 three times, next to
    unset and negative slots. *)
Lemma average_velocity_estimator_witness :
  Forall Int.in64 [0; 7; -3; 7; 7] /\
  Z.of_nat (length [0; 7; -3; 7; 7]) <= Int.max64 /\
  valid_samples [0; 7; -3; 7; 7] = [7; 7; 7] /\
  average [0; 7; -3; 7; 7] = velocity_spec [0; 7; -3; 7; 7] /\
  average [0; 7; -3; 7; 7] = Float64.zero.
Proof.
  assert (H1 : Forall Int.in64 [0; 7; -3; 7; 7])
    by (repeat (apply List.Forall_cons;
                  [unfold Int.in64, Int.min64, Int.max64; lia|]);
        apply List.Forall_nil).
  assert (H2 : Z.of_nat (length [0; 7; -3; 7; 7]) <= Int.max64)
    by (unfold Int.max64; cbn; lia).
  destruct (average_velocity_estimator [0; 7; -3; 7; 7] H1 H2)
    as (Href & _ & _ & _ & _ & Heq).
  split; [exact H1|]. split; [exact H2|]. split; [reflexivity|].
  split; [exact Href|]. apply Heq.
  intros x y Hx Hy. cbn in Hx, Hy.
  destruct Hx as [<-|[<-|[<-|[]]]], Hy as [<-|[<-|[<-|[]]]]; reflexivity.
Defined.

(** The ring buffers of scenario 4, an empty buffer, and a single sample. *)
Example average_examples :
  average [10; 20; 30; 40; 50; 60; 70; 80; 90; 100] = 9%float /\
  average [1; 2; 3; 4; 5; 5; 5; 5; 5; 5] = 0x1.999999999999ap-2%float /\
  average [0; 0; 0; 0; 0; 0; 0; 0; 0; 0] = 0%float /\
  average [] = 0%float /\
  average [0; 0; 42; 0] = 0%float /\
  average [-5; 3; 0; 9] = 3%float.
Proof. vm_compute. repeat split. Qed.


End AverageFacts.

(** ** Oracles and states used in the examples *)

Module Fixtures.

Definition some_error : error := Some (Kafka.ErrOther "broker unavailable").

Definition a_message (p off : Z) (payload : Byte.byte) : Kafka.Message :=
  {| Kafka.Topic := "events"; Kafka.Partition := p; Kafka.Offset := off;
     Kafka.Value := [payload] |}.

(** A marshaler over a topic of [n] unclaimed partitions with offsets
    [(0, 10, 0)], whose calls answer as given; the broker hands out, for the
    consumer of partition [p], the message at offset 0 with payload [p]. *)
Definition marshaler (n : Z) (fetch claim_ok hb rel kc : Z -> bool)
    (consume_err : error) : Marshaler :=
  {| Partitions := fun _ => n;
     GetPartitionClaim := fun _ _ _ => {| LastHeartbeat := 0 |};
     GetPartitionOffsets := fun _ _ p =>
       if fetch p then (0, 10, 0, None) else (0, 0, 0, some_error);
     ClaimPartition := fun _ _ p => claim_ok p;
     Heartbeat := fun _ _ p _ => if hb p then None else some_error;
     ReleasePartition := fun _ _ p _ => if rel p then None else some_error;
     NewKafkaConsumer := fun _ _ p _ =>
       if kc p then (Z.to_nat p, None) else (O, some_error);
     BrokerConsume := fun _ h =>
       match consume_err with
       | None => (Some (a_message (Z.of_nat h) 0
                          (match h with O => Byte.x00 | _ => Byte.x01 end)), None)
       | Some e => (None, Some e)
       end |}.

Definition yes (_ : Z) : bool := true.
Definition no (_ : Z) : bool := false.
Definition all_but (q : Z) (p : Z) : bool := negb (p =? q).

(** Everything succeeds. *)
Definition healthy_marshaler (n : Z) : Marshaler :=
  marshaler n yes yes yes yes yes None.

(** A claim of partition 3 at offset 5 of 9, heartbeated at time 100. *)
Definition a_claim : Claim.claim :=
  {| Claim.topic := "events"; Claim.partID := 3; Claim.claimed := 1;
     Claim.lastHeartbeat := 100; Claim.consumer := Some 3%nat;
     Claim.messages := []; Claim.cyclesBehind := 0;
     Claim.offsetCurrent := 5; Claim.offsetEarliest := 0;
     Claim.offsetLatest := 9;
     Claim.offsetCurrentHistory := [1; 2; 3; 4; 5; 5; 5; 5; 5; 5];
     Claim.offsetLatestHistory := [10; 20; 30; 40; 50; 60; 70; 80; 90; 100] |}.

Definition a_state : Claim.state := {| Claim.self := a_claim; Claim.log := [] |}.

End Fixtures.

(** ** The claim: release, heartbeat, health check *)

Module ClaimFacts.

Import Claim.

(** *** Release *)

Definition at_call (p : pc) : nat :=
  match p with AtCall => 1 | _ => 0 end.

(** Callers that won the swap and have not yet called the marshaler. *)
Fixpoint pending (pcs : list pc) : nat :=
  match pcs with
  | [] => 0
  | p :: rest => at_call p + pending rest
  end.

(** 1 while the flag is active, 0 once it is released. *)
Definition flag_budget (c : claim) : nat :=
  if claimed c =? 1 then 1%nat else 0%nat.

(** What is conserved: calls made, plus calls owed by winners of the swap,
    plus the one swap that can still be won. *)
Definition release_potential (cfg : config) : nat :=
  (release_calls (log (fst cfg)) + pending (snd cfg) + flag_budget (self (fst cfg)))%nat.

Lemma pending_insert pcs : forall i a b,
  pcs !! i = Some a ->
  (pending (<[i := b]> pcs) + at_call a = pending pcs + at_call b)%nat.
Proof.
  induction pcs as [|p pcs IH]; intros i a b Hi; [discriminate|].
  destruct i as [|i]; simpl in *.
  - injection Hi as ->. lia.
  - specialize (IH i a b Hi). lia.
Qed.

Lemma pending_replicate n : pending (replicate n AtCas) = 0%nat.
Proof. induction n; simpl; auto. Qed.

Lemma release_calls_app h1 h2 :
  release_calls (h1 ++ h2) = (release_calls h1 + release_calls h2)%nat.
Proof. unfold release_calls. now rewrite List.filter_app, List.length_app. Qed.

Lemma release_calls_none evs :
  Forall (fun e => is_release_call e = false) evs -> release_calls evs = 0%nat.
Proof.
  unfold release_calls. induction 1 as [|e evs He _ IH]; [reflexivity|].
  cbn [List.filter]. rewrite He. exact IH.
Qed.

Lemma Release_call_effect m s :
  snd (Release_call m s) =
    emit (Call (CReleasePartition (topic (self s)) (partID (self s))
                  (offsetCurrent (self s)))) s.
Proof. unfold Release_call. destruct (negb _); reflexivity. Qed.

Lemma step_potential m cfg cfg' :
  step m cfg cfg' -> (release_potential cfg' <= release_potential cfg)%nat.
Proof.
  unfold release_potential.
  destruct 1 as [s pcs i Hi|s pcs i Hi|s s' pcs [Hflag (evs & Hlog & Hevs)]];
    cbn [fst snd self log].
  - pose proof (pending_insert pcs i AtCas
                  (if fst (Release_cas (self s)) then AtCall else Returned false) Hi) as Hp.
    unfold Release_cas, flag_budget in *.
    destruct (claimed (self s) =? 1) eqn:E;
      cbn [fst snd at_call claimed with_claimed] in *; cbn; rewrite ?E; lia.
  - pose proof (pending_insert pcs i AtCall
                  (Returned (fst (Release_call m s))) Hi) as Hp.
    rewrite Release_call_effect. cbn [emit log self at_call] in *.
    rewrite release_calls_app. cbn. lia.
  - rewrite Hlog, release_calls_app, (release_calls_none _ Hevs).
    unfold flag_budget.
    destruct Hflag as [->| ->]; [lia|]. cbn. destruct (claimed (self s) =? 1); lia.
Qed.

Lemma steps_potential m cfg cfg' :
  steps m cfg cfg' -> (release_potential cfg' <= release_potential cfg)%nat.
Proof.
  induction 1 as [|cfg1 cfg2 cfg3 _ IH Hstep]; [lia|].
  pose proof (step_potential _ _ _ Hstep). lia.
Qed.

(** C2. [Release] moves the flag from active to released by
    compare-and-swap and returns false without a marshaler call when the
    flag was already released; when it wins the swap it calls
    [ReleasePartition] once with the current offset and returns false on a
    marshaler error (true otherwise); and whatever the number of callers of
    [Release] and however their steps interleave with each other and with
    the other workers of the claim, [ReleasePartition] is invoked at most
    once through them (not at all if the flag was already released). *)
Theorem Release_at_most_one_ReleasePartition (m : Marshaler) :
  (forall s, claimed (self s) <> 1 -> Release m s = (false, s)) /\
  (forall s, claimed (self s) = 1 ->
     let c := self s in
     let err := ReleasePartition m (log s) (topic c) (partID c) (offsetCurrent c) in
     Release m s =
       (Kafka.is_nil err,
        {| self := with_claimed 0 c;
           log := log s ++ [Call (CReleasePartition (topic c) (partID c) (offsetCurrent c))] |})) /\
  (forall n s s' pcs',
     steps m (s, replicate n AtCas) (s', pcs') ->
     (release_calls (log s') <= release_calls (log s) + flag_budget (self s))%nat).
Proof.
  split; [|split].
  - intros s Hs. unfold Release, Release_cas.
    destruct (Z.eqb_spec (claimed (self s)) 1); [contradiction|reflexivity].
  - intros s Hs c err. unfold Release, Release_cas.
    rewrite Hs. cbn [Z.eqb Pos.eqb negb]. unfold Release_call.
    cbn [self log emit with_claimed topic partID offsetCurrent].
    fold c. fold err. destruct (Kafka.is_nil err); reflexivity.
  - intros n s s' pcs' Hsteps.
    pose proof (steps_potential _ _ _ Hsteps) as H.
    unfold release_potential in H. cbn [fst snd] in H.
    rewrite pending_replicate in H. lia.
Qed.

(** Two callers race on an active claim; the first wins the swap, the second
    loses it, the winner makes the one call. *)
Example Release_race :
  exists s' pcs',
    steps (Fixtures.healthy_marshaler 4) (Fixtures.a_state, [AtCas; AtCas]) (s', pcs') /\
    pcs' = [Returned true; Returned false] /\
    log s' = [Call (CReleasePartition "events" 3 5)] /\
    claimed (self s') = 0.
Proof.
  eexists _, _. split.
  - eapply steps_snoc; [eapply steps_snoc; [eapply steps_snoc; [apply steps_refl|]|]|].
    + apply (step_cas _ _ _ 0%nat). reflexivity.
    + apply (step_cas _ _ _ 1%nat). reflexivity.
    + apply (step_call _ _ _ 0%nat). reflexivity.
  - repeat split.
Qed.

Example Release_twice :
  let m := Fixtures.healthy_marshaler 4 in
  let '(r1, s1) := Release m Fixtures.a_state in
  let '(r2, s2) := Release m s1 in
  r1 = true /\ r2 = false /\ s2 = s1 /\ release_calls (log s2) = 1%nat.
Proof. repeat split. Qed.

Example Release_marshaler_error :
  let m := Fixtures.marshaler 4 Fixtures.yes Fixtures.yes Fixtures.yes
             Fixtures.no Fixtures.yes None in
  fst (Release m Fixtures.a_state) = false /\
  claimed (self (snd (Release m Fixtures.a_state))) = 0.
Proof. repeat split. Qed.

(** *** Heartbeat *)

(** Whatever the marshaler answers, [heartbeat] makes the call with the
    current offset and then stamps [lastHeartbeat]; a failed call also
    schedules a release. *)
Lemma heartbeat_effect m now s :
  let c := self s in
  let err := Heartbeat m (log s) (topic c) (partID c) (offsetCurrent c) in
  heartbeat m now s =
    {| self := with_lastHeartbeat now c;
       log := log s ++ [Call (CHeartbeat (topic c) (partID c) (offsetCurrent c))]
                    ++ (if Kafka.is_nil err then [] else [Go GoRelease]) |}.
Proof.
  intros c err. unfold heartbeat. fold c. fold err.
  destruct (Kafka.is_nil err); cbn; unfold on_self, emit; cbn;
    rewrite <- ?app_assoc; reflexivity.
Qed.

(** C3 (the code departs from the claim). On a claim last heartbeated at
    time 100, a heartbeat at time 200 that the marshaler rejects is sent with
    the current offset and schedules a release, as the claim says, but
    [lastHeartbeat] is set to 200 all the same: the assignment is not
    guarded by the success of the call. *)
Theorem heartbeat_failure_still_stamps :
  let m := Fixtures.marshaler 4 Fixtures.yes Fixtures.yes Fixtures.no
             Fixtures.yes Fixtures.yes None in
  let s := Fixtures.a_state in
  Heartbeat m (log s) "events" 3 5 = Fixtures.some_error /\
  lastHeartbeat (self s) = 100 /\
  log (heartbeat m 200 s) = [Call (CHeartbeat "events" 3 5); Go GoRelease] /\
  lastHeartbeat (self (heartbeat m 200 s)) = 200.
Proof. repeat split. Qed.

(** The sibling path: when the first heartbeat of a claim fails, [setup]
    gives the claim up and returns before [lastHeartbeat] is assigned. *)
Example setup_heartbeat_failure :
  let m := Fixtures.marshaler 4 Fixtures.yes Fixtures.yes Fixtures.no
             Fixtures.yes Fixtures.yes None in
  let s := setup m 200 Fixtures.a_state in
  lastHeartbeat (self s) = 100 /\ claimed (self s) = 0 /\
  log s = [Call (CHeartbeat "events" 3 5)].
Proof. repeat split. Qed.

Example newClaim_cold_start :
  let m := Fixtures.healthy_marshaler 1 in
  match newClaim m 100 "events" 0 [] with
  | (Some c, h) =>
      claimed c = 1 /\ lastHeartbeat c = 100 /\ offsetCurrent c = 0 /\
      GetCurrentLag c = 10 /\
      h = [Call (CGetPartitionOffsets "events" 0); Call (CClaimPartition "events" 0);
           Call (CHeartbeat "events" 0 0); Call (CKafkaConsumer "events" 0 0);
           Go GoUpdateOffsetsLoop; Go GoHealthCheckLoop; Go GoMessagePump]
  | (None, _) => False
  end.
Proof. vm_compute. repeat split. Qed.


(** *** Health check *)

(** C4. A single health check evaluates, in this order: (1) if
    [lastHeartbeat < now - HeartbeatInterval] a release is scheduled and the
    check is unhealthy, whatever the velocities; (2) else if
    [offsetCurrent >= offsetLatest], [cyclesBehind] is reset to 0 and the
    check is healthy; (3) else if the partition velocity is at most the
    consumer velocity, [cyclesBehind] is reset to 0 and the check is healthy;
    (4) otherwise [cyclesBehind] is incremented, and if it is then 3 or more
    a release is scheduled and the check is unhealthy, else it is healthy.
    Nothing else changes.  The subtraction and the increment are Go's int64
    operations. *)
Theorem healthCheck_decision_order (HeartbeatInterval now : Z) (s : state) :
  let c := self s in
  let expired := lastHeartbeat c < Int.sub64 now HeartbeatInterval in
  let caught_up := offsetCurrent c >= offsetLatest c in
  let keeping_pace := Float64.le (PartitionVelocity c) (ConsumerVelocity c) = true in
  let behind := Int.add64 (cyclesBehind c) 1 in
  (expired ->
     healthCheck HeartbeatInterval now s = (false, emit (Go GoRelease) s)) /\
  (~ expired -> caught_up ->
     healthCheck HeartbeatInterval now s = (true, on_self (with_cyclesBehind 0) s)) /\
  (~ expired -> ~ caught_up -> keeping_pace ->
     healthCheck HeartbeatInterval now s = (true, on_self (with_cyclesBehind 0) s)) /\
  (~ expired -> ~ caught_up -> ~ keeping_pace ->
     (behind >= 3 ->
        healthCheck HeartbeatInterval now s =
          (false, emit (Go GoRelease) (on_self (with_cyclesBehind behind) s))) /\
     (behind < 3 ->
        healthCheck HeartbeatInterval now s =
          (true, on_self (with_cyclesBehind behind) s))).
Proof.
  intros c expired caught_up keeping_pace behind.
  subst c expired caught_up keeping_pace behind. unfold healthCheck.
  destruct (Z.ltb_spec (lastHeartbeat (self s)) (Int.sub64 now HeartbeatInterval))
    as [He|He].
  { repeat split; intros; try lia; reflexivity. }
  rewrite (Z.geb_leb (offsetCurrent (self s))).
  destruct (Z.leb_spec (offsetLatest (self s)) (offsetCurrent (self s))) as [Hc|Hc].
  { repeat split; intros; try lia; reflexivity. }
  destruct (Float64.le (PartitionVelocity (self s)) (ConsumerVelocity (self s))) eqn:Hv.
  { repeat split; intros; try lia; try reflexivity; congruence. }
  cbn [on_self self cyclesBehind with_cyclesBehind].
  rewrite Z.geb_leb.
  destruct (Z.leb_spec 3 (Int.add64 (cyclesBehind (self s)) 1)) as [Hb|Hb];
    repeat split; intros; try lia; try reflexivity.
Qed.

(** The four cases occur: the claim of the fixtures, whose consumer stalled
    at offset 5 while the partition grew, is checked at several times and
    with several counters. *)
Example healthCheck_expired :
  healthCheck 60 161 Fixtures.a_state = (false, emit (Go GoRelease) Fixtures.a_state).
Proof. reflexivity. Qed.

Example healthCheck_caught_up :
  let s := on_self (with_offsetCurrent 9) Fixtures.a_state in
  healthCheck 60 160 (on_self (with_cyclesBehind 2) s) = (true, s).
Proof. reflexivity. Qed.

Example healthCheck_velocities :
  ConsumerVelocity Fixtures.a_claim = 0x1.999999999999ap-2%float /\
  PartitionVelocity Fixtures.a_claim = 9%float.
Proof. split; vm_compute; reflexivity. Qed.

Example healthCheck_lagging_once :
  healthCheck 60 160 Fixtures.a_state =
    (true, on_self (with_cyclesBehind 1) Fixtures.a_state).
Proof. vm_compute. reflexivity. Qed.

(** Scenario 4 of the specification: three consecutive checks of the
    stalled claim; the third one gives it up. *)
Example healthCheck_three_strikes :
  let '(h1, s1) := healthCheck 60 160 Fixtures.a_state in
  let '(h2, s2) := healthCheck 60 160 s1 in
  let '(h3, s3) := healthCheck 60 160 s2 in
  (h1, h2, h3) = (true, true, false) /\
  cyclesBehind (self s3) = 3 /\ log s3 = [Go GoRelease].
Proof. vm_compute. repeat split. Qed.

Example healthCheck_keeping_pace :
  let c := with_refresh 0 9 [10; 20; 30; 40; 50; 60; 70; 80; 90; 100]
             [10; 20; 30; 40; 50; 60; 70; 80; 90; 100] Fixtures.a_claim in
  let s := {| self := with_cyclesBehind 2 c; log := [] |} in
  healthCheck 60 160 s = (true, {| self := c; log := [] |}).
Proof. vm_compute. reflexivity. Qed.


(** Scenario 5: the last heartbeat is [HeartbeatInterval + 1] seconds old;
    one trip of the health-check loop schedules the release and no
    heartbeat. *)
Example healthCheckLoop_expired :
  healthCheckLoop_iter 60 161 1000 Fixtures.a_state =
    (PumpNext, {| self := Fixtures.a_claim; log := [Sleep 1000; Go GoRelease] |}).
Proof. reflexivity. Qed.


End ClaimFacts.

(** ** The consumer: claiming partitions *)

Module ClaimingFacts.

Import ConsumerClaim Consumer.

(** The world [w] after the events [evs], nothing else changed. *)
Definition extend (w : World) (evs : list Event) : World :=
  {| heap := heap w; next := next w; cons := cons w; log := log w ++ evs |}.

Definition is_pump_start (e : Event) : bool :=
  match e with Go (GoPump _) => true | _ => false end.

(** The heartbeats sent for partition [p] in a list of events. *)
Definition heartbeats_for (p : Z) (evs : list Event) : list Event :=
  List.filter (is_heartbeat_call_for p) evs.

(** The [consumerClaim] that [tryClaimPartition] builds when every step
    succeeds. *)
Definition new_claim (t : string) (p now oEarly oLate cur : Z)
    (kc : Kafka.Consumer) : consumerClaim :=
  {| topic := t; partID := p; claimed := 1; lastHeartbeat := now;
     consumer := Some kc; messages := []; cyclesBehind := 0;
     offsetCurrent := cur; offsetEarliest := oEarly; offsetLatest := oLate;
     startOffset := cur; startTime := now |}.

(** The world after a successful [tryClaimPartition]. *)
Definition claimed_world (w : World) (p : Z) (c : consumerClaim)
    (evs : list Event) : World :=
  {| heap := fun l' => if Nat.eqb l' (next w) then c else heap w l';
     next := S (next w);
     cons := with_claims (insert p (next w) <$> claims (cons w)) (cons w);
     log := log w ++ evs ++ [Go (GoPump (next w))] |}.

Lemma emit_extend w evs e : emit e (extend w evs) = extend w (evs ++ [e]).
Proof. unfold emit, extend. cbn. now rewrite <- app_assoc. Qed.

Lemma emit_as_extend w e : emit e w = extend w [e].
Proof. reflexivity. Qed.

Lemma extend_extend w evs1 evs2 :
  extend (extend w evs1) evs2 = extend w (evs1 ++ evs2).
Proof. unfold extend. cbn. now rewrite <- app_assoc. Qed.

(** Brings a chain of [emit]s into the form [extend w [e1; ...; en]]. *)
Ltac collect_events :=
  rewrite ?emit_extend, ?emit_as_extend, ?extend_extend;
  cbn [app log extend cons heap next].

Section TryClaim.

Variable m : Marshaler.
Variables now p : Z.
Variable w : World.

(** The answers the marshaler gives along the way, each to the history as
    it stands when the question is asked. *)
Let t := ctopic (cons w).
Let e1 := Call (CGetPartitionClaim t p).
Let e2 := Call (CGetPartitionOffsets t p).
Let e3 := Call (CClaimPartition t p).
Let held := LastHeartbeat (GetPartitionClaim m (log w) t p) >? 0.
Let fetched := GetPartitionOffsets m (log w ++ [e1]) t p.
Let oEarly := fst (fst (fst fetched)).
Let oLate := snd (fst (fst fetched)).
Let oCur := snd (fst fetched).
Let fetch_ok := Kafka.is_nil (snd fetched).
Let won := ClaimPartition m (log w ++ [e1; e2]) t p.
Let cur := if oCur <? oEarly then oEarly else oCur.
Let e4 := Call (CHeartbeat t p cur).
Let beat_ok := Kafka.is_nil (Heartbeat m (log w ++ [e1; e2; e3]) t p cur).
Let created := NewKafkaConsumer m (log w ++ [e1; e2; e3; e4]) t (Int.wrap32 p) cur.
Let e5 := Call (CKafkaConsumer t (Int.wrap32 p) cur).
Let created_ok := Kafka.is_nil (snd created).

(** [tryClaimPartition], step by step. *)
Lemma tryClaimPartition_run :
  tryClaimPartition m now p w =
    if held then (false, extend w [e1])
    else if negb fetch_ok then (false, extend w [e1; e2])
    else if negb won then (false, extend w [e1; e2; e3])
    else if negb beat_ok then (false, extend w [e1; e2; e3; e4])
    else if negb created_ok then (false, extend w [e1; e2; e3; e4; e5])
    else (true, claimed_world w p
                  (new_claim t p now oEarly oLate cur (fst created))
                  [e1; e2; e3; e4; e5]).
Proof.
  unfold tryClaimPartition.
  subst held fetch_ok won beat_ok created_ok cur oEarly oLate oCur e4 e5
        fetched created.
  fold t. cbv zeta. collect_events. fold e1 e2 e3.
  destruct (LastHeartbeat (GetPartitionClaim m (log w) t p) >? 0); [reflexivity|].
  destruct (GetPartitionOffsets m (log w ++ [e1]) t p) as [[[oE oL] oC] ferr].
  cbn [fst snd]. collect_events.
  destruct (Kafka.is_nil ferr); cbn [negb]; [|reflexivity].
  destruct (ClaimPartition m (log w ++ [e1; e2]) t p); cbn [negb]; [|reflexivity].
  cbn [offsetCurrent offsetEarliest].
  destruct (oC <? oE);
    cbn [with_offsetCurrent with_lastHeartbeat with_startOffset with_startTime
           with_consumer topic partID claimed lastHeartbeat consumer messages
           cyclesBehind offsetCurrent offsetEarliest offsetLatest startOffset
           startTime]; collect_events.
  all: match goal with
       | |- context [Heartbeat m ?h ?a ?b ?c] =>
           destruct (Kafka.is_nil (Heartbeat m h a b c)); cbn [negb]; [|reflexivity]
       end.
  all: match goal with
       | |- context [NewKafkaConsumer m ?h ?a ?b ?c] =>
           destruct (NewKafkaConsumer m h a b c) as [kc kerr]
       end; cbn [fst snd]; collect_events.
  all: destruct (Kafka.is_nil kerr); cbn [negb]; [|reflexivity].
  all: unfold alloc, claimed_world, new_claim, set_claims, emit, extend.
  all: cbn [heap next cons log claims with_claims].
  all: destruct (claims (cons w)) as [cl|] eqn:Ecl;
       cbn [fmap option_fmap option_map]; rewrite <- ?app_assoc; cbn [app];
       try reflexivity.
  all: f_equal; f_equal; destruct (cons w); cbn in Ecl; subst; reflexivity.
Qed.

(** C7 (amended). [tryClaimPartition] returns false and leaves the claims
    mapping, the consumer and every claim object unchanged whenever the
    marshaler reports [LastHeartbeat > 0] for the partition, the offsets
    fetch fails, [ClaimPartition] returns false, the initial heartbeat fails
    or the broker-consumer creation fails.  No heartbeat is sent for the
    partition in the first three cases; in the fourth the one heartbeat
    that was attempted is the one that failed; in the fifth the initial
    heartbeat has already been sent, successfully, when the creation fails.
    It returns true only when every step succeeds, and then the new claim is
    inserted into the mapping (unless the mapping is nil, the consumer having
    been terminated). *)
Theorem tryClaimPartition_outcomes :
  let r := tryClaimPartition m now p w in
  let c := new_claim t p now oEarly oLate cur (fst created) in
  (held = true -> r = (false, extend w [e1])) /\
  (held = false -> fetch_ok = false -> r = (false, extend w [e1; e2])) /\
  (held = false -> fetch_ok = true -> won = false ->
     r = (false, extend w [e1; e2; e3])) /\
  (held = false -> fetch_ok = true -> won = true -> beat_ok = false ->
     r = (false, extend w [e1; e2; e3; e4])) /\
  (held = false -> fetch_ok = true -> won = true -> beat_ok = true ->
   created_ok = false ->
     r = (false, extend w [e1; e2; e3; e4; e5])) /\
  (held = false -> fetch_ok = true -> won = true -> beat_ok = true ->
   created_ok = true ->
     r = (true, claimed_world w p c [e1; e2; e3; e4; e5])) /\
  (fst r = false -> cons (snd r) = cons w /\ heap (snd r) = heap w) /\
  (fst r = true ->
     (held = false /\ fetch_ok = true /\ won = true /\ beat_ok = true /\
      created_ok = true) /\
     claims (cons (snd r)) = insert p (next w) <$> claims (cons w) /\
     heap (snd r) (next w) = c) /\
  heartbeats_for p [e1] = [] /\
  heartbeats_for p [e1; e2] = [] /\
  heartbeats_for p [e1; e2; e3] = [] /\
  heartbeats_for p [e1; e2; e3; e4] = [e4] /\
  heartbeats_for p [e1; e2; e3; e4; e5] = [e4].
Proof.
  intros r c. subst r c. rewrite tryClaimPartition_run.
  assert (Hb : heartbeats_for p [e1; e2; e3; e4] = [e4] /\
               heartbeats_for p [e1; e2; e3; e4; e5] = [e4]).
  { unfold heartbeats_for. subst e1 e2 e3 e4 e5. cbn. rewrite Z.eqb_refl. auto. }
  destruct Hb as [Hb4 Hb5].
  destruct held, fetch_ok, won, beat_ok, created_ok; cbn [negb fst snd];
    repeat split; try congruence; try discriminate; try reflexivity.
  all: cbn [claimed_world heap]; now rewrite Nat.eqb_refl.
Qed.


End TryClaim.

Definition is_claim_query (e : Event) : bool :=
  match e with Call (CGetPartitionClaim _ _) => true | _ => false end.

(** What the later proofs need of [tryClaimPartition]: it asks once about
    the partition, starts a pump exactly when it succeeds, and touches the
    mapping only then. *)
Lemma tryClaimPartition_summary m now p w :
  exists rest,
    Forall (fun e => is_claim_query e = false) rest /\
    Forall (fun e => is_pump_start e = false) rest /\
    let evs := Call (CGetPartitionClaim (ctopic (cons w)) p) :: rest in
    (tryClaimPartition m now p w = (false, extend w evs) \/
     exists c, tryClaimPartition m now p w = (true, claimed_world w p c evs)).
Proof.
  rewrite tryClaimPartition_run. cbv zeta.
  repeat match goal with
         | |- context [if ?b then _ else _] => destruct b
         end;
    eexists; (split; [|split; [|first [left; reflexivity | right; eexists; reflexivity]]]);
    repeat constructor.
Qed.

(** The counterexample to C7 as first stated: partition 2 of an unclaimed
    topic, every step succeeding until the broker consumer cannot be
    created.  The attempt returns false and the mapping is untouched, but
    the heartbeat for partition 2 has been sent, and accepted. *)
Lemma tryClaimPartition_heartbeat_before_consumer_failure :
  let m := Fixtures.marshaler 4 Fixtures.yes Fixtures.yes Fixtures.yes
             Fixtures.yes (Fixtures.all_but 2) None in
  let w := {| heap := fun _ => ConsumerClaim.zero; next := O;
              cons := {| ctopic := "events"; partitions := 4;
                         claims := Some ∅; behavior := CbAggressive |};
              log := [] |} in
  let r := tryClaimPartition m 100 2 w in
  Kafka.is_nil (snd (NewKafkaConsumer m
                       [Call (CGetPartitionClaim "events" 2);
                        Call (CGetPartitionOffsets "events" 2);
                        Call (CClaimPartition "events" 2);
                        Call (CHeartbeat "events" 2 0)] "events" 2 0)) = false /\
  fst r = false /\
  claims (cons (snd r)) = claims (cons w) /\
  Heartbeat m [Call (CGetPartitionClaim "events" 2);
               Call (CGetPartitionOffsets "events" 2);
               Call (CClaimPartition "events" 2)] "events" 2 0 = None /\
  heartbeats_for 2 (log (snd r)) = [Call (CHeartbeat "events" 2 0)] /\
  ~ (fst r = false /\ claims (cons (snd r)) = claims (cons w) /\
     heartbeats_for 2 (log (snd r)) = []).
Proof.
  cbv zeta. repeat split. intros (_ & _ & H). discriminate H.
Qed.


(** *** One sweep of [claimPartitions] *)

(** The events of [h'] that were not yet in [h]. *)
Definition new_events (h h' : History) : list Event := drop (length h) h'.

Lemma extend_nil w : extend w [] = w.
Proof. unfold extend. rewrite app_nil_r. now destruct w. Qed.

Lemma claimed_world_extend w evs p c evs' :
  claimed_world (extend w evs) p c evs' = claimed_world w p c (evs ++ evs').
Proof. unfold claimed_world, extend. cbn. now rewrite <- !app_assoc. Qed.

Lemma claims_lookup_claimed_world w p c evs q :
  q <> p -> claims_lookup (claimed_world w p c evs) q = claims_lookup w q.
Proof.
  intros Hq. unfold claims_lookup, claimed_world. cbn.
  destruct (claims (cons w)) as [cl|]; cbn; [|reflexivity].
  now apply lookup_insert_ne.
Qed.

(** The sweep in the words of the specification.  [sweep_order] lists the
    partitions in the order the sweep passes them, [is_free] tells the ones
    that are not in the mapping, and [attempts] calls [tryClaimPartition]
    for each partition of a list in turn: it gives the results of the calls
    and the world after the last one. *)
Definition sweep_from (N offset : Z) (first : nat) (trips : nat) : list Z :=
  List.map (fun k => (Z.of_nat k + offset) mod N) (seq first trips).

Definition sweep_order (N offset : Z) : list Z :=
  sweep_from N offset 0 (Z.to_nat N).

Definition is_free (w : World) (p : Z) : bool :=
  match claims_lookup w p with None => true | Some _ => false end.

Fixpoint attempts (m : Marshaler) (now : Z) (ps : list Z) (w : World)
  : list bool * World :=
  match ps with
  | [] => ([], w)
  | p :: ps' =>
      let '(ok, w1) := tryClaimPartition m now p w in
      let '(oks, w2) := attempts m now ps' w1 in
      (ok :: oks, w2)
  end.

Lemma sweep_from_NoDup N offset first trips :
  0 < N -> 0 <= offset -> Z.of_nat (first + trips) <= N ->
  List.NoDup (sweep_from N offset first trips).
Proof.
  intros HN Ho Hle. unfold sweep_from.
  apply List.NoDup_map_NoDup_ForallPairs; [|apply List.seq_NoDup].
  intros a b Ha Hb Heq. apply List.in_seq in Ha, Hb.
  assert (Hd : (Z.of_nat a - Z.of_nat b) mod N = 0).
  { replace (Z.of_nat a - Z.of_nat b)
      with ((Z.of_nat a + offset) - (Z.of_nat b + offset)) by lia.
    rewrite Zminus_mod, Heq, Z.sub_diag. apply Z.mod_0_l. lia. }
  destruct (Z.lt_trichotomy (Z.of_nat a) (Z.of_nat b)) as [Hlt|[Heq'|Hgt]]; [|lia|].
  - assert (Hd' : (Z.of_nat b - Z.of_nat a) mod N = 0).
    { replace (Z.of_nat b - Z.of_nat a)
        with ((Z.of_nat b + offset) - (Z.of_nat a + offset)) by lia.
      rewrite Zminus_mod, Heq, Z.sub_diag. apply Z.mod_0_l. lia. }
    rewrite Z.mod_small in Hd' by lia. lia.
  - rewrite Z.mod_small in Hd by lia. lia.
Qed.

(** A claim attempt for [q] leaves the partition count and the mode alone,
    and the entries of the other partitions. *)
Lemma tryClaimPartition_elsewhere m now q w :
  let w1 := snd (tryClaimPartition m now q w) in
  partitions (cons w1) = partitions (cons w) /\
  behavior (cons w1) = behavior (cons w) /\
  (forall p, p <> q -> claims_lookup w1 p = claims_lookup w p).
Proof.
  destruct (tryClaimPartition_summary m now q w) as (rest & _ & _ & Hrun).
  cbv zeta in Hrun |- *.
  destruct Hrun as [->|[c ->]]; cbn [snd].
  - repeat split.
  - split; [reflexivity|]. split; [reflexivity|].
    intros p Hp. now apply claims_lookup_claimed_world.
Qed.

Lemma is_free_elsewhere m now q w ps :
  ~ In q ps ->
  List.filter (is_free (snd (tryClaimPartition m now q w))) ps =
  List.filter (is_free w) ps.
Proof.
  intros Hq. apply List.filter_ext_in. intros p Hp. unfold is_free.
  destruct (tryClaimPartition_elsewhere m now q w) as (_ & _ & Hl).
  rewrite Hl; [reflexivity|]. intros ->. contradiction.
Qed.

Section Sweep.

Variable m : Marshaler.
Variables now offset : Z.

(** Balanced mode: the loop ends with the first success.  The world it
    leaves is the initial one after some events without a pump start, or
    that followed by one insertion into the mapping, whose pump start is the
    last event. *)
Lemma claimPartitions_loop_balanced n : forall i w,
  behavior (cons w) = CbBalanced ->
  exists evs,
    Forall (fun e => is_pump_start e = false) evs /\
    (claimPartitions_loop m now offset n i w = extend w evs \/
     exists p c,
       claims_lookup w p = None /\
       claimPartitions_loop m now offset n i w = claimed_world w p c evs).
Proof.
  induction n as [|n IH]; intros i w Hb; cbn [claimPartitions_loop].
  - exists []. split; [constructor|]. left. now rewrite extend_nil.
  - set (q := Int.rem64 (Int.add64 i offset) (partitions (cons w))).
    destruct (claims_lookup w q) as [l|] eqn:Hq; [apply IH; assumption|].
    destruct (tryClaimPartition_summary m now q w) as (rest & _ & Hrest & Hrun).
    cbv zeta in Hrun.
    set (evs1 := Call (CGetPartitionClaim (ctopic (cons w)) q) :: rest) in *.
    assert (Hevs1 : Forall (fun e => is_pump_start e = false) evs1)
      by (constructor; [reflexivity|assumption]).
    destruct Hrun as [Hrun|[c Hrun]]; rewrite Hrun; cbn [negb].
    + destruct (IH (Int.add64 i 1) (extend w evs1) Hb) as (evs & Hevs & Hloop).
      exists (evs1 ++ evs). split; [now apply Forall_app|].
      destruct Hloop as [->|(p & c & Hp & ->)].
      * left. apply extend_extend.
      * right. exists p, c. split; [exact Hp|]. apply claimed_world_extend.
    + cbn [claimed_world cons behavior with_claims]. rewrite Hb. cbn [behavior_eqb].
      exists evs1. split; [assumption|]. right. exists q, c. split; [assumption|reflexivity].
Qed.

(** Aggressive mode never leaves the loop early: the history only grows,
    the topic and the partition count stay, and entries of the mapping stay. *)
Lemma claimPartitions_loop_grows n : forall i w,
  let w' := claimPartitions_loop m now offset n i w in
  (exists evs, log w' = log w ++ evs) /\
  ctopic (cons w') = ctopic (cons w) /\
  partitions (cons w') = partitions (cons w) /\
  behavior (cons w') = behavior (cons w).
Proof.
  induction n as [|n IH]; intros i w; cbn [claimPartitions_loop]; cbv zeta.
  - repeat split. exists []. now rewrite app_nil_r.
  - set (q := Int.rem64 (Int.add64 i offset) (partitions (cons w))).
    destruct (claims_lookup w q) as [l|] eqn:Hq; [apply IH|].
    destruct (tryClaimPartition_summary m now q w) as (rest & _ & _ & Hrun).
    cbv zeta in Hrun.
    set (evs1 := Call (CGetPartitionClaim (ctopic (cons w)) q) :: rest) in *.
    destruct Hrun as [Hrun|[c Hrun]]; rewrite Hrun; cbn [negb].
    + destruct (IH (Int.add64 i 1) (extend w evs1)) as ((evs & Hlog) & Ht & Hp & Hb).
      repeat split; try assumption.
      exists (evs1 ++ evs). rewrite Hlog. cbn. now rewrite <- app_assoc.
    + destruct (behavior_eqb _ _).
      * repeat split. eexists. reflexivity.
      * destruct (IH (Int.add64 i 1) (claimed_world w q c evs1))
          as ((evs & Hlog) & Ht & Hp & Hb).
        repeat split; try assumption.
        eexists. rewrite Hlog. cbn. rewrite <- !app_assoc. reflexivity.
Qed.

Definition claim_query (t : string) (q : Z) : Event :=
  Call (CGetPartitionClaim t q).

Lemma claim_query_not_in rest t q :
  Forall (fun e => is_claim_query e = false) rest -> ~ In (claim_query t q) rest.
Proof.
  intros Hall Hin. rewrite List.Forall_forall in Hall.
  specialize (Hall _ Hin). discriminate Hall.
Qed.

(** Aggressive mode: the loop started at index [i] for [n] more trips asks
    about every partition it passes that is not in the mapping, and about
    none that is. *)
Lemma claimPartitions_loop_aggressive n : forall i w,
  behavior (cons w) = CbAggressive ->
  0 <= i -> 0 <= offset -> i + Z.of_nat n + offset <= Int.max64 ->
  exists evs,
    log (claimPartitions_loop m now offset n i w) = log w ++ evs /\
    (forall j q, i <= j < i + Z.of_nat n ->
       q = Int.rem64 (j + offset) (partitions (cons w)) ->
       claims_lookup w q = None -> In (claim_query (ctopic (cons w)) q) evs) /\
    (forall q t, is_Some (claims_lookup w q) -> ~ In (claim_query t q) evs).
Proof.
  induction n as [|n IH]; intros i w Hb Hi Ho Hn; cbn [claimPartitions_loop].
  - exists []. rewrite app_nil_r. split; [reflexivity|]. split; [intros; lia|auto].
  - assert (Hadd : Int.add64 i offset = i + offset)
      by (apply IntFacts.add64_id; unfold Int.in64, Int.min64, Int.max64 in *; lia).
    assert (Hsucc : Int.add64 i 1 = i + 1)
      by (apply IntFacts.add64_id; unfold Int.in64, Int.min64, Int.max64 in *; lia).
    rewrite Hadd, Hsucc.
    set (qi := Int.rem64 (i + offset) (partitions (cons w))).
    destruct (claims_lookup w qi) as [l|] eqn:Hqi.
    { destruct (IH (i + 1) w Hb ltac:(lia) Ho ltac:(lia)) as (evs & Hlog & Hin & Hout).
      exists evs. split; [assumption|]. split; [|assumption].
      intros j q Hj -> Hq. destruct (Z.eq_dec j i) as [->|Hne].
      - subst qi. congruence.
      - apply (Hin j); [lia|reflexivity|assumption]. }
    destruct (tryClaimPartition_summary m now qi w) as (rest & Hrest & _ & Hrun).
    cbv zeta in Hrun. fold (claim_query (ctopic (cons w)) qi) in Hrun.
    set (evs1 := claim_query (ctopic (cons w)) qi :: rest) in *.
    assert (Hskip1 : forall q t, is_Some (claims_lookup w q) ->
                                 ~ In (claim_query t q) evs1).
    { intros q t Hq [Heq|Hin]; [|exact (claim_query_not_in _ _ _ Hrest Hin)].
      injection Heq as _ ->. rewrite Hqi in Hq. destruct Hq; discriminate. }
    destruct Hrun as [Hrun|[c Hrun]]; rewrite Hrun; cbn [negb].
    + destruct (IH (i + 1) (extend w evs1) Hb ltac:(lia) Ho ltac:(lia))
        as (evs & Hlog & Hin & Hout).
      exists (evs1 ++ evs). split; [|split].
      * rewrite Hlog. cbn. now rewrite <- app_assoc.
      * intros j q Hj -> Hq. apply in_or_app.
        destruct (Z.eq_dec j i) as [->|Hne]; [left; now left|].
        right. apply (Hin j); [lia|reflexivity|exact Hq].
      * intros q t Hq Hin'. apply in_app_or in Hin'.
        destruct Hin' as [Hin'|Hin']; [exact (Hskip1 q t Hq Hin')|].
        exact (Hout q t Hq Hin').
    + cbn [claimed_world cons behavior with_claims]. rewrite Hb. cbn [behavior_eqb].
      set (w1 := claimed_world w qi c evs1).
      destruct (IH (i + 1) w1 Hb ltac:(lia) Ho ltac:(lia))
        as (evs & Hlog & Hin & Hout).
      exists (evs1 ++ [Go (GoPump (next w))] ++ evs). split; [|split].
      * fold w1. rewrite Hlog. subst w1. cbn [claimed_world log].
        rewrite <- !app_assoc. reflexivity.
      * intros j q Hj Hq Hfree. apply in_or_app.
        destruct (Z.eq_dec q qi) as [Heq|Hne]; [left; left; now rewrite Heq|].
        right. apply in_or_app. right.
        assert (j <> i) by (intros ->; apply Hne; exact Hq).
        apply (Hin j); [lia|exact Hq|].
        subst w1. now rewrite claims_lookup_claimed_world.
      * intros q t Hq Hin'. apply in_app_or in Hin'.
        destruct Hin' as [Hin'|Hin']; [exact (Hskip1 q t Hq Hin')|].
        apply in_app_or in Hin'. destruct Hin' as [[Habs|[]]|Hin']; [discriminate|].
        apply (Hout q t); [|exact Hin'].
        subst w1. rewrite claims_lookup_claimed_world; [assumption|].
        intros ->. rewrite Hqi in Hq. destruct Hq; discriminate.
Qed.

(** Every partition id is passed once the loop has gone all the way round. *)
Lemma sweep_reaches N p :
  0 < N -> 0 <= offset < N -> 0 <= p < N ->
  exists j, 0 <= j < N /\ Int.rem64 (j + offset) N = p.
Proof.
  intros HN Ho Hp. exists ((p - offset) mod N).
  pose proof (Z.mod_pos_bound (p - offset) N HN) as Hj.
  split; [lia|]. unfold Int.rem64.
  rewrite Z.rem_mod_nonneg by lia.
  rewrite Zplus_mod_idemp_l.
  replace (p - offset + offset) with p by lia.
  apply Z.mod_small. lia.
Qed.

(** The index arithmetic of one trip, without wrap-around. *)
Lemma sweep_index (k : nat) (N : Z) :
  0 < N -> 0 <= offset -> Z.of_nat k + 1 + offset <= Int.max64 ->
  Int.rem64 (Int.add64 (Z.of_nat k) offset) N = (Z.of_nat k + offset) mod N /\
  Int.add64 (Z.of_nat k) 1 = Z.of_nat (S k).
Proof.
  intros HN Ho Hk.
  rewrite !IntFacts.add64_id by (unfold Int.in64, Int.min64, Int.max64 in *; lia).
  unfold Int.rem64. rewrite Z.rem_mod_nonneg by lia. split; [reflexivity|lia].
Qed.

(** Aggressive mode is [tryClaimPartition] for each free partition the loop
    passes, in turn. *)
Lemma claimPartitions_loop_aggressive_attempts n : forall k w,
  behavior (cons w) = CbAggressive ->
  0 < partitions (cons w) -> 0 <= offset ->
  Z.of_nat (k + n) + offset <= Int.max64 ->
  List.NoDup (sweep_from (partitions (cons w)) offset k n) ->
  claimPartitions_loop m now offset n (Z.of_nat k) w =
    snd (attempts m now
           (List.filter (is_free w) (sweep_from (partitions (cons w)) offset k n)) w).
Proof.
  induction n as [|n IH]; intros k w Hb HN Ho Hmax Hnd; [reflexivity|].
  cbn [claimPartitions_loop].
  destruct (sweep_index k (partitions (cons w)) HN Ho ltac:(lia)) as [-> ->].
  unfold sweep_from in *. cbn [seq List.map List.filter] in *.
  apply List.NoDup_cons_iff in Hnd as [Hq Hnd].
  set (q := (Z.of_nat k + offset) mod partitions (cons w)) in *.
  unfold is_free at 1.
  destruct (claims_lookup w q) as [l|] eqn:Hlook.
  - apply IH; auto. lia.
  - cbn [attempts].
    destruct (tryClaimPartition_elsewhere m now q w) as (Hp & Hbeh & _).
    pose proof (is_free_elsewhere m now q w _ Hq) as Hfree.
    destruct (tryClaimPartition m now q w) as [ok w1]. cbn [snd] in Hp, Hbeh, Hfree.
    rewrite <- Hfree, <- Hp.
    assert (Hloop : claimPartitions_loop m now offset n (Z.of_nat (S k)) w1 =
              snd (attempts m now
                     (List.filter (is_free w1)
                        (List.map (fun k0 => (Z.of_nat k0 + offset) mod partitions (cons w1))
                           (seq (S k) n))) w1)).
    { apply IH; try congruence; try lia. now rewrite Hp. }
    destruct (attempts m now _ w1) as [oks w2] eqn:Hatt. cbn [snd] in Hloop |- *.
    rewrite Hbeh, Hb. cbn [behavior_eqb]. now destruct ok.
Qed.

(** Balanced mode is [tryClaimPartition] for the free partitions the loop
    passes, in turn, up to and including the first call that succeeds. *)
Lemma claimPartitions_loop_balanced_attempts n : forall k w,
  behavior (cons w) = CbBalanced ->
  0 < partitions (cons w) -> 0 <= offset ->
  Z.of_nat (k + n) + offset <= Int.max64 ->
  List.NoDup (sweep_from (partitions (cons w)) offset k n) ->
  exists tried later,
    List.filter (is_free w) (sweep_from (partitions (cons w)) offset k n) =
      tried ++ later /\
    claimPartitions_loop m now offset n (Z.of_nat k) w = snd (attempts m now tried w) /\
    ((later = [] /\ Forall (fun ok => ok = false) (fst (attempts m now tried w))) \/
     (exists before p,
        tried = before ++ [p] /\
        fst (attempts m now tried w) = replicate (length before) false ++ [true])).
Proof.
  induction n as [|n IH]; intros k w Hb HN Ho Hmax Hnd.
  { exists [], []. cbn. split; [reflexivity|]. split; [reflexivity|]. left. auto. }
  cbn [claimPartitions_loop].
  destruct (sweep_index k (partitions (cons w)) HN Ho ltac:(lia)) as [-> ->].
  unfold sweep_from in *. cbn [seq List.map List.filter] in *.
  apply List.NoDup_cons_iff in Hnd as [Hq Hnd].
  set (q := (Z.of_nat k + offset) mod partitions (cons w)) in *.
  unfold is_free at 1.
  destruct (claims_lookup w q) as [l|] eqn:Hlook.
  - apply IH; auto. lia.
  - destruct (tryClaimPartition_elsewhere m now q w) as (Hp & Hbeh & _).
    pose proof (is_free_elsewhere m now q w _ Hq) as Hfree.
    destruct (tryClaimPartition m now q w) as [ok w1] eqn:Htry.
    cbn [snd] in Hp, Hbeh, Hfree.
    destruct ok; cbn [negb].
    + rewrite Hbeh, Hb. cbn [behavior_eqb].
      exists [q], (List.filter (is_free w)
                     (List.map (fun k0 => (Z.of_nat k0 + offset) mod partitions (cons w))
                        (seq (S k) n))).
      cbn [attempts app]. rewrite Htry. cbn [fst snd].
      split; [reflexivity|]. split; [reflexivity|].
      right. exists [], q. split; reflexivity.
    + destruct (IH (S k) w1) as (tried & later & Hsplit & Hloop & Hend);
        try congruence; try lia.
      { now rewrite Hp. }
      rewrite Hp, Hfree in Hsplit.
      exists (q :: tried), later. cbn [attempts app]. rewrite Htry.
      destruct (attempts m now tried w1) as [oks w2] eqn:Hatt.
      cbn [fst snd] in Hloop, Hend |- *.
      split; [now rewrite Hsplit|]. split; [exact Hloop|].
      destruct Hend as [[-> Hall]|(before & p & -> & ->)].
      * left. split; [reflexivity|]. constructor; [reflexivity|exact Hall].
      * right. exists (q :: before), p. split; reflexivity.
Qed.

(** C9. One sweep of [claimPartitions]; [offset] is the value drawn by
    [rand.Intn(c.partitions)], and [free] are the partitions that are not in
    the mapping, in the order the sweep passes them.  In Aggressive mode the
    sweep is [tryClaimPartition] called for every partition of [free], one
    after the other, and for no other partition: the world it leaves is the
    world after these calls.  In Balanced mode the sweep is
    [tryClaimPartition] called for the partitions of [free] in turn, up to
    and including the first call that succeeds: either every free partition
    was tried and every call failed, or the last call made succeeded, all
    calls before it failed and the free partitions after it were not tried.
    So in Balanced mode either no pump was started and the mapping is as
    before, or exactly one partition that was not in the mapping has been
    added, and the start of its pump is the last event of the sweep; and in
    Aggressive mode the opening question of [tryClaimPartition] to the
    marshaler is in the history for every partition that was not in the
    mapping, and for none that was. *)
Theorem claimPartitions_modes (w : World) :
  0 < partitions (cons w) <= 2 ^ 62 ->
  0 <= offset < partitions (cons w) ->
  let free := List.filter (is_free w) (sweep_order (partitions (cons w)) offset) in
  exists w' evs,
    claimPartitions m now offset w = Some w' /\
    log w' = log w ++ evs /\
    (behavior (cons w) = CbBalanced ->
       (exists tried later,
          free = tried ++ later /\
          w' = snd (attempts m now tried w) /\
          ((later = [] /\
            Forall (fun ok => ok = false) (fst (attempts m now tried w))) \/
           (exists before p,
              tried = before ++ [p] /\
              fst (attempts m now tried w) =
                replicate (length before) false ++ [true]))) /\
       ((Forall (fun e => is_pump_start e = false) evs /\
         claims (cons w') = claims (cons w)) \/
        (exists p evs0,
           evs = evs0 ++ [Go (GoPump (next w))] /\
           Forall (fun e => is_pump_start e = false) evs0 /\
           claims_lookup w p = None /\
           claims (cons w') = insert p (next w) <$> claims (cons w)))) /\
    (behavior (cons w) = CbAggressive ->
       w' = snd (attempts m now free w) /\
       forall p, 0 <= p < partitions (cons w) ->
         (claims_lookup w p = None -> In (claim_query (ctopic (cons w)) p) evs) /\
         (is_Some (claims_lookup w p) -> ~ In (claim_query (ctopic (cons w)) p) evs)).
Proof.
  intros HN Ho free. unfold claimPartitions.
  destruct (Z.leb_spec (partitions (cons w)) 0) as [|_]; [lia|].
  set (n := Z.to_nat (partitions (cons w))).
  assert (Hmax : Z.of_nat (0 + n) + offset <= Int.max64).
  { subst n. cbn [Nat.add]. rewrite Z2Nat.id by lia. unfold Int.max64. lia. }
  assert (Hnd : List.NoDup (sweep_from (partitions (cons w)) offset 0 n)).
  { apply sweep_from_NoDup; [lia|lia|]. subst n. cbn [Nat.add]. rewrite Z2Nat.id; lia. }
  destruct (claimPartitions_loop_grows n 0 w) as ((evs & Hlog) & _).
  exists (claimPartitions_loop m now offset n 0 w), evs.
  split; [reflexivity|]. split; [exact Hlog|]. split.
  - intros Hb. split.
    + exact (claimPartitions_loop_balanced_attempts n 0 w Hb ltac:(lia) ltac:(lia)
               Hmax Hnd).
    + destruct (claimPartitions_loop_balanced n 0 w Hb) as (evs' & Hevs' & Hloop).
      destruct Hloop as [Hloop|(p & c & Hp & Hloop)]; rewrite Hloop in Hlog |- *.
      * left. cbn in Hlog. apply app_inv_head in Hlog. subst evs'. auto.
      * right. cbn in Hlog. apply app_inv_head in Hlog. subst evs.
        exists p, evs'. auto.
  - intros Hb. split.
    + exact (claimPartitions_loop_aggressive_attempts n 0 w Hb ltac:(lia) ltac:(lia)
               Hmax Hnd).
    + intros p Hp.
      destruct (claimPartitions_loop_aggressive n 0 w Hb ltac:(lia) ltac:(lia))
        as (evs' & Hlog' & Hin & Hout).
      { subst n. rewrite Z2Nat.id by lia. unfold Int.max64. lia. }
      rewrite Hlog in Hlog'. apply app_inv_head in Hlog'. subst evs'.
      split; [|apply Hout].
      intros Hfree.
      destruct (sweep_reaches (partitions (cons w)) p ltac:(lia) Ho Hp) as (j & Hj & Hq).
      apply (Hin j); [|now symmetry|exact Hfree]. subst n. rewrite Z2Nat.id; lia.
Qed.


End Sweep.


(** *** Examples of sweeps *)

(** The consumer [NewConsumer] returns for a topic of [n] partitions. *)
Definition fresh_world (n : Z) (b : ConsumerBehavior) : World :=
  {| heap := fun _ => ConsumerClaim.zero; next := O;
     cons := {| ctopic := "events"; partitions := n; claims := Some ∅;
                behavior := b |};
     log := [Go GoManageClaims] |}.

Example NewConsumer_fresh n b :
  NewConsumer (Some (Fixtures.healthy_marshaler n)) "events" b =
    (Some (fresh_world n b), None) /\
  NewConsumer None "events" b = (None, Some "Must provide a marshaler"%string).
Proof. split; reflexivity. Qed.

Definition sweep (m : Marshaler) (offset : Z) (w : World) : World :=
  default w (claimPartitions m 100 offset w).

(** Scenario 2 of the specification: four free partitions, Aggressive mode:
    all four are claimed in one sweep. *)
Example aggressive_claims_all :
  let w := sweep (Fixtures.healthy_marshaler 4) 1 (fresh_world 4 CbAggressive) in
  GetCurrentLoad w = 4 /\
  claims (cons w) = Some {[1 := 0%nat; 2 := 1%nat; 3 := 2%nat; 0 := 3%nat]} /\
  List.filter is_claim_query (log w) =
    [claim_query "events" 1; claim_query "events" 2;
     claim_query "events" 3; claim_query "events" 0].
Proof. vm_compute. repeat split. Qed.

(** The same topic in Balanced mode: one partition, the first one tried. *)
Example balanced_claims_one :
  let w := sweep (Fixtures.healthy_marshaler 4) 1 (fresh_world 4 CbBalanced) in
  GetCurrentLoad w = 1 /\
  claims (cons w) = Some {[1 := 0%nat]} /\
  List.filter is_claim_query (log w) = [claim_query "events" 1] /\
  last (log w) = Some (Go (GoPump 0%nat)).
Proof. vm_compute. repeat split. Qed.

(** Scenario 3: the race for partition 2 is lost; Balanced mode moves on to
    partition 3 and stops there.  No heartbeat was sent for partition 2. *)
Example balanced_moves_past_a_lost_race :
  let m := Fixtures.marshaler 4 Fixtures.yes (Fixtures.all_but 2) Fixtures.yes
             Fixtures.yes Fixtures.yes None in
  let w := sweep m 2 (fresh_world 4 CbBalanced) in
  claims (cons w) = Some {[3 := 0%nat]} /\
  List.filter is_claim_query (log w) =
    [claim_query "events" 2; claim_query "events" 3] /\
  heartbeats_for 2 (log w) = [] /\
  fst (tryClaimPartition m 100 2 (fresh_world 4 CbBalanced)) = false.
Proof. vm_compute. repeat split. Qed.

(** [rand.Intn] panics on a topic without partitions. *)
Example claimPartitions_no_partitions :
  claimPartitions (Fixtures.healthy_marshaler 0) 100 0 (fresh_world 0 CbBalanced) = None.
Proof. reflexivity. Qed.

(** The theorem at a topic of four free partitions, swept from partition 1
    in Aggressive mode: the sweep is the four claim attempts, for
    partitions 1, 2, 3 and 0 in this order, partition 3 is asked about, and
    the consumer holds four claims. *)
Lemma claimPartitions_modes_witness :
  exists w' evs,
    claimPartitions (Fixtures.healthy_marshaler 4) 100 1
      (fresh_world 4 CbAggressive) = Some w' /\
    log w' = log (fresh_world 4 CbAggressive) ++ evs /\
    w' = snd (attempts (Fixtures.healthy_marshaler 4) 100 [1; 2; 3; 0]
                (fresh_world 4 CbAggressive)) /\
    In (claim_query "events" 3) evs /\
    GetCurrentLoad w' = 4.
Proof.
  destruct (claimPartitions_modes (Fixtures.healthy_marshaler 4) 100 1
              (fresh_world 4 CbAggressive))
    as (w' & evs & Hrun & Hlog & _ & Hagg).
  - cbn. lia.
  - cbn. lia.
  - destruct (Hagg eq_refl) as [Hatt Hasked].
    exists w', evs. split; [exact Hrun|]. split; [exact Hlog|].
    split; [exact Hatt|].
    split; [apply (Hasked 3); [cbn; lia|reflexivity]|].
    rewrite Hatt. vm_compute. reflexivity.
Defined.


End ClaimingFacts.

(** ** The consumer: shedding unhealthy claims *)

Module SheddingFacts.

Import ConsumerClaim Consumer.

Lemma claims_len_delete w k :
  claims_len w <=
  claims_len (set_claims (delete k <$> claims (cons w)) w) + 1.
Proof.
  unfold claims_len, set_claims. cbn.
  destruct (claims (cons w)) as [cl|]; cbn; [|lia].
  rewrite map_size_delete. destruct (cl !! k); cbn; lia.
Qed.

Lemma claims_len_modify w l f : claims_len (modify l f w) = claims_len w.
Proof. reflexivity. Qed.

(** The first loop of the sweep: with [maxToRelease = k], at most [k]
    claims are removed from the mapping, only the first [k] enlisted
    objects are written to, and no call is made. *)
Lemma unclaim_loop_bounded unclaimPartitions : forall k w,
  k <= Int.max64 ->
  let w' := unclaim_loop unclaimPartitions k w in
  log w' = log w /\
  claims_len w <= claims_len w' + Z.max 0 k /\
  (forall l, ~ In l (take (Z.to_nat k) unclaimPartitions) -> heap w' l = heap w l).
Proof.
  induction unclaimPartitions as [|claim rest IH]; intros k w Hk; cbn [unclaim_loop].
  - cbv zeta. repeat split; lia.
  - destruct (Z.leb_spec k 0) as [Hle|Hgt].
    + cbv zeta. repeat split; lia.
    + rewrite IntFacts.sub64_id by (unfold Int.in64, Int.min64, Int.max64 in *; lia).
      set (w1 := set_claims _ _).
      destruct (IH (k - 1) w1 ltac:(lia)) as (Hlog & Hlen & Hheap).
      cbv zeta. split; [exact Hlog|]. split.
      * pose proof (claims_len_delete (modify claim (with_claimed 0) w)
                      (partID (heap (modify claim (with_claimed 0) w) claim))) as Hd.
        fold w1 in Hd. rewrite claims_len_modify in Hd. lia.
      * intros l Hl.
        replace (Z.to_nat k) with (S (Z.to_nat (k - 1))) in Hl by lia.
        cbn [take] in Hl.
        rewrite Hheap by (intros Hin; apply Hl; now right).
        subst w1. cbn [set_claims modify heap].
        destruct (Nat.eqb_spec l claim) as [->|_]; [|reflexivity].
        exfalso. apply Hl. now left.
Qed.

(** The second loop: one [ReleasePartition] for every enlisted claim,
    whether or not the first loop reached it. *)
Lemma release_loop_calls m unclaimPartitions : forall w,
  let w' := release_loop m unclaimPartitions w in
  release_calls (log w') = (release_calls (log w) + length unclaimPartitions)%nat /\
  heap w' = heap w /\ cons w' = cons w.
Proof.
  induction unclaimPartitions as [|claim rest IH]; intros w; cbn [release_loop length].
  - cbv zeta. repeat split. lia.
  - cbv zeta.
    set (w1 := emit _ w).
    destruct (IH w1) as (Hcalls & Hheap & Hcons).
    rewrite Hcalls, Hheap, Hcons. subst w1. cbn [emit log heap cons].
    unfold release_calls. rewrite List.filter_app, List.length_app. cbn.
    repeat split. lia.
Qed.

(** What does hold of the sweep: at most [claimCount / 2] claims leave the
    mapping.  What does not: [ReleasePartition] is invoked for every
    enlisted claim. *)
Lemma releaseUnhealthy_effect m claimCount unclaimPartitions w :
  0 <= claimCount <= Int.max64 ->
  let w' := releaseUnhealthy m claimCount unclaimPartitions w in
  claims_len w <= claims_len w' + claimCount / 2 /\
  release_calls (log w') = (release_calls (log w) + length unclaimPartitions)%nat.
Proof.
  intros Hc. unfold releaseUnhealthy.
  destruct unclaimPartitions as [|claim rest]; cbn [length Nat.ltb Nat.leb].
  { cbv zeta. split; [|lia]. pose proof (Z.div_pos claimCount 2). lia. }
  assert (Hq : Int.div64 claimCount 2 = claimCount / 2).
  { unfold Int.div64. rewrite Z.quot_div_nonneg by lia.
    apply IntFacts.wrap64_id. unfold Int.in64, Int.min64, Int.max64 in *.
    pose proof (Z.div_pos claimCount 2).
    assert (claimCount / 2 <= claimCount) by (apply Z.div_le_upper_bound; lia).
    lia. }
  rewrite Hq. cbv zeta.
  destruct (unclaim_loop_bounded (claim :: rest) (claimCount / 2) w) as (Hlog & Hlen & _).
  { assert (claimCount / 2 <= claimCount) by (apply Z.div_le_upper_bound; lia). lia. }
  destruct (release_loop_calls m (claim :: rest)
              (unclaim_loop (claim :: rest) (claimCount / 2) w)) as (Hcalls & _ & Hcons).
  rewrite Hcalls, Hlog. split; [|reflexivity].
  unfold claims_len in *. rewrite Hcons.
  pose proof (Z.div_pos claimCount 2). lia.
Qed.

(** The claim of partition 0 of a one-partition topic, its pump having run
    into [ErrOffsetOutOfRange]. *)
Definition lone_stale_claim : World :=
  let w := ClaimingFacts.sweep (Fixtures.healthy_marshaler 1) 0
             (ClaimingFacts.fresh_world 1 CbBalanced) in
  snd (messagePump_iter
         (Fixtures.marshaler 1 Fixtures.yes Fixtures.yes Fixtures.yes Fixtures.yes
            Fixtures.yes (Some Kafka.ErrOffsetOutOfRange)) 0%nat w).

(** C1 (the code departs from the claim). A consumer holds one claim, which
    is unhealthy.  [claim_count] is 1, so [maxToRelease] is 0: the first
    loop releases nothing (the claim stays in the mapping), as the bound
    demands; but the second loop runs over all enlisted claims and invokes
    [ReleasePartition] for it: one call, where [floor(1/2) = 0] are
    allowed. *)
Theorem healthSweep_release_calls_exceed_half :
  let m := Fixtures.healthy_marshaler 1 in
  let w := lone_stale_claim in
  let order := [(0, 0%nat)] in
  let w' := healthSweep m 60 160 (claims_len w) order order w in
  range_of w order /\
  claims_len w = 1 /\
  claims_len w / 2 = 0 /\
  claims (cons w') = claims (cons w) /\
  ClaimingFacts.new_events (log w) (log w') =
    [Call (CGetPartitionOffsets "events" 0); Call (CReleasePartition "events" 0 0)] /\
  (release_calls (log w') > release_calls (log w) + Z.to_nat (claims_len w / 2))%nat.
Proof.
  cbv zeta. split; [|vm_compute; repeat split; lia].
  unfold range_of. vm_compute. reflexivity.
Qed.

(** The same with a claim that is alive but lagging: consumed one message in
    900 seconds with nine more waiting.  The third sweep in a row enlists
    it; it is kept (flag active, still in the mapping), and released at the
    marshaler all the same. *)
Example healthSweep_releases_a_kept_claim :
  let m := Fixtures.healthy_marshaler 1 in
  let order := [(0, 0%nat)] in
  let w := ClaimingFacts.sweep m 0 (ClaimingFacts.fresh_world 1 CbBalanced) in
  let w := snd (messagePump_iter m 0%nat w) in
  let w := snd (Consume 60 100 [order] w) in
  let w1 := healthSweep m 60 1000 (claims_len w) order order w in
  let w2 := healthSweep m 60 1000 (claims_len w1) order order w1 in
  let w3 := healthSweep m 60 1000 (claims_len w2) order order w2 in
  release_calls (log w2) = 0%nat /\
  cyclesBehind (heap w3 0%nat) = 3 /\
  claimed (heap w3 0%nat) = 1 /\
  claims_lookup w3 0 = Some 0%nat /\
  last (log w3) = Some (Call (CReleasePartition "events" 0 1)).
Proof. vm_compute. repeat split. Qed.


(** Two claims, both unhealthy: one is removed, two are released. *)
Example healthSweep_two_stale_claims :
  let m := Fixtures.healthy_marshaler 2 in
  let stale := Fixtures.marshaler 2 Fixtures.yes Fixtures.yes Fixtures.yes
                 Fixtures.yes Fixtures.yes (Some Kafka.ErrOffsetOutOfRange) in
  let w0 := ClaimingFacts.sweep m 0 (ClaimingFacts.fresh_world 2 CbAggressive) in
  let w := snd (messagePump_iter stale 1%nat (snd (messagePump_iter stale 0%nat w0))) in
  let order := [(0, 0%nat); (1, 1%nat)] in
  let w' := healthSweep m 60 160 (claims_len w) order order w in
  claims_len w = 2 /\ claims_len w' = 1 /\
  List.filter is_release_call (ClaimingFacts.new_events (log w) (log w')) =
    [Call (CReleasePartition "events" 0 0); Call (CReleasePartition "events" 1 0)].
Proof. vm_compute. repeat split. Qed.

(** One iteration of the assignment loop on a new consumer (one partition is
    claimed, Balanced mode), and on a terminated one (the loop returns). *)
Example manageClaims_iterations :
  let m := Fixtures.healthy_marshaler 4 in
  let w0 := ClaimingFacts.fresh_world 4 CbBalanced in
  let '(step1, w1) := manageClaims_iter m 60 100 true [] [] 1 250 w0 in
  let w2 := Terminate m [(1, 0%nat)] w1 in
  let '(step2, w3) := manageClaims_iter m 60 100 true [] [] 1 250 w2 in
  step1 = LoopNext /\ GetCurrentLoad w1 = 1 /\ last (log w1) = Some (Sleep 250) /\
  claimed (heap w2 0%nat) = 0 /\ claims (cons w2) = None /\
  last (log w2) = Some (Call (CReleasePartition "events" 1 0)) /\
  step2 = LoopReturn /\ log w3 = log w2.
Proof. vm_compute. repeat split. Qed.


End SheddingFacts.

(** ** The consumer: multiplexing in [Consume] *)

Module ConsumeFacts.

Import ConsumerClaim Consumer.

(** States the consumer gets into: created by [NewConsumer], then any
    sequence of claim sweeps, trips of the pumps that were started, health
    sweeps and calls of [Consume].  (A pump parked on a full channel stays
    parked here; the states below are reached with channels far from full.) *)
Inductive reachable : World -> Prop :=
| reach_new m topicName b w :
    NewConsumer (Some m) topicName b = (Some w, None) -> reachable w
| reach_claimPartitions m now offset w w' :
    reachable w -> 0 <= offset < partitions (cons w) ->
    claimPartitions m now offset w = Some w' -> reachable w'
| reach_pump m l w :
    reachable w -> In (Go (GoPump l)) (log w) ->
    reachable (snd (messagePump_iter m l w))
| reach_healthSweep m HeartbeatInterval nowTime order1 order2 w :
    reachable w -> range_of w order1 -> range_of w order2 ->
    reachable (healthSweep m HeartbeatInterval nowTime (claims_len w) order1 order2 w)
| reach_Consume HeartbeatInterval now orders w :
    reachable w -> Forall (range_of w) orders ->
    reachable (snd (Consume HeartbeatInterval now orders w)).

(** The buffered messages of a world. *)
Definition buffered (w : World) (msg : Kafka.Message) : Prop :=
  exists l, In (Some msg) (messages (heap w l)).

(** A scan takes messages out of channels and puts none in; what it hands
    back is the message it was given or one that was buffered. *)
Lemma Consume_scan_sound order : forall msg w,
  let r := Consume_scan order msg w in
  (forall msg', fst r = Some msg' -> msg = Some msg' \/ buffered w msg') /\
  (forall l x, In x (messages (heap (snd r) l)) -> In x (messages (heap w l))).
Proof.
  induction order as [|[partID claim] rest IH]; intros msg w; cbn [Consume_scan].
  - cbv zeta. split; [now left|auto].
  - destruct (messages (heap w claim)) as [|received queue] eqn:Hq.
    + apply IH.
    + cbv zeta. set (w1 := modify claim (with_messages queue) w).
      destruct (IH received w1) as (Hres & Hsub).
      assert (Hsub1 : forall l x, In x (messages (heap w1 l)) ->
                                  In x (messages (heap w l))).
      { intros l x. subst w1. cbn [modify heap].
        destruct (Nat.eqb_spec l claim) as [->|_]; [|auto].
        cbn [with_messages messages]. rewrite Hq. now right. }
      split; [|intros l x Hx; apply Hsub1, Hsub, Hx].
      intros msg' Hr. right.
      destruct (Hres msg' Hr) as [->|(l & Hin)].
      * exists claim. rewrite Hq. now left.
      * exists l. apply Hsub1, Hin.
Qed.


(** Two partitions claimed in one Aggressive sweep; each pump has delivered
    one message into its channel. *)
Definition two_buffered : World :=
  let m := Fixtures.healthy_marshaler 2 in
  let w := ClaimingFacts.sweep m 0 (ClaimingFacts.fresh_world 2 CbAggressive) in
  snd (messagePump_iter m 1%nat (snd (messagePump_iter m 0%nat w))).

Lemma two_buffered_reachable : reachable two_buffered.
Proof.
  unfold two_buffered. cbv zeta.
  apply reach_pump; [apply reach_pump|].
  - eapply (reach_claimPartitions (Fixtures.healthy_marshaler 2) 100 0).
    + eapply (reach_new (Fixtures.healthy_marshaler 2) "events" CbAggressive).
      reflexivity.
    + cbn. lia.
    + reflexivity.
  - vm_compute. repeat (first [left; reflexivity | right]).
  - vm_compute. repeat (first [left; reflexivity | right]).
Qed.


(** Whichever way the scan goes round, one of the two messages is lost. *)
Example Consume_drops_in_either_order :
  fst (Consume 60 100 [[(0, 0%nat); (1, 1%nat)]] two_buffered) = Some [Byte.x01] /\
  fst (Consume 60 100 [[(1, 1%nat); (0, 0%nat)]] two_buffered) = Some [Byte.x00] /\
  fst (Consume 60 100 [[(1, 1%nat); (0, 0%nat)]; [(1, 1%nat); (0, 0%nat)]]
         (snd (Consume 60 100 [[(0, 0%nat); (1, 1%nat)]] two_buffered))) = None.
Proof. vm_compute. repeat split. Qed.

(** With a single claim nothing is lost: scenario 1 of the specification,
    one message. *)
Example Consume_single_claim :
  let m := Fixtures.healthy_marshaler 1 in
  let w := ClaimingFacts.sweep m 0 (ClaimingFacts.fresh_world 1 CbBalanced) in
  let w := snd (messagePump_iter m 0%nat w) in
  let r := Consume 60 100 [[(0, 0%nat)]] w in
  fst r = Some [Byte.x00] /\ offsetCurrent (heap (snd r) 0%nat) = 1.
Proof. vm_compute. repeat split. Qed.

End ConsumeFacts.

(** ** The message pumps *)

Module PumpFacts.

(** What one trip of a pump does when the broker answers with an error:
    first for [claim.messagePump], then for [consumerClaim.messagePump]. *)

Section ClaimPump.

Import Claim.

Variable m : Marshaler.
Variable s : state.
Variable h : Kafka.Consumer.

Hypothesis Hclaimed : claimed (self s) = 1.
Hypothesis Hconsumer : consumer (self s) = Some h.

Lemma claim_pump_out_of_range :
  Kafka.is_out_of_range (snd (BrokerConsume m (log s) h)) = true ->
  messagePump_iter m s =
    (PumpExit, {| self := self s; log := log s ++ [Call (CConsume h); Go GoRelease] |}).
Proof.
  intros Herr. unfold messagePump_iter, Claimed.
  rewrite Hclaimed, Hconsumer. cbn [Z.eqb Pos.eqb negb].
  destruct (BrokerConsume m (log s) h) as [msg err]. cbn [snd] in Herr.
  rewrite Herr. unfold emit. cbn. now rewrite <- app_assoc.
Qed.

Lemma claim_pump_other_error :
  Kafka.is_nil (snd (BrokerConsume m (log s) h)) = false ->
  Kafka.is_out_of_range (snd (BrokerConsume m (log s) h)) = false ->
  messagePump_iter m s =
    (PumpNext, {| self := self s; log := log s ++ [Call (CConsume h); Sleep 1000] |}).
Proof.
  intros Hnil Herr. unfold messagePump_iter, Claimed.
  rewrite Hclaimed, Hconsumer. cbn [Z.eqb Pos.eqb negb].
  destruct (BrokerConsume m (log s) h) as [msg err]. cbn [snd] in Herr, Hnil.
  rewrite Herr, Hnil. unfold emit. cbn. now rewrite <- app_assoc.
Qed.

End ClaimPump.

Section ConsumerClaimPump.

Import ConsumerClaim Consumer.

Variable m : Marshaler.
Variable w : World.
Variable l : loc.
Variable h : Kafka.Consumer.

Hypothesis Hclaimed : claimed (heap w l) = 1.
Hypothesis Hconsumer : consumer (heap w l) = Some h.

Lemma consumerClaim_pump_out_of_range :
  Kafka.is_out_of_range (snd (BrokerConsume m (log w) h)) = true ->
  messagePump_iter m l w =
    (PumpExit, modify l (with_claimed 0) (ClaimingFacts.extend w [Call (CConsume h)])).
Proof.
  intros Herr. unfold messagePump_iter.
  rewrite Hclaimed, Hconsumer. cbn [Z.eqb Pos.eqb negb].
  destruct (BrokerConsume m (log w) h) as [msg err]. cbn [snd] in Herr.
  now rewrite Herr.
Qed.

Lemma consumerClaim_pump_other_error :
  Kafka.is_nil (snd (BrokerConsume m (log w) h)) = false ->
  Kafka.is_out_of_range (snd (BrokerConsume m (log w) h)) = false ->
  messagePump_iter m l w =
    (PumpNext, ClaimingFacts.extend w [Call (CConsume h); Sleep 1000]).
Proof.
  intros Hnil Herr. unfold messagePump_iter.
  rewrite Hclaimed, Hconsumer. cbn [Z.eqb Pos.eqb negb].
  destruct (BrokerConsume m (log w) h) as [msg err]. cbn [snd] in Herr, Hnil.
  rewrite Herr, Hnil. unfold emit, ClaimingFacts.extend. cbn.
  now rewrite <- app_assoc.
Qed.

End ConsumerClaimPump.

(** C6 (amended). On one trip of a message pump of an active claim: if the
    broker answers offset-out-of-range, the pump of a [claim] starts
    [Release] in a goroutine of its own and exits, while the pump of a
    [consumerClaim] stores "released" into the atomic flag itself and exits,
    calling neither [Release] nor the marshaler; if the broker answers with
    any other error, either pump sleeps one second and goes round again,
    leaving the flag, the channel and every other field of the claim as they
    were. *)
Theorem messagePump_on_broker_error (m : Marshaler) :
  (forall (s : Claim.state) h,
     Claim.claimed (Claim.self s) = 1 ->
     Claim.consumer (Claim.self s) = Some h ->
     let err := snd (BrokerConsume m (Claim.log s) h) in
     (Kafka.is_out_of_range err = true ->
        Claim.messagePump_iter m s =
          (PumpExit,
           {| Claim.self := Claim.self s;
              Claim.log := Claim.log s ++ [Call (CConsume h); Go GoRelease] |})) /\
     (Kafka.is_nil err = false -> Kafka.is_out_of_range err = false ->
        Claim.messagePump_iter m s =
          (PumpNext,
           {| Claim.self := Claim.self s;
              Claim.log := Claim.log s ++ [Call (CConsume h); Sleep 1000] |}))) /\
  (forall (w : Consumer.World) l h,
     ConsumerClaim.claimed (Consumer.heap w l) = 1 ->
     ConsumerClaim.consumer (Consumer.heap w l) = Some h ->
     let err := snd (BrokerConsume m (Consumer.log w) h) in
     (Kafka.is_out_of_range err = true ->
        Consumer.messagePump_iter m l w =
          (PumpExit,
           Consumer.modify l (ConsumerClaim.with_claimed 0)
             (ClaimingFacts.extend w [Call (CConsume h)]))) /\
     (Kafka.is_nil err = false -> Kafka.is_out_of_range err = false ->
        Consumer.messagePump_iter m l w =
          (PumpNext, ClaimingFacts.extend w [Call (CConsume h); Sleep 1000]))).
Proof.
  split.
  - intros s h Hc Hh err. split.
    + now apply claim_pump_out_of_range.
    + now apply claim_pump_other_error.
  - intros w l h Hc Hh err. split.
    + now apply consumerClaim_pump_out_of_range.
    + now apply consumerClaim_pump_other_error.
Qed.

Definition out_of_range_broker (n : Z) : Marshaler :=
  Fixtures.marshaler n Fixtures.yes Fixtures.yes Fixtures.yes Fixtures.yes
    Fixtures.yes (Some Kafka.ErrOffsetOutOfRange).

Definition failing_broker (n : Z) : Marshaler :=
  Fixtures.marshaler n Fixtures.yes Fixtures.yes Fixtures.yes Fixtures.yes
    Fixtures.yes Fixtures.some_error.

(** The counterexample to C6 as first stated: the pump of the consumer's
    claim of partition 0 gets offset-out-of-range.  It exits with the flag
    released, but no release was scheduled: [Release] was not started, and
    [ReleasePartition] was not called. *)
Lemma consumerClaim_pump_does_not_call_Release :
  let w := ClaimingFacts.sweep (Fixtures.healthy_marshaler 1) 0
             (ClaimingFacts.fresh_world 1 Consumer.CbBalanced) in
  let r := Consumer.messagePump_iter (out_of_range_broker 1) 0%nat w in
  ConsumerClaim.claimed (Consumer.heap w 0%nat) = 1 /\
  fst r = PumpExit /\
  ConsumerClaim.claimed (Consumer.heap (snd r) 0%nat) = 0 /\
  ClaimingFacts.new_events (Consumer.log w) (Consumer.log (snd r)) =
    [Call (CConsume 0%nat)] /\
  ~ In (Go GoRelease) (Consumer.log (snd r)) /\
  release_calls (Consumer.log (snd r)) = 0%nat.
Proof.
  vm_compute. repeat split; try reflexivity.
  intros H. repeat (destruct H as [H|H]; [discriminate H|]). exact H.
Qed.

(** The pump of a [claim] on the same answers, and the whole loop of it. *)
Example claim_pump_examples :
  Claim.messagePump_iter (out_of_range_broker 4) Fixtures.a_state =
    (PumpExit, {| Claim.self := Fixtures.a_claim;
                  Claim.log := [Call (CConsume 3%nat); Go GoRelease] |}) /\
  Claim.messagePump_iter (failing_broker 4) Fixtures.a_state =
    (PumpNext, {| Claim.self := Fixtures.a_claim;
                  Claim.log := [Call (CConsume 3%nat); Sleep 1000] |}) /\
  Claim.messagePump (failing_broker 4) 2 Fixtures.a_state =
    (PumpNext, {| Claim.self := Fixtures.a_claim;
                  Claim.log := [Call (CConsume 3%nat); Sleep 1000;
                                Call (CConsume 3%nat); Sleep 1000] |}) /\
  fst (Claim.messagePump (Fixtures.healthy_marshaler 4) 200 Fixtures.a_state) =
    PumpBlocked (Some (Fixtures.a_message 3 0 Byte.x01)) /\
  length (Claim.messages
            (Claim.self (snd (Claim.messagePump (Fixtures.healthy_marshaler 4) 200
                                Fixtures.a_state)))) = chan_cap.
Proof. vm_compute. repeat split. Qed.

End PumpFacts.

(** ** Refreshing the offsets *)

Module OffsetFacts.

Definition is_fetch_call (e : Event) : bool :=
  match e with Call (CGetPartitionOffsets _ _) => true | _ => false end.

Lemma fetch_calls_release_none evs :
  Forall (fun e => is_fetch_call e = true) evs -> release_calls evs = 0%nat.
Proof.
  intros H. apply ClaimFacts.release_calls_none.
  eapply Forall_impl; [exact H|]. intros [[]| |]; cbn; congruence.
Qed.

(** *** The claim's own tick *)

Lemma array10_store_Some a i v :
  0 <= i < 10 ->
  Claim.array10_store a i v = Some (<[Z.to_nat i := v]> a).
Proof.
  intros Hi. unfold Claim.array10_store.
  destruct (Z.leb_spec 0 i); [|lia]. destruct (Z.ltb_spec i 10); [|lia]. reflexivity.
Qed.

Section ClaimTick.

Import Claim.

Variable m : Marshaler.
Variable ctr : Z.
Variable s : state.

Let c := self s.
Let fetched := GetPartitionOffsets m (log s) (topic c) (partID c).
Let oEarly := fst (fst (fst fetched)).
Let oLate := snd (fst (fst fetched)).
Let err := snd fetched.
Let call := Call (CGetPartitionOffsets (topic c) (partID c)).

Lemma claim_updateOffsets_error :
  Kafka.is_nil err = false ->
  updateOffsets m ctr s = Some (err, {| self := c; log := log s ++ [call] |}).
Proof.
  intros Herr. unfold updateOffsets. subst err call oEarly oLate fetched. fold c.
  destruct (GetPartitionOffsets m (log s) (topic c) (partID c)) as [[[e la] cu] er].
  cbn [snd] in Herr. rewrite Herr. reflexivity.
Qed.

Lemma claim_updateOffsets_ok :
  Kafka.is_nil err = true -> 0 <= ctr ->
  updateOffsets m ctr s =
    Some (None,
          {| self := with_refresh oEarly oLate
                       (<[Z.to_nat (ctr mod 10) := offsetCurrent c]> (offsetCurrentHistory c))
                       (<[Z.to_nat (ctr mod 10) := oLate]> (offsetLatestHistory c)) c;
             log := log s ++ [call] |}).
Proof.
  intros Herr Hctr. unfold updateOffsets. subst err call oEarly oLate fetched. fold c.
  destruct (GetPartitionOffsets m (log s) (topic c) (partID c)) as [[[e la] cu] er].
  cbn [fst snd] in *. rewrite Herr. cbn [negb].
  unfold Int.rem64. rewrite Z.rem_mod_nonneg by lia.
  pose proof (Z.mod_pos_bound ctr 10 ltac:(lia)) as Hm.
  rewrite !array10_store_Some by lia. reflexivity.
Qed.

End ClaimTick.

(** The counter of [updateOffsetsLoop] starts at 0 and counts up, so the
    stores into the history arrays stay in range: the loop does not panic. *)
Lemma updateOffsetsLoop_runs m jitter fuel : forall ctr s,
  0 <= ctr -> ctr + Z.of_nat fuel <= Int.max64 ->
  is_Some (Claim.updateOffsetsLoop m jitter fuel ctr s).
Proof.
  induction fuel as [|fuel IH]; intros ctr s Hctr Hfuel; cbn [Claim.updateOffsetsLoop].
  - eauto.
  - destruct (negb (Claim.Claimed (Claim.self s))); [eauto|].
    set (s1 := Claim.emit (Sleep jitter) s).
    destruct (Kafka.is_nil
                (snd (GetPartitionOffsets m (Claim.log s1) (Claim.topic (Claim.self s1))
                        (Claim.partID (Claim.self s1))))) eqn:Herr.
    + rewrite (claim_updateOffsets_ok m ctr s1 Herr Hctr).
      rewrite IntFacts.add64_id by (unfold Int.in64, Int.min64, Int.max64 in *; lia).
      apply IH; lia.
    + rewrite (claim_updateOffsets_error m ctr s1 Herr).
      rewrite IntFacts.add64_id by (unfold Int.in64, Int.min64, Int.max64 in *; lia).
      apply IH; lia.
Qed.


(** *** The consumer's refresh of all its claims *)

Section ConsumerRefresh.

Import ConsumerClaim Consumer.

Variable m : Marshaler.

(** Two claim objects that differ at most in [offsetEarliest] and
    [offsetLatest]. *)
Definition same_but_bounds (c c' : consumerClaim) : Prop :=
  c' = with_offsetLatest (offsetLatest c') (with_offsetEarliest (offsetEarliest c') c).

Lemma same_but_bounds_refl c : same_but_bounds c c.
Proof. unfold same_but_bounds. now destruct c. Qed.

Lemma same_but_bounds_step c c' e la :
  same_but_bounds (with_offsetLatest la (with_offsetEarliest e c)) c' ->
  same_but_bounds c c'.
Proof. unfold same_but_bounds. intros ->. reflexivity. Qed.

(** The refresh visited the entries [done] successfully, in histories
    between the one it started from and the one it ended with. *)
Definition refreshed (w w' : World) (done : list (Z * loc)) : Prop :=
  (forall l, ~ In l done.*2 -> heap w' l = heap w l) /\
  (forall l, In l done.*2 ->
     exists p h,
       In (p, l) done /\ log w `prefix_of` h /\ h `prefix_of` log w' /\
       let fetched := GetPartitionOffsets m h (ctopic (cons w)) p in
       Kafka.is_nil (snd fetched) = true /\
       offsetEarliest (heap w' l) = fst (fst (fst fetched)) /\
       offsetLatest (heap w' l) = snd (fst (fst fetched))).

(** The fetches made for a list of entries, in order. *)
Definition fetch_calls (t : string) (entries : list (Z * loc)) : list Event :=
  List.map (fun e => Call (CGetPartitionOffsets t (fst e))) entries.

Lemma consumer_updateOffsets_spec order : forall w,
  let r := updateOffsets m order w in
  cons (snd r) = cons w /\
  (exists evs, log (snd r) = log w ++ evs /\
               Forall (fun e => is_fetch_call e = true) evs) /\
  (forall l, same_but_bounds (heap w l) (heap (snd r) l)) /\
  exists done,
    refreshed w (snd r) done /\
    ((fst r = None /\ done = order /\
      log (snd r) = log w ++ fetch_calls (ctopic (cons w)) order) \/
     (exists p l rest h,
        order = done ++ (p, l) :: rest /\
        log w `prefix_of` h /\
        fst r = snd (GetPartitionOffsets m h (ctopic (cons w)) p) /\
        Kafka.is_nil (fst r) = false /\
        log (snd r) = log w ++ fetch_calls (ctopic (cons w)) (done ++ [(p, l)]))).
Proof.
  induction order as [|[p l] rest IH]; intros w; cbn [updateOffsets].
  - cbv zeta. cbn [fst snd]. split; [reflexivity|].
    split; [exists []; rewrite app_nil_r; auto|].
    split; [intros; apply same_but_bounds_refl|].
    exists []. split; [|left; cbn; now rewrite app_nil_r].
    split; [reflexivity|]. intros l' [].
  - destruct (GetPartitionOffsets m (log w) (ctopic (cons w)) p)
      as [[[e la] cu] er] eqn:Hfetch.
    destruct (Kafka.is_nil er) eqn:Her; cbn [negb].
    + set (w1 := modify l (with_offsetLatest la)
                   (modify l (with_offsetEarliest e)
                      (emit (Call (CGetPartitionOffsets (ctopic (cons w)) p)) w))).
      cbn [emit cons].
      change (updateOffsets m rest _) with (updateOffsets m rest w1).
      destruct (IH w1) as (Hcons & (evs & Hlog & Hevs) & Hsame & done & (Hout & Hin) & Hend).
      assert (Hw1 : forall l', l' <> l -> heap w1 l' = heap w l').
      { intros l' Hne. subst w1. cbn [modify heap emit].
        destruct (Nat.eqb_spec l' l); [contradiction|reflexivity]. }
      assert (Hw1l : heap w1 l = with_offsetLatest la (with_offsetEarliest e (heap w l))).
      { subst w1. cbn [modify heap emit]. now rewrite Nat.eqb_refl. }
      assert (Hlog1 : log w1 = log w ++ [Call (CGetPartitionOffsets (ctopic (cons w)) p)])
        by reflexivity.
      cbv zeta. split; [exact Hcons|]. split; [|split].
      * exists (Call (CGetPartitionOffsets (ctopic (cons w)) p) :: evs).
        split; [rewrite Hlog, Hlog1, <- app_assoc; reflexivity|].
        constructor; [reflexivity|exact Hevs].
      * intros l'. specialize (Hsame l').
        destruct (Nat.eq_dec l' l) as [->|Hne].
        -- rewrite Hw1l in Hsame. eapply same_but_bounds_step, Hsame.
        -- now rewrite (Hw1 l' Hne) in Hsame.
      * exists ((p, l) :: done). split; [split|].
        -- intros l' Hl'. rewrite fmap_cons in Hl'. cbn [snd In] in Hl'.
           rewrite Hout by (intros Hd; apply Hl'; now right).
           apply Hw1. intros ->. apply Hl'. now left.
        -- intros l' Hl'. rewrite fmap_cons in Hl'. cbn [snd In] in Hl'.
           destruct (in_dec Nat.eq_dec l' done.*2) as [Hd|Hd].
           ++ destruct (Hin l' Hd) as (p' & h & Hpl & Hpre1 & Hpre2 & Hvals).
              exists p', h. split; [now right|]. split; [|split; [exact Hpre2|exact Hvals]].
              etransitivity; [|exact Hpre1]. rewrite Hlog1. now apply prefix_app_r.
           ++ destruct Hl' as [Hl'|Hl']; [|contradiction]. subst l'.
              exists p, (log w). split; [now left|]. split; [reflexivity|].
              split; [rewrite Hlog, Hlog1, <- app_assoc; now apply prefix_app_r|].
              cbv zeta. rewrite Hfetch. cbn [fst snd].
              rewrite (Hout l Hd), Hw1l. auto.
        -- destruct Hend as [(Hr & -> & Hfetched)
                             |(p' & l' & rest' & h & -> & Hpre & Hr & Hnil & Hfetched)].
           ++ left. split; [exact Hr|]. split; [reflexivity|].
              rewrite Hfetched, Hlog1, <- app_assoc. reflexivity.
           ++ right. exists p', l', rest', h. split; [reflexivity|].
              split; [|split; [exact Hr|split; [exact Hnil|]]].
              ** etransitivity; [|exact Hpre]. rewrite Hlog1. now apply prefix_app_r.
              ** rewrite Hfetched, Hlog1, <- app_assoc. reflexivity.
    + cbv zeta. cbn [fst snd emit cons log heap].
      split; [reflexivity|]. split; [|split].
      * eexists. split; [reflexivity|]. repeat constructor.
      * intros; apply same_but_bounds_refl.
      * exists []. split; [split; [reflexivity|intros l' []]|].
        right. exists p, l, rest, (log w). split; [reflexivity|].
        split; [reflexivity|]. rewrite Hfetch. cbn [snd]. auto.
Qed.

End ConsumerRefresh.

(** C8. A periodic offset refresh, be it the claim's own [updateOffsets]
    tick or the consumer's [updateOffsets] over its claims, sets
    [offsetEarliest] and [offsetLatest] of a claim to the values fetched for
    it and leaves [offsetCurrent] as it was; a fetch error leaves the whole
    claim it was made for as it was (in particular its three offsets and its
    flag), and no release is called or scheduled: the only calls made are
    the fetches, and the consumer's mapping is unchanged.  The consumer's
    refresh does not reach every claim: it returns at the first fetch error,
    so only [done], the entries it visited before, are refreshed; the claim
    whose fetch failed and the claims after it in the range are left as
    they were, and no fetch is made for the latter: the fetches made are
    those for [done] and the one that failed. *)
Theorem updateOffsets_refreshes_bounds_only (m : Marshaler) :
  (forall ctr (s : Claim.state),
     let c := Claim.self s in
     let fetched := GetPartitionOffsets m (Claim.log s) (Claim.topic c) (Claim.partID c) in
     let call := Call (CGetPartitionOffsets (Claim.topic c) (Claim.partID c)) in
     (Kafka.is_nil (snd fetched) = false ->
        Claim.updateOffsets m ctr s =
          Some (snd fetched, {| Claim.self := c; Claim.log := Claim.log s ++ [call] |})) /\
     (Kafka.is_nil (snd fetched) = true -> 0 <= ctr ->
        exists s',
          Claim.updateOffsets m ctr s = Some (None, s') /\
          Claim.offsetEarliest (Claim.self s') = fst (fst (fst fetched)) /\
          Claim.offsetLatest (Claim.self s') = snd (fst (fst fetched)) /\
          Claim.offsetCurrent (Claim.self s') = Claim.offsetCurrent c /\
          Claim.claimed (Claim.self s') = Claim.claimed c /\
          Claim.log s' = Claim.log s ++ [call])) /\
  (forall order (w : Consumer.World),
     let r := Consumer.updateOffsets m order w in
     Consumer.cons (snd r) = Consumer.cons w /\
     release_calls (Consumer.log (snd r)) = release_calls (Consumer.log w) /\
     (exists evs, Consumer.log (snd r) = Consumer.log w ++ evs /\
                  Forall (fun e => is_fetch_call e = true) evs) /\
     (forall l,
        ConsumerClaim.offsetCurrent (Consumer.heap (snd r) l) =
          ConsumerClaim.offsetCurrent (Consumer.heap w l) /\
        ConsumerClaim.claimed (Consumer.heap (snd r) l) =
          ConsumerClaim.claimed (Consumer.heap w l)) /\
     exists done,
       refreshed m w (snd r) done /\
       ((fst r = None /\ done = order /\
         Consumer.log (snd r) =
           Consumer.log w ++ fetch_calls (Consumer.ctopic (Consumer.cons w)) order) \/
        (exists p l rest h,
           order = done ++ (p, l) :: rest /\
           Consumer.log w `prefix_of` h /\
           fst r = snd (GetPartitionOffsets m h (Consumer.ctopic (Consumer.cons w)) p) /\
           Kafka.is_nil (fst r) = false /\
           (~ In l done.*2 -> Consumer.heap (snd r) l = Consumer.heap w l) /\
           (forall l', ~ In l' done.*2 ->
              Consumer.heap (snd r) l' = Consumer.heap w l') /\
           Consumer.log (snd r) =
             Consumer.log w ++
             fetch_calls (Consumer.ctopic (Consumer.cons w)) (done ++ [(p, l)])))).
Proof.
  split.
  - intros ctr s c fetched call. split.
    + intros Herr. now apply claim_updateOffsets_error.
    + intros Herr Hctr. eexists. split; [now apply claim_updateOffsets_ok|].
      repeat split.
  - intros order w r.
    destruct (consumer_updateOffsets_spec m order w)
      as (Hcons & (evs & Hlog & Hevs) & Hsame & done & Href & Hend).
    fold r in Hcons, Hlog, Hsame, Href, Hend.
    split; [exact Hcons|]. split; [|split; [|split]].
    + rewrite Hlog, ClaimFacts.release_calls_app, (fetch_calls_release_none _ Hevs). lia.
    + exists evs. auto.
    + intros l. specialize (Hsame l). unfold same_but_bounds in Hsame.
      rewrite Hsame. split; reflexivity.
    + exists done. split; [exact Href|].
      destruct Hend as [Hend|(p & l & rest & h & Ho & Hpre & Hr & Hnil & Hfetched)];
        [now left|].
      destruct Href as (Hout & _).
      right. exists p, l, rest, h.
      split; [exact Ho|]. split; [exact Hpre|]. split; [exact Hr|].
      split; [exact Hnil|]. split; [apply Hout|]. split; [exact Hout|exact Hfetched].
Qed.

(** The counterexample to C8 as first stated.  The consumer holds
    partitions 0 and 1; the latest offset of partition 0 has moved from 7 to
    10 and a fetch for it would succeed, but the fetch for partition 1
    fails.  When the range visits partition 1 first, the refresh returns
    there: no fetch is made for partition 0 and its claim keeps the stale
    latest offset 7.  In the other order the same claim is refreshed. *)
Lemma consumer_updateOffsets_stops_at_first_error :
  let m := Fixtures.healthy_marshaler 2 in
  let broken := Fixtures.marshaler 2 (Fixtures.all_but 1) Fixtures.yes Fixtures.yes
                  Fixtures.yes Fixtures.yes None in
  let w0 := ClaimingFacts.sweep m 0
              (ClaimingFacts.fresh_world 2 Consumer.CbAggressive) in
  let w := Consumer.modify 0%nat (ConsumerClaim.with_offsetLatest 7) w0 in
  let order := [(1, 1%nat); (0, 0%nat)] in
  let r := Consumer.updateOffsets broken order w in
  Consumer.range_of w order /\
  Consumer.range_of w [(0, 0%nat); (1, 1%nat)] /\
  Consumer.claims_lookup w 0 = Some 0%nat /\
  GetPartitionOffsets broken
    (Consumer.log w ++ [Call (CGetPartitionOffsets "events" 1)]) "events" 0 =
    (0, 10, 0, None) /\
  fst r = Fixtures.some_error /\
  Consumer.log (snd r) = Consumer.log w ++ [Call (CGetPartitionOffsets "events" 1)] /\
  Consumer.heap (snd r) 0%nat = Consumer.heap w 0%nat /\
  ConsumerClaim.offsetLatest (Consumer.heap (snd r) 0%nat) = 7 /\
  ConsumerClaim.offsetLatest
    (Consumer.heap (snd (Consumer.updateOffsets broken [(0, 0%nat); (1, 1%nat)] w))
       0%nat) = 10.
Proof.
  cbv zeta.
  split; [unfold Consumer.range_of; vm_compute; first [reflexivity|apply perm_swap]|].
  split; [unfold Consumer.range_of; vm_compute; first [reflexivity|apply perm_swap]|].
  vm_compute. repeat split.
Qed.

(** A refresh of the claim of the fixtures at tick 13, and one that fails. *)
Example claim_updateOffsets_examples :
  let m := Fixtures.healthy_marshaler 4 in
  let broken := Fixtures.marshaler 4 Fixtures.no Fixtures.yes Fixtures.yes
                  Fixtures.yes Fixtures.yes None in
  (exists s', Claim.updateOffsets m 13 Fixtures.a_state = Some (None, s') /\
     Claim.offsetEarliest (Claim.self s') = 0 /\
     Claim.offsetLatest (Claim.self s') = 10 /\
     Claim.offsetCurrent (Claim.self s') = 5 /\
     Claim.offsetLatestHistory (Claim.self s') =
       [10; 20; 30; 10; 50; 60; 70; 80; 90; 100] /\
     Claim.offsetCurrentHistory (Claim.self s') =
       [1; 2; 3; 5; 5; 5; 5; 5; 5; 5]) /\
  Claim.updateOffsets broken 13 Fixtures.a_state =
    Some (Fixtures.some_error,
          {| Claim.self := Fixtures.a_claim;
             Claim.log := [Call (CGetPartitionOffsets "events" 3)] |}) /\
  Claim.updateOffsets m (-3) Fixtures.a_state = None.
Proof. vm_compute. split; [eexists; repeat split|repeat split]. Qed.

(** The consumer's refresh over two claims when the fetch for partition 1
    fails: the claim of partition 0 is refreshed, that of partition 1 is
    not touched. *)
Example consumer_updateOffsets_example :
  let m := Fixtures.healthy_marshaler 2 in
  let broken := Fixtures.marshaler 2 (Fixtures.all_but 1) Fixtures.yes Fixtures.yes
                  Fixtures.yes Fixtures.yes None in
  let w0 := ClaimingFacts.sweep m 0
              (ClaimingFacts.fresh_world 2 Consumer.CbAggressive) in
  let w := Consumer.modify 0%nat (ConsumerClaim.with_offsetLatest 7) w0 in
  let r := Consumer.updateOffsets broken [(0, 0%nat); (1, 1%nat)] w in
  fst r = Fixtures.some_error /\
  ConsumerClaim.offsetLatest (Consumer.heap (snd r) 0%nat) = 10 /\
  Consumer.heap (snd r) 1%nat = Consumer.heap w 1%nat /\
  Consumer.claims (Consumer.cons (snd r)) = Consumer.claims (Consumer.cons w).
Proof. vm_compute. repeat split. Qed.


End OffsetFacts.

(** * Further properties of the code *)

(** ** The velocity estimator, continued *)

Module AverageExtras.

Import Claim AverageFacts.

(** The largest and the smallest element are determined by the elements. *)
Lemma list_max_perm x xs y ys :
  x :: xs ≡ₚ y :: ys -> list_max x xs = list_max y ys.
Proof.
  intros Hp.
  destruct (list_max_spec xs x) as [Hin Hle].
  destruct (list_max_spec ys y) as [Hin' Hle'].
  assert (H1 : In (list_max x xs) (y :: ys)).
  { apply list_elem_of_In. rewrite <- Hp. now apply list_elem_of_In. }
  assert (H2 : In (list_max y ys) (x :: xs)).
  { apply list_elem_of_In. rewrite Hp. now apply list_elem_of_In. }
  specialize (Hle _ H2). specialize (Hle' _ H1). lia.
Qed.

Lemma list_min_perm x xs y ys :
  x :: xs ≡ₚ y :: ys -> list_min x xs = list_min y ys.
Proof.
  intros Hp.
  destruct (list_min_spec xs x) as [Hin Hle].
  destruct (list_min_spec ys y) as [Hin' Hle'].
  assert (H1 : In (list_min x xs) (y :: ys)).
  { apply list_elem_of_In. rewrite <- Hp. now apply list_elem_of_In. }
  assert (H2 : In (list_min y ys) (x :: xs)).
  { apply list_elem_of_In. rewrite Hp. now apply list_elem_of_In. }
  specialize (Hle _ H2). specialize (Hle' _ H1). lia.
Qed.

Lemma velocity_spec_multiset vals vals' :
  valid_samples vals ≡ₚ valid_samples vals' ->
  velocity_spec vals = velocity_spec vals'.
Proof.
  intros Hp. unfold velocity_spec.
  destruct (valid_samples vals) as [|x xs], (valid_samples vals') as [|y ys].
  - reflexivity.
  - apply Permutation_nil_l in Hp. discriminate.
  - apply Permutation_nil_r in Hp. discriminate.
  - rewrite (list_max_perm _ _ _ _ Hp), (list_min_perm _ _ _ _ Hp).
    now rewrite (Permutation_length Hp).
Qed.

(** X1. [average] depends only on the multiset of the positive samples:
    the order of the samples (where the ring buffer's write index stands)
    and the unset or non-positive slots between them make no difference. *)
Theorem average_multiset_of_positive_samples (vals vals' : list Z) :
  Forall Int.in64 vals -> Z.of_nat (length vals) <= Int.max64 ->
  Forall Int.in64 vals' -> Z.of_nat (length vals') <= Int.max64 ->
  valid_samples vals ≡ₚ valid_samples vals' ->
  average vals = average vals'.
Proof.
  intros H1 H2 H1' H2' Hp.
  rewrite (average_refines vals H1 H2), (average_refines vals' H1' H2').
  now apply velocity_spec_multiset.
Qed.

(** The ring buffer of a claim before and after the write index wrapped
    round: the same samples, rotated, with two slots still unset. *)
Lemma average_multiset_of_positive_samples_witness :
  average [0; 0; 12; 15; 19; 24; 30; 31; 35; 40] =
  average [31; 35; 40; 0; 0; 12; 15; 19; 24; 30].
Proof.
  apply average_multiset_of_positive_samples.
  - repeat (apply List.Forall_cons; [unfold Int.in64, Int.min64, Int.max64; lia|]).
    apply List.Forall_nil.
  - unfold Int.max64. cbn. lia.
  - repeat (apply List.Forall_cons; [unfold Int.in64, Int.min64, Int.max64; lia|]).
    apply List.Forall_nil.
  - unfold Int.max64. cbn. lia.
  - change ([12; 15; 19; 24; 30] ++ [31; 35; 40] ≡ₚ [31; 35; 40] ++ [12; 15; 19; 24; 30]).
    apply Permutation_app_comm.
Defined.

End AverageExtras.

(** ** The claim, continued *)

Module ClaimExtras.

Import Claim.

(** *** The flag is final *)

(** The claim while its methods run concurrently.  [Consumed] loads the
    flag before it takes the lock and stores the cursor under the lock, and
    [Release] swaps the flag before it takes the lock and calls the
    marshaler under it; other calls can fall between the two points.
    [consuming] are the offsets of the [Consumed] calls that have found the
    flag active and have not yet stored, [releasing] counts the [Release]
    calls that have won the swap and have not yet called the marshaler. *)
Record running := {
  current : state;
  consuming : list Z;
  releasing : nat
}.

Definition with_current (s : state) (r : running) : running :=
  {| current := s; consuming := consuming r; releasing := releasing r |}.

(** The steps of the methods of a claim that run once it is set up: the
    two points of [Consumed] and of [Release], and the trips of the three
    workers.  A trip of a worker is taken whole: the workers write under the
    lock, and what they write does not depend on the flag they read before.
    ([setup] runs inside [newClaim], before anybody else holds the claim.) *)
Inductive method (m : Marshaler) : running -> running -> Prop :=
| method_Consumed_load offset r :
    (* [if atomic.LoadInt32(c.claimed) != 1 { return false }] *)
    method m r
      (if Claimed (self (current r))
       then {| current := current r; consuming := offset :: consuming r;
               releasing := releasing r |}
       else r)
| method_Consumed_store offset before after r :
    (* [c.offsetCurrent = offset + 1], under the lock *)
    consuming r = before ++ offset :: after ->
    method m r
      {| current := on_self (with_offsetCurrent (Int.add64 offset 1)) (current r);
         consuming := before ++ after; releasing := releasing r |}
| method_Release_cas r :
    method m r
      (if fst (Release_cas (self (current r)))
       then {| current := on_self (fun c => snd (Release_cas c)) (current r);
               consuming := consuming r; releasing := S (releasing r) |}
       else r)
| method_Release_call r :
    (0 < releasing r)%nat ->
    method m r
      {| current := snd (Release_call m (current r));
         consuming := consuming r; releasing := pred (releasing r) |}
| method_messagePump r :
    method m r (with_current (snd (messagePump_iter m (current r))) r)
| method_heartbeat now r :
    method m r (with_current (heartbeat m now (current r)) r)
| method_healthCheck HeartbeatInterval now r :
    method m r (with_current (snd (healthCheck HeartbeatInterval now (current r))) r)
| method_healthCheckLoop HeartbeatInterval now jitter r :
    method m r
      (with_current
         (snd (healthCheckLoop_iter HeartbeatInterval now jitter (current r))) r)
| method_updateOffsets ctr r err s' :
    updateOffsets m ctr (current r) = Some (err, s') ->
    method m r (with_current s' r).









(** The race that makes the last condition necessary: [Consumed 41] loads
    the flag while the claim is active, [Release] wins its swap, and then
    the store of [Consumed] moves the cursor of the released claim. *)
Example Consumed_store_after_release :
  let m := Fixtures.healthy_marshaler 4 in
  let r0 := {| current := Fixtures.a_state; consuming := []; releasing := 0 |} in
  exists r1 r2 r3,
    method m r0 r1 /\ method m r1 r2 /\ method m r2 r3 /\
    consuming r1 = [41] /\
    claimed (self (current r2)) = 0 /\
    offsetCurrent (self (current r2)) = 5 /\
    claimed (self (current r3)) = 0 /\
    offsetCurrent (self (current r3)) = 42.
Proof.
  cbv zeta. eexists _, _, _.
  split; [apply (method_Consumed_load _ 41)|].
  split; [apply method_Release_cas|].
  split; [apply (method_Consumed_store _ 41 [] []); reflexivity|].
  repeat split.
Qed.

(** *** The health check *)

Lemma healthCheck_releases_iff_unhealthy_log HeartbeatInterval now s :
  log (snd (healthCheck HeartbeatInterval now s)) =
    log s ++ (if fst (healthCheck HeartbeatInterval now s) then [] else [Go GoRelease]).
Proof.
  unfold healthCheck.
  destruct (lastHeartbeat (self s) <? Int.sub64 now HeartbeatInterval);
    [reflexivity|].
  destruct (offsetCurrent (self s) >=? offsetLatest (self s));
    [cbn; now rewrite app_nil_r|].
  destruct (Float64.le _ _); [cbn; now rewrite app_nil_r|].
  cbn [on_self self cyclesBehind with_cyclesBehind].
  destruct (Int.add64 (cyclesBehind (self s)) 1 >=? 3); cbn;
    rewrite ?app_nil_r; reflexivity.
Qed.

(** X3. One health check schedules a release exactly when it reports
    unhealthy, makes no call to the marshaler or the broker, and changes no
    field of the claim but [cyclesBehind], which is below 3 after a healthy
    report. *)
Theorem healthCheck_releases_iff_unhealthy (HeartbeatInterval now : Z) (s : state) :
  let r := healthCheck HeartbeatInterval now s in
  log (snd r) = log s ++ (if fst r then [] else [Go GoRelease]) /\
  self (snd r) = with_cyclesBehind (cyclesBehind (self (snd r))) (self s) /\
  (fst r = true ->
     cyclesBehind (self (snd r)) = 0 \/
     cyclesBehind (self (snd r)) = Int.add64 (cyclesBehind (self s)) 1 /\
     cyclesBehind (self (snd r)) < 3).
Proof.
  cbv zeta. unfold healthCheck.
  destruct (lastHeartbeat (self s) <? Int.sub64 now HeartbeatInterval).
  { cbn. split; [reflexivity|]. split; [now destruct s as [[] ?]|discriminate]. }
  destruct (offsetCurrent (self s) >=? offsetLatest (self s)).
  { cbn. rewrite app_nil_r. auto. }
  destruct (Float64.le _ _).
  { cbn. rewrite app_nil_r. auto. }
  cbn [on_self self cyclesBehind with_cyclesBehind].
  rewrite Z.geb_leb.
  destruct (Z.leb_spec 3 (Int.add64 (cyclesBehind (self s)) 1)); cbn.
  - split; [reflexivity|]. split; [reflexivity|discriminate].
  - rewrite app_nil_r. split; [reflexivity|]. split; [reflexivity|]. right. auto.
Qed.

(** X4. One trip of the health-check loop of an active claim sleeps for the
    jitter and then starts exactly one goroutine: the heartbeat if the check
    was healthy, the release if it was not.  On a claim that is no longer
    active the loop ends and nothing happens. *)
Theorem healthCheckLoop_heartbeat_or_release
    (HeartbeatInterval now jitter : Z) (s : state) :
  let r := healthCheckLoop_iter HeartbeatInterval now jitter s in
  (claimed (self s) <> 1 -> r = (PumpExit, s)) /\
  (claimed (self s) = 1 ->
     fst r = PumpNext /\
     exists g, (g = GoHeartbeat \/ g = GoRelease) /\
       log (snd r) = log s ++ [Sleep jitter; Go g] /\
       (g = GoHeartbeat <->
        fst (healthCheck HeartbeatInterval now (emit (Sleep jitter) s)) = true)).
Proof.
  cbv zeta. unfold healthCheckLoop_iter, Claimed. split.
  - intros Hc. destruct (Z.eqb_spec (claimed (self s)) 1); [contradiction|reflexivity].
  - intros Hc. rewrite Hc. cbn [Z.eqb Pos.eqb negb].
    pose proof (healthCheck_releases_iff_unhealthy_log HeartbeatInterval now
                  (emit (Sleep jitter) s)) as Hlog.
    destruct (healthCheck HeartbeatInterval now (emit (Sleep jitter) s))
      as [healthy s1].
    cbn [fst snd emit log] in *. split; [reflexivity|].
    destruct healthy.
    + exists GoHeartbeat. split; [now left|]. cbn [emit log]. rewrite Hlog.
      rewrite app_nil_r, <- app_assoc. split; [reflexivity|]. split; auto.
    + exists GoRelease. split; [now right|]. rewrite Hlog, <- app_assoc.
      split; [reflexivity|]. split; discriminate.
Qed.


(** *** The message pump *)

Definition is_go_release (e : Event) : bool :=
  match e with Go GoRelease => true | _ => false end.

(** How many times [go c.Release()] was run in a list of events. *)
Definition go_releases (evs : list Event) : nat :=
  length (List.filter is_go_release evs).

Lemma go_releases_app evs1 evs2 :
  go_releases (evs1 ++ evs2) = (go_releases evs1 + go_releases evs2)%nat.
Proof. unfold go_releases. now rewrite List.filter_app, List.length_app. Qed.

(** What a pump may do to a claim: append to the channel, within its
    capacity; and to the history: no [ReleasePartition], and [go Release] at
    most once, on its way out. *)
Definition pumped (st : PumpStep) (s s' : state) : Prop :=
  (exists new,
     self s' = with_messages (messages (self s) ++ new) (self s) /\
     ((length (messages (self s)) <= chan_cap)%nat ->
      (length (messages (self s')) <= chan_cap)%nat)) /\
  exists evs,
    log s' = log s ++ evs /\
    release_calls evs = 0%nat /\
    (go_releases evs <= 1)%nat /\
    (st <> PumpExit -> go_releases evs = 0%nat).

Lemma with_messages_same c : with_messages (messages c ++ []) c = c.
Proof. rewrite app_nil_r. now destruct c. Qed.

Lemma pumped_idle st s evs :
  release_calls evs = 0%nat -> (go_releases evs <= 1)%nat ->
  (st <> PumpExit -> go_releases evs = 0%nat) ->
  pumped st s {| self := self s; log := log s ++ evs |}.
Proof.
  intros H1 H2 H3. split.
  - exists []. cbn [self]. split; [now rewrite with_messages_same|auto].
  - exists evs. auto.
Qed.

Lemma messagePump_iter_pumped m s :
  pumped (fst (messagePump_iter m s)) s (snd (messagePump_iter m s)).
Proof.
  unfold messagePump_iter.
  destruct (negb (Claimed (self s))).
  { cbn [fst snd]. replace s with {| self := self s; log := log s ++ [] |} at 2
      by (rewrite app_nil_r; now destruct s).
    apply pumped_idle; cbn; auto. }
  destruct (consumer (self s)) as [h|].
  2:{ cbn [fst snd]. replace s with {| self := self s; log := log s ++ [] |} at 2
        by (rewrite app_nil_r; now destruct s).
      apply pumped_idle; cbn; auto. }
  destruct (BrokerConsume m (log s) h) as [msg err].
  destruct (Kafka.is_out_of_range err).
  { cbn [fst snd]. unfold emit. cbn [self log]. rewrite <- app_assoc.
    apply pumped_idle; cbn; auto. congruence. }
  destruct (negb (Kafka.is_nil err)).
  { cbn [fst snd]. unfold emit. cbn [self log]. rewrite <- app_assoc.
    apply pumped_idle; cbn; auto. }
  unfold messagePump_send, emit. cbn [self log].
  destruct (Nat.ltb_spec (length (messages (self s))) chan_cap) as [Hroom|Hfull];
    cbn [fst snd on_self self log].
  - split.
    + exists [msg]. split; [reflexivity|]. intros _.
      cbn [with_messages messages on_self self]. rewrite List.length_app.
      cbn [length]. lia.
    + exists [Call (CConsume h)]. cbn. auto.
  - apply pumped_idle; cbn; auto.
Qed.

Lemma pumped_trans st s s1 s' :
  pumped PumpNext s s1 -> pumped st s1 s' -> pumped st s s'.
Proof.
  intros ((n1 & Hs1 & Hc1) & evs1 & Hl1 & Hr1 & _ & Hg1)
         ((n2 & Hs2 & Hc2) & evs2 & Hl2 & Hr2 & Hg2 & Hg2').
  specialize (Hg1 ltac:(discriminate)). split.
  - exists (n1 ++ n2). split; [|auto].
    rewrite Hs2, Hs1. cbn [with_messages messages]. now rewrite <- app_assoc.
  - exists (evs1 ++ evs2). rewrite Hl2, Hl1, <- app_assoc.
    rewrite ClaimFacts.release_calls_app, go_releases_app, Hr1, Hr2, Hg1.
    repeat split; auto.
Qed.

(** X5. However long the message pump of a claim runs, it only appends to
    the channel (what was queued stays queued, in order, at the front), it
    never fills the channel beyond its capacity of 100, it changes no other
    field of the claim, it never calls [ReleasePartition] itself, and it
    starts [Release] at most once, and then only as it exits. *)
Theorem messagePump_only_appends (m : Marshaler) (fuel : nat) (s : state) :
  let r := messagePump m fuel s in
  (exists new,
     self (snd r) = with_messages (messages (self s) ++ new) (self s) /\
     ((length (messages (self s)) <= chan_cap)%nat ->
      (length (messages (self (snd r))) <= chan_cap)%nat)) /\
  exists evs,
    log (snd r) = log s ++ evs /\
    release_calls evs = 0%nat /\
    (go_releases evs <= 1)%nat /\
    (fst r <> PumpExit -> go_releases evs = 0%nat).
Proof.
  cbv zeta. change (pumped (fst (messagePump m fuel s)) s (snd (messagePump m fuel s))).
  revert s. induction fuel as [|fuel IH]; intros s; cbn [messagePump].
  - cbn [fst snd]. replace s with {| self := self s; log := log s ++ [] |} at 2
      by (rewrite app_nil_r; now destruct s).
    apply pumped_idle; cbn; auto.
  - pose proof (messagePump_iter_pumped m s) as Hiter.
    destruct (messagePump_iter m s) as [st s1]. cbn [fst snd] in Hiter.
    destruct st; try exact Hiter.
    eapply pumped_trans; [exact Hiter|apply IH].
Qed.

Example messagePump_fills_to_capacity :
  let r := messagePump (Fixtures.healthy_marshaler 4) 300 Fixtures.a_state in
  length (messages (self (snd r))) = 100%nat /\
  length (log (snd r)) = 101%nat.
Proof. vm_compute. split; reflexivity. Qed.


(** *** The offset refresh and its history *)

(** X6. A successful [updateOffsets] at tick [ctr] records the sample in
    slot [ctr mod 10] of both history arrays (the fetched latest offset, and
    the cursor as it stands) and leaves the nine other slots as they were. *)
Theorem updateOffsets_records_sample (m : Marshaler) (ctr : Z) (s : state) :
  let c := self s in
  let fetched := GetPartitionOffsets m (log s) (topic c) (partID c) in
  let slot := Z.to_nat (ctr mod 10) in
  0 <= ctr ->
  length (offsetLatestHistory c) = 10%nat ->
  length (offsetCurrentHistory c) = 10%nat ->
  Kafka.is_nil (snd fetched) = true ->
  exists s',
    updateOffsets m ctr s = Some (None, s') /\
    offsetLatestHistory (self s') !! slot = Some (snd (fst (fst fetched))) /\
    offsetCurrentHistory (self s') !! slot = Some (offsetCurrent c) /\
    (forall j, j <> slot ->
       offsetLatestHistory (self s') !! j = offsetLatestHistory c !! j /\
       offsetCurrentHistory (self s') !! j = offsetCurrentHistory c !! j) /\
    length (offsetLatestHistory (self s')) = 10%nat /\
    length (offsetCurrentHistory (self s')) = 10%nat.
Proof.
  intros c fetched slot Hctr Hl1 Hl2 Hok.
  pose proof (Z.mod_pos_bound ctr 10 ltac:(lia)) as Hm.
  assert (Hslot : (slot < 10)%nat) by (subst slot; lia).
  eexists. split; [exact (OffsetFacts.claim_updateOffsets_ok m ctr s Hok Hctr)|].
  cbn [self with_refresh offsetLatestHistory offsetCurrentHistory]. fold c slot.
  split; [apply list_lookup_insert_eq; lia|].
  split; [apply list_lookup_insert_eq; lia|].
  split; [|now rewrite !length_insert].
  intros j Hj. split; apply list_lookup_insert_ne; congruence.
Qed.

(** The claim of the fixtures at tick 13: slot 3 is written. *)
Lemma updateOffsets_records_sample_witness :
  exists s',
    updateOffsets (Fixtures.healthy_marshaler 4) 13 Fixtures.a_state = Some (None, s') /\
    offsetLatestHistory (self s') !! 3%nat = Some 10 /\
    offsetCurrentHistory (self s') !! 3%nat = Some 5 /\
    offsetLatestHistory (self s') !! 4%nat = Some 50.
Proof.
  destruct (updateOffsets_records_sample (Fixtures.healthy_marshaler 4) 13
              Fixtures.a_state)
    as (s' & Hrun & H1 & H2 & Hother & _); try reflexivity; [lia|].
  exists s'. split; [exact Hrun|]. split; [exact H1|]. split; [exact H2|].
  destruct (Hother 4%nat) as [H4 _]; [discriminate|]. rewrite H4. reflexivity.
Defined.

(** What a tick of [updateOffsets] leaves alone, whether the fetch worked
    or not. *)
Lemma updateOffsets_frame m ctr s err s' :
  updateOffsets m ctr s = Some (err, s') ->
  offsetCurrent (self s') = offsetCurrent (self s) /\
  claimed (self s') = claimed (self s) /\
  messages (self s') = messages (self s) /\
  log s' = log s ++ [Call (CGetPartitionOffsets (topic (self s)) (partID (self s)))].
Proof.
  unfold updateOffsets.
  destruct (GetPartitionOffsets _ _ _ _) as [[[e la] cu] er].
  destruct (negb (Kafka.is_nil er)).
  - intros [= _ <-]. auto.
  - destruct (array10_store _ _ _); [|discriminate].
    destruct (array10_store _ _ _); [|discriminate].
    intros [= _ <-]. auto.
Qed.

Definition is_sleep_or_fetch (e : Event) : bool :=
  match e with
  | Sleep _ | Call (CGetPartitionOffsets _ _) => true
  | _ => false
  end.

Lemma updateOffsets_in_range m ctr s :
  0 <= ctr -> exists err s', updateOffsets m ctr s = Some (err, s').
Proof.
  intros Hctr.
  destruct (Kafka.is_nil
              (snd (GetPartitionOffsets m (log s) (topic (self s)) (partID (self s)))))
    eqn:Herr.
  - eexists _, _. exact (OffsetFacts.claim_updateOffsets_ok m ctr s Herr Hctr).
  - eexists _, _. exact (OffsetFacts.claim_updateOffsets_error m ctr s Herr).
Qed.

Lemma updateOffsetsLoop_frame m jitter fuel : forall ctr s,
  0 <= ctr -> ctr + Z.of_nat fuel <= Int.max64 ->
  exists s',
    updateOffsetsLoop m jitter fuel ctr s = Some s' /\
    offsetCurrent (self s') = offsetCurrent (self s) /\
    claimed (self s') = claimed (self s) /\
    messages (self s') = messages (self s) /\
    exists evs, log s' = log s ++ evs /\
                Forall (fun e => is_sleep_or_fetch e = true) evs.
Proof.
  induction fuel as [|fuel IH]; intros ctr s Hctr Hfuel; cbn [updateOffsetsLoop].
  - exists s. repeat split. exists []. now rewrite app_nil_r.
  - destruct (negb (Claimed (self s))).
    { exists s. repeat split. exists []. now rewrite app_nil_r. }
    destruct (updateOffsets_in_range m ctr (emit (Sleep jitter) s) Hctr)
      as (err & s1 & Hrun).
    rewrite Hrun.
    destruct (updateOffsets_frame _ _ _ _ _ Hrun) as (Ho & Hc & Hm & Hl).
    rewrite IntFacts.add64_id by (unfold Int.in64, Int.min64, Int.max64 in *; lia).
    destruct (IH (ctr + 1) s1 ltac:(lia) ltac:(lia))
      as (s' & Hloop & Ho' & Hc' & Hm' & evs & Hl' & Hevs).
    exists s'. split; [exact Hloop|].
    cbn [emit self log] in *.
    split; [congruence|]. split; [congruence|]. split; [congruence|].
    eexists. split; [rewrite Hl', Hl, <- !app_assoc; reflexivity|].
    cbn. repeat constructor. exact Hevs.
Qed.

(** X7. The offset-update loop of a claim, started with its counter at 0,
    never indexes the history arrays out of range, however many ticks it
    runs; all it does besides the refresh is sleep and fetch: it never moves
    the cursor, never touches the flag or the channel, and never releases
    the claim. *)
Theorem updateOffsetsLoop_only_refreshes (m : Marshaler) (jitter : Z)
    (fuel : nat) (s : state) :
  Z.of_nat fuel <= Int.max64 ->
  exists s',
    updateOffsetsLoop m jitter fuel 0 s = Some s' /\
    offsetCurrent (self s') = offsetCurrent (self s) /\
    claimed (self s') = claimed (self s) /\
    messages (self s') = messages (self s) /\
    exists evs,
      log s' = log s ++ evs /\
      Forall (fun e => is_sleep_or_fetch e = true) evs /\
      release_calls evs = 0%nat /\ go_releases evs = 0%nat.
Proof.
  intros Hfuel.
  destruct (updateOffsetsLoop_frame m jitter fuel 0 s ltac:(lia) ltac:(lia))
    as (s' & Hloop & Ho & Hc & Hm & evs & Hl & Hevs).
  exists s'. repeat (split; [assumption|]).
  exists evs. repeat (split; [assumption|]).
  clear -Hevs. unfold release_calls, go_releases.
  induction Hevs as [|e evs He _ IH]; [auto|].
  destruct e as [[]|[]|]; try discriminate He; cbn; exact IH.
Qed.

(** Twenty-five ticks on the claim of the fixtures. *)
Lemma updateOffsetsLoop_only_refreshes_witness :
  exists s',
    updateOffsetsLoop (Fixtures.healthy_marshaler 4) 1000 25 0 Fixtures.a_state
      = Some s' /\
    offsetCurrent (self s') = 5 /\ claimed (self s') = 1.
Proof.
  destruct (updateOffsetsLoop_only_refreshes (Fixtures.healthy_marshaler 4) 1000 25
              Fixtures.a_state) as (s' & Hrun & Ho & Hc & _).
  - unfold Int.max64. lia.
  - exists s'. split; [exact Hrun|]. split; [exact Ho|exact Hc].
Defined.


(** *** Construction *)

Definition is_worker_start (e : Event) : bool :=
  match e with
  | Go GoUpdateOffsetsLoop | Go GoHealthCheckLoop | Go GoMessagePump => true
  | _ => false
  end.

Section Setup.

Variable m : Marshaler.
Variable now : Z.
Variable s : state.

Let c := self s.
Let cur := Z.max (offsetCurrent c) (offsetEarliest c).
Let beat := Call (CHeartbeat (topic c) (partID c) cur).
Let create := Call (CKafkaConsumer (topic c) (Int.wrap32 (partID c)) cur).
Let beat_ok := Kafka.is_nil (Heartbeat m (log s) (topic c) (partID c) cur).
Let created := NewKafkaConsumer m (log s ++ [beat]) (topic c) (Int.wrap32 (partID c)) cur.

(** [setup], outcome by outcome. *)
Lemma setup_run :
  setup m now s =
    if negb beat_ok
    then {| self := with_claimed 0 (with_offsetCurrent cur c);
            log := log s ++ [beat] |}
    else if negb (Kafka.is_nil (snd created))
    then {| self := with_claimed 0
                      (with_lastHeartbeat now (with_offsetCurrent cur c));
            log := log s ++ [beat; create] |}
    else {| self := with_consumer (Some (fst created))
                      (with_lastHeartbeat now (with_offsetCurrent cur c));
            log := log s ++ [beat; create; Go GoUpdateOffsetsLoop;
                             Go GoHealthCheckLoop; Go GoMessagePump] |}.
Proof.
  unfold setup. subst beat_ok created beat create cur c.
  assert (Hcur : forall s0 : state,
            offsetCurrent (self
              (if offsetCurrent (self s0) <? offsetEarliest (self s0)
               then on_self (fun c => with_offsetCurrent (offsetEarliest c) c) s0
               else s0)) = Z.max (offsetCurrent (self s0)) (offsetEarliest (self s0))).
  { intros s0. destruct (Z.ltb_spec (offsetCurrent (self s0)) (offsetEarliest (self s0)));
      cbn; lia. }
  assert (Hnorm :
            (if offsetCurrent (self s) <? offsetEarliest (self s)
             then on_self (fun c => with_offsetCurrent (offsetEarliest c) c) s
             else s) =
            {| self := with_offsetCurrent
                         (Z.max (offsetCurrent (self s)) (offsetEarliest (self s)))
                         (self s);
               log := log s |}).
  { destruct (Z.ltb_spec (offsetCurrent (self s)) (offsetEarliest (self s))).
    - unfold on_self. now rewrite Z.max_r by lia.
    - rewrite Z.max_l by lia. now destruct s as [[] ?]. }
  rewrite Hnorm. cbv zeta.
  cbn [self log with_offsetCurrent topic partID offsetCurrent emit on_self].
  destruct (Kafka.is_nil (Heartbeat m (log s) (topic (self s)) (partID (self s))
                            (Z.max (offsetCurrent (self s)) (offsetEarliest (self s)))));
    cbn [negb]; [|reflexivity].
  unfold emit, on_self. cbn [self log].
  destruct (NewKafkaConsumer m _ _ _ _) as [kc kerr]. cbn [fst snd].
  destruct (Kafka.is_nil kerr); cbn [negb self log];
    rewrite <- ?app_assoc; reflexivity.
Qed.


End Setup.

Section NewClaim.

Variable m : Marshaler.
Variable now : Z.
Variable topicName : string.
Variable p : Z.
Variable h : History.

Let fetch := Call (CGetPartitionOffsets topicName p).
Let race := Call (CClaimPartition topicName p).
Let fetched := GetPartitionOffsets m h topicName p.
Let won := ClaimPartition m (h ++ [fetch]) topicName p.
Let cur := Z.max (snd (fst fetched)) (fst (fst (fst fetched))).
Let beat := Call (CHeartbeat topicName p cur).
Let beat_ok := Kafka.is_nil (Heartbeat m (h ++ [fetch; race]) topicName p cur).
Let created :=
  NewKafkaConsumer m (h ++ [fetch; race; beat]) topicName (Int.wrap32 p) cur.

Definition is_heartbeat_call (e : Event) : bool :=
  match e with Call (CHeartbeat _ _ _) => true | _ => false end.

(** X9. [newClaim] returns nil exactly when the offsets fetch fails or the
    race for the partition is lost, and then no heartbeat has been sent.
    Otherwise it returns a claim of that topic and partition with an empty
    channel and its cursor at the fetched cursor or, if that is below it, at
    the earliest offset, after exactly one heartbeat, sent with that cursor.
    The claim is returned whether or not [setup] succeeded: its flag is
    active exactly when the heartbeat and the creation of the broker
    consumer both succeeded, and then the three workers have been started;
    otherwise its flag is released and no worker has been started. *)
Theorem newClaim_nil_or_heartbeated :
  let r := newClaim m now topicName p h in
  (fst r = None <-> Kafka.is_nil (snd fetched) = false \/ won = false) /\
  (fst r = None ->
     exists evs, snd r = h ++ evs /\ List.filter is_heartbeat_call evs = []) /\
  (forall c, fst r = Some c ->
     topic c = topicName /\ partID c = p /\ messages c = [] /\
     offsetCurrent c = cur /\
     offsetEarliest c <= offsetCurrent c /\
     (claimed c = 1 <-> beat_ok = true /\ Kafka.is_nil (snd created) = true) /\
     (claimed c <> 1 -> claimed c = 0) /\
     exists evs, snd r = h ++ evs /\
       List.filter is_heartbeat_call evs =
         [Call (CHeartbeat topicName p (offsetCurrent c))] /\
       List.filter is_worker_start evs =
         (if claimed c =? 1
          then [Go GoUpdateOffsetsLoop; Go GoHealthCheckLoop; Go GoMessagePump]
          else [])).
Proof.
  cbv zeta. unfold newClaim. subst created beat_ok beat cur won fetched race fetch.
  destruct (GetPartitionOffsets m h topicName p) as [[[oE oL] oC] ferr].
  cbn [fst snd].
  destruct (Kafka.is_nil ferr); cbn [negb fst snd].
  2:{ split; [split; auto|]. split; [|discriminate].
      intros _. eexists. split; [reflexivity|reflexivity]. }
  destruct (ClaimPartition m (h ++ [Call (CGetPartitionOffsets topicName p)])
              topicName p); cbn [negb fst snd].
  2:{ split; [split; auto|]. split; [|discriminate].
      intros _. eexists. split; [rewrite <- app_assoc; reflexivity|reflexivity]. }
  split; [split; [discriminate|intros [|]; discriminate]|].
  split; [discriminate|].
  intros c [= <-].
  rewrite !setup_run. cbn [self log topic partID offsetCurrent offsetEarliest replicate].
  rewrite <- !app_assoc. cbn [app].
  destruct (Kafka.is_nil (Heartbeat m _ topicName p (Z.max oC oE))); cbn [negb];
    [destruct (Kafka.is_nil (snd (NewKafkaConsumer m _ topicName (Int.wrap32 p)
                                    (Z.max oC oE)))); cbn [negb]|];
    cbn [self log topic partID messages offsetCurrent offsetEarliest claimed
           with_claimed with_offsetCurrent with_lastHeartbeat with_consumer];
    (split; [reflexivity|]); (split; [reflexivity|]); (split; [reflexivity|]);
    (split; [reflexivity|]); (split; [lia|]);
    (split; [split; [intros H; try discriminate H; auto
                    |intros [H1 H2]; try discriminate H1; try discriminate H2;
                     reflexivity]|]);
    (split; [intros H; try reflexivity; now contradiction H|]);
    eexists; (split; [rewrite <- ?app_assoc; reflexivity|]); split; reflexivity.
Qed.

End NewClaim.

(** A claim comes back from [newClaim] although its first heartbeat failed:
    it is there, but released. *)
Example newClaim_returns_released_claim :
  let m := Fixtures.marshaler 4 Fixtures.yes Fixtures.yes Fixtures.no
             Fixtures.yes Fixtures.yes None in
  exists c, fst (newClaim m 100 "events" 2 []) = Some c /\ claimed c = 0.
Proof. eexists. split; reflexivity. Qed.

(** *** Cursor and lag *)

(** X10. [Consumed(offset)] on an active claim moves the cursor to
    [offset + 1], after which [GetCurrentLag] is the distance from there to
    the latest offset, or 0 if the cursor is at or past it; on a claim that
    is not active it returns false and changes nothing. *)
Theorem Consumed_moves_cursor_and_lag (offset : Z) (c : claim) :
  Int.in64 (offset + 1) -> Int.in64 (offsetLatest c - (offset + 1)) ->
  (claimed c = 1 ->
     fst (Consumed offset c) = true /\
     offsetCurrent (snd (Consumed offset c)) = offset + 1 /\
     GetCurrentLag (snd (Consumed offset c)) = Z.max 0 (offsetLatest c - (offset + 1))) /\
  (claimed c <> 1 -> Consumed offset c = (false, c)).
Proof.
  intros H1 H2. unfold Consumed. split.
  - intros ->. cbn [Z.eqb Pos.eqb negb fst snd].
    rewrite IntFacts.add64_id by assumption.
    unfold GetCurrentLag. cbn [with_offsetCurrent offsetCurrent offsetLatest].
    split; [reflexivity|]. split; [reflexivity|].
    destruct (Z.ltb_spec (offset + 1) (offsetLatest c)).
    + rewrite IntFacts.sub64_id by assumption. lia.
    + lia.
  - intros Hc. destruct (Z.eqb_spec (claimed c) 1); [contradiction|reflexivity].
Qed.

Lemma Consumed_moves_cursor_and_lag_witness :
  fst (Consumed 6 Fixtures.a_claim) = true /\
  offsetCurrent (snd (Consumed 6 Fixtures.a_claim)) = 7 /\
  GetCurrentLag (snd (Consumed 6 Fixtures.a_claim)) = 2.
Proof.
  destruct (Consumed_moves_cursor_and_lag 6 Fixtures.a_claim) as [H _].
  - unfold Int.in64, Int.min64, Int.max64. lia.
  - unfold Int.in64, Int.min64, Int.max64. cbn. lia.
  - exact (H eq_refl).
Defined.


End ClaimExtras.

(** ** The consumer, continued *)

Module ConsumerExtras.

Import ConsumerClaim Consumer.

(** *** The mapping and the claim objects agree *)

(** An operation that allocates nothing and adds nothing to the mapping:
    the claim objects keep their topic and partition (whatever else is
    written to them), the mapping is nil after exactly when it was before,
    and every entry of the mapping was there before. *)
Definition frame (w w' : World) : Prop :=
  next w' = next w /\
  ctopic (cons w') = ctopic (cons w) /\
  partitions (cons w') = partitions (cons w) /\
  behavior (cons w') = behavior (cons w) /\
  (forall l, partID (heap w' l) = partID (heap w l) /\
             topic (heap w' l) = topic (heap w l)) /\
  (is_Some (claims (cons w)) <-> is_Some (claims (cons w'))) /\
  (forall p l, claims_lookup w' p = Some l -> claims_lookup w p = Some l).

Lemma frame_refl w : frame w w.
Proof. unfold frame. intuition auto. Qed.

Lemma frame_trans w1 w2 w3 : frame w1 w2 -> frame w2 w3 -> frame w1 w3.
Proof.
  intros (H1 & H2 & H3 & H4 & H5 & H6 & H7) (G1 & G2 & G3 & G4 & G5 & G6 & G7).
  unfold frame. repeat split; try congruence; auto; try tauto.
  - rewrite (proj1 (G5 l)). apply H5.
  - rewrite (proj2 (G5 l)). apply H5.
Qed.

Lemma frame_emit e w : frame w (emit e w).
Proof. unfold frame. cbn. intuition auto. Qed.

(** The setters the operations below apply to a claim object. *)
Definition keeps_identity (f : consumerClaim -> consumerClaim) : Prop :=
  forall c, partID (f c) = partID c /\ topic (f c) = topic c.

Lemma frame_modify l f w : keeps_identity f -> frame w (modify l f w).
Proof.
  intros Hf. unfold frame. cbn. repeat split; auto;
    destruct (Nat.eqb_spec l0 l) as [->|_]; auto; apply Hf.
Qed.

Lemma frame_delete k w : frame w (set_claims (delete k <$> claims (cons w)) w).
Proof.
  unfold frame, claims_lookup. cbn. repeat split; auto.
  - intros [cl ->]. cbn. eauto.
  - destruct (claims (cons w)); cbn; [eauto|]. intros [cl [=]].
  - intros p l. destruct (claims (cons w)) as [cl|]; cbn; [|discriminate].
    intros H. apply lookup_delete_Some in H. tauto.
Qed.

Create HintDb frames.
#[local] Hint Resolve frame_emit frame_delete : frames.
#[local] Hint Extern 1 (keeps_identity _) => (intros ?; split; reflexivity) : frames.
#[local] Hint Extern 2 (frame _ (modify _ _ _)) => apply frame_modify : frames.

(** Peels the writes and events off the right-hand world, last one first. *)
Ltac frames :=
  repeat (eapply frame_trans; [|solve [eauto with frames]]);
  first [apply frame_refl | solve [eauto with frames]].

Lemma messagePump_iter_frame m l w : frame w (snd (messagePump_iter m l w)).
Proof.
  unfold messagePump_iter, messagePump_send.
  destruct (negb _); [apply frame_refl|].
  destruct (consumer (heap w l)); [|apply frame_refl].
  destruct (BrokerConsume _ _ _) as [msg err].
  repeat match goal with
         | |- context [if ?b then _ else _] => destruct b
         end; cbn [snd]; frames.
Qed.

Lemma consumer_updateOffsets_frame m order : forall w, frame w (snd (updateOffsets m order w)).
Proof.
  induction order as [|[p l] rest IH]; intros w; cbn [updateOffsets].
  - apply frame_refl.
  - destruct (GetPartitionOffsets _ _ _ _) as [[[e la] cu] er].
    destruct (negb (Kafka.is_nil er)); cbn [snd]; [apply frame_emit|].
    eapply frame_trans; [|apply IH]. frames.
Qed.

Lemma getUnhealthyClaims_frame HeartbeatInterval nowTime order : forall unclaim w,
  frame w (snd (getUnhealthyClaims_range HeartbeatInterval nowTime order unclaim w)).
Proof.
  induction order as [|[p l] rest IH]; intros unclaim w;
    cbn [getUnhealthyClaims_range]; [apply frame_refl|].
  repeat match goal with
         | |- context [if ?b then _ else _] => destruct b
         end; try apply IH;
    (eapply frame_trans; [|apply IH]); frames.
Qed.

Lemma unclaim_loop_frame unclaim : forall k w, frame w (unclaim_loop unclaim k w).
Proof.
  induction unclaim as [|l rest IH]; intros k w; cbn [unclaim_loop];
    [apply frame_refl|].
  destruct (k <=? 0); [apply frame_refl|].
  eapply frame_trans; [|apply IH].
  eapply frame_trans; [|apply frame_delete]. frames.
Qed.

Lemma release_loop_frame m unclaim : forall w, frame w (release_loop m unclaim w).
Proof.
  induction unclaim as [|l rest IH]; intros w; cbn [release_loop];
    [apply frame_refl|].
  eapply frame_trans; [|apply IH]. apply frame_emit.
Qed.

Lemma healthSweep_frame m HeartbeatInterval nowTime claimCount order1 order2 w :
  frame w (healthSweep m HeartbeatInterval nowTime claimCount order1 order2 w).
Proof.
  unfold healthSweep, getUnhealthyClaims, releaseUnhealthy.
  pose proof (consumer_updateOffsets_frame m order1 w) as H1.
  destruct (updateOffsets m order1 w) as [err w1]. cbn [snd] in H1.
  pose proof (getUnhealthyClaims_frame HeartbeatInterval nowTime order2 [] w1) as H2.
  destruct (getUnhealthyClaims_range _ _ _ _ _) as [unclaim w2]. cbn [snd] in H2.
  destruct (0 <? length unclaim)%nat.
  - eapply frame_trans; [exact H1|]. eapply frame_trans; [exact H2|].
    eapply frame_trans; [apply unclaim_loop_frame|apply release_loop_frame].
  - eapply frame_trans; eassumption.
Qed.

Lemma Consume_scan_frame order : forall msg w, frame w (snd (Consume_scan order msg w)).
Proof.
  induction order as [|[p l] rest IH]; intros msg w; cbn [Consume_scan];
    [apply frame_refl|].
  destruct (messages (heap w l)); [apply IH|].
  eapply frame_trans; [|apply IH]. frames.
Qed.

Lemma Consume_frame HeartbeatInterval now orders : forall w,
  frame w (snd (Consume HeartbeatInterval now orders w)).
Proof.
  induction orders as [|order later IH]; intros w; cbn [Consume];
    [apply frame_refl|].
  pose proof (Consume_scan_frame order None w) as Hscan.
  destruct (Consume_scan order None w) as [msg w1]. cbn [snd] in Hscan.
  destruct msg as [msg|].
  2:{ eapply frame_trans; [exact Hscan|]. eapply frame_trans; [|apply IH].
      apply frame_emit. }
  destruct (claims_lookup w1 (Kafka.Partition msg)) as [claim|].
  2:{ eapply frame_trans; [exact Hscan|apply IH]. }
  destruct (claimed (heap w1 claim) =? 1).
  2:{ eapply frame_trans; [exact Hscan|apply IH]. }
  cbv zeta. cbn [snd]. eapply frame_trans; [exact Hscan|]. clear Hscan IH.
  destruct (_ <=? _); cbn [snd]; frames.
Qed.

(** Every entry of the mapping points to an allocated claim object of that
    partition and of the consumer's topic. *)
Definition consistent (w : World) : Prop :=
  is_Some (claims (cons w)) /\
  forall p l, claims_lookup w p = Some l ->
    (l < next w)%nat /\ partID (heap w l) = p /\ topic (heap w l) = ctopic (cons w).

Lemma consistent_frame w w' : consistent w -> frame w w' -> consistent w'.
Proof.
  intros (Hsome & Hent) (Hn & Ht & _ & _ & Hid & Hs & Hsub).
  split; [now apply Hs|]. intros p l Hp.
  destruct (Hent p l (Hsub p l Hp)) as (H1 & H2 & H3).
  destruct (Hid l) as [Hp' Ht']. rewrite Hn, Hp', Ht', Ht. auto.
Qed.

Lemma frame_extend w evs : frame w (ClaimingFacts.extend w evs).
Proof. unfold frame. cbn. intuition auto. Qed.

(** The two ways [tryClaimPartition] can leave the world. *)
Lemma tryClaimPartition_world m now p w :
  exists evs,
    (fst (tryClaimPartition m now p w) = false /\
     snd (tryClaimPartition m now p w) = ClaimingFacts.extend w evs) \/
    (exists c,
       fst (tryClaimPartition m now p w) = true /\
       snd (tryClaimPartition m now p w) = ClaimingFacts.claimed_world w p c evs /\
       partID c = p /\ topic c = ctopic (cons w) /\
       claimed c = 1 /\ messages c = [] /\
       offsetEarliest c <= offsetCurrent c /\ startOffset c = offsetCurrent c).
Proof.
  rewrite ClaimingFacts.tryClaimPartition_run. cbv zeta.
  repeat match goal with
         | |- context [if ?b then _ else _] => destruct b eqn:?
         end; eexists;
    first [ left; split; reflexivity
          | right; eexists; do 6 (split; [reflexivity|]); cbn;
            split; [|reflexivity];
            repeat match goal with
                   | H : (_ <? _) = true |- _ => apply Z.ltb_lt in H
                   | H : (_ <? _) = false |- _ => apply Z.ltb_ge in H
                   end; lia ].
Qed.

Lemma consistent_claimed_world w p c evs :
  consistent w -> partID c = p -> topic c = ctopic (cons w) ->
  consistent (ClaimingFacts.claimed_world w p c evs).
Proof.
  intros ([cl Hcl] & Hent) Hp Ht. unfold consistent, claims_lookup in *.
  cbn. rewrite Hcl in *. cbn. split; [eauto|].
  intros q l Hq. destruct (decide (p = q)) as [<-|Hne].
  - rewrite lookup_insert_eq in Hq. injection Hq as <-.
    rewrite Nat.eqb_refl. auto.
  - rewrite lookup_insert_ne in Hq by assumption.
    destruct (Hent q l Hq) as (H1 & H2 & H3).
    destruct (Nat.eqb_spec l (next w)); [lia|]. auto.
Qed.

Lemma tryClaimPartition_consistent m now p w :
  consistent w -> consistent (snd (tryClaimPartition m now p w)).
Proof.
  intros Hw.
  destruct (tryClaimPartition_world m now p w)
    as (evs & [(_ & ->)|(c & _ & -> & Hp & Ht & _)]).
  - eapply consistent_frame; [exact Hw|apply frame_extend].
  - now apply consistent_claimed_world.
Qed.

Lemma claimPartitions_loop_consistent m now offset n : forall i w,
  consistent w -> consistent (claimPartitions_loop m now offset n i w).
Proof.
  induction n as [|n IH]; intros i w Hw; cbn [claimPartitions_loop]; [exact Hw|].
  destruct (claims_lookup w _); [now apply IH|].
  pose proof (tryClaimPartition_consistent m now
                (Int.rem64 (Int.add64 i offset) (partitions (cons w))) w Hw) as H1.
  destruct (tryClaimPartition m now _ w) as [ok w1]. cbn [snd] in H1.
  destruct ok; cbn [negb]; [|now apply IH].
  destruct (behavior_eqb _ _); [exact H1|now apply IH].
Qed.

Lemma reachable_consistent w : ConsumeFacts.reachable w -> consistent w.
Proof.
  induction 1 as [m t b w Hnew|m now offset w w' _ IH _ Hrun|m l w _ IH _
                 |m HI nowTime o1 o2 w _ IH _ _|HI now orders w _ IH _].
  - injection Hnew as <-. split; [cbn; eauto|]. intros p l Hp. discriminate Hp.
  - unfold claimPartitions in Hrun. destruct (_ <=? _); [discriminate|].
    injection Hrun as <-. now apply claimPartitions_loop_consistent.
  - eapply consistent_frame; [exact IH|apply messagePump_iter_frame].
  - eapply consistent_frame; [exact IH|apply healthSweep_frame].
  - eapply consistent_frame; [exact IH|apply Consume_frame].
Qed.

(** X11. In every state the consumer reaches by claim sweeps, pump trips,
    health sweeps and calls of [Consume], the mapping is not nil, each of
    its entries points to an allocated claim object of that very partition
    and of the consumer's topic, and no claim object is shared by two
    entries; so [delete(c.claims, claim.partID)] removes the entry of
    [claim] and no other. *)
Theorem reachable_mapping_agrees_with_claims (w : World) :
  ConsumeFacts.reachable w ->
  is_Some (claims (cons w)) /\
  (forall p l, claims_lookup w p = Some l ->
     (l < next w)%nat /\ partID (heap w l) = p /\
     topic (heap w l) = ctopic (cons w)) /\
  (forall p p' l,
     claims_lookup w p = Some l -> claims_lookup w p' = Some l -> p = p').
Proof.
  intros Hr. destruct (reachable_consistent w Hr) as [Hsome Hent].
  split; [exact Hsome|]. split; [exact Hent|].
  intros p p' l Hp Hp'.
  destruct (Hent p l Hp) as (_ & <- & _). destruct (Hent p' l Hp') as (_ & <- & _).
  reflexivity.
Qed.

Lemma reachable_mapping_agrees_with_claims_witness :
  claims_lookup ConsumeFacts.two_buffered 1 = Some 1%nat /\
  partID (heap ConsumeFacts.two_buffered 1%nat) = 1.
Proof.
  destruct (reachable_mapping_agrees_with_claims ConsumeFacts.two_buffered
              ConsumeFacts.two_buffered_reachable) as (_ & Hent & _).
  assert (H : claims_lookup ConsumeFacts.two_buffered 1 = Some 1%nat)
    by (vm_compute; reflexivity).
  split; [exact H|]. exact (proj1 (proj2 (Hent 1 1%nat H))).
Defined.


(** *** A claim sweep only adds *)

(** Allocation and insertion at a free key: what was there stays. *)
Definition grows (w w' : World) : Prop :=
  (next w <= next w')%nat /\
  (forall l, (l < next w)%nat -> heap w' l = heap w l) /\
  (forall p l, claims_lookup w p = Some l -> claims_lookup w' p = Some l) /\
  claims_len w <= claims_len w'.

Lemma grows_refl w : grows w w.
Proof. unfold grows. split; [lia|]. split; [auto|]. split; [auto|lia]. Qed.

Lemma grows_trans w1 w2 w3 : grows w1 w2 -> grows w2 w3 -> grows w1 w3.
Proof.
  intros (H1 & H2 & H3 & H4) (G1 & G2 & G3 & G4). unfold grows.
  split; [lia|]. split; [|split; [auto|lia]].
  intros l Hl. rewrite G2 by lia. auto.
Qed.

Lemma grows_extend w evs : grows w (ClaimingFacts.extend w evs).
Proof.
  unfold grows, claims_len, claims_lookup. cbn.
  split; [lia|]. split; [auto|]. split; [auto|lia].
Qed.

Lemma grows_claimed_world w p c evs :
  claims_lookup w p = None -> grows w (ClaimingFacts.claimed_world w p c evs).
Proof.
  intros Hfree. unfold grows, claims_lookup, claims_len in *. cbn.
  split; [lia|]. split; [|split].
  - intros l Hl. destruct (Nat.eqb_spec l (next w)); [lia|reflexivity].
  - intros q l. destruct (claims (cons w)) as [cl|]; cbn; [|discriminate].
    intros Hq. rewrite lookup_insert_ne; [exact Hq|]. congruence.
  - destruct (claims (cons w)) as [cl|]; cbn; [|lia].
    rewrite map_size_insert_None by assumption. lia.
Qed.

Lemma claimPartitions_loop_only_adds m now offset n : forall i w,
  grows w (claimPartitions_loop m now offset n i w).
Proof.
  induction n as [|n IH]; intros i w; cbn [claimPartitions_loop];
    [apply grows_refl|].
  destruct (claims_lookup w _) eqn:Hq; [apply IH|].
  destruct (tryClaimPartition_world m now
              (Int.rem64 (Int.add64 i offset) (partitions (cons w))) w)
    as (evs & [(Hok & Hw)|(c & Hok & Hw & _)]);
    destruct (tryClaimPartition m now _ w) as [ok w1];
    cbn [fst snd] in Hok, Hw; subst ok w1; cbn [negb].
  - eapply grows_trans; [apply grows_extend|apply IH].
  - destruct (behavior_eqb _ _).
    + apply grows_claimed_world. exact Hq.
    + eapply grows_trans; [|apply IH]. apply grows_claimed_world. exact Hq.
Qed.

(** X12. A sweep of [claimPartitions], in either mode, only adds: every
    entry of the mapping is still there and points to the same claim object,
    no existing claim object is written to, and the load does not go
    down. *)
Theorem claimPartitions_keeps_existing_claims
    (m : Marshaler) (now offset : Z) (w w' : World) :
  claimPartitions m now offset w = Some w' ->
  (forall p l, claims_lookup w p = Some l -> claims_lookup w' p = Some l) /\
  (forall l, (l < next w)%nat -> heap w' l = heap w l) /\
  (next w <= next w')%nat /\
  GetCurrentLoad w <= GetCurrentLoad w'.
Proof.
  unfold claimPartitions. destruct (_ <=? _); [discriminate|]. intros [= <-].
  destruct (claimPartitions_loop_only_adds m now offset
              (Z.to_nat (partitions (cons w))) 0 w) as (H1 & H2 & H3 & H4).
  auto.
Qed.

(** A second sweep over a consumer that holds partition 1 of four. *)
Lemma claimPartitions_keeps_existing_claims_witness :
  let m := Fixtures.healthy_marshaler 4 in
  let w := ClaimingFacts.sweep m 1 (ClaimingFacts.fresh_world 4 CbBalanced) in
  claims_lookup w 1 = Some 0%nat /\
  exists w', claimPartitions m 200 0 w = Some w' /\
             claims_lookup w' 1 = Some 0%nat /\ heap w' 0%nat = heap w 0%nat.
Proof.
  cbv zeta.
  set (m := Fixtures.healthy_marshaler 4).
  set (w := ClaimingFacts.sweep m 1 (ClaimingFacts.fresh_world 4 CbBalanced)).
  assert (H1 : claims_lookup w 1 = Some 0%nat) by (vm_compute; reflexivity).
  split; [exact H1|].
  destruct (claimPartitions m 200 0 w) as [w'|] eqn:Hrun;
    [|vm_compute in Hrun; discriminate Hrun].
  exists w'. split; [reflexivity|].
  destruct (claimPartitions_keeps_existing_claims m 200 0 w w' Hrun)
    as (Hkeep & Hheap & _).
  split; [exact (Hkeep 1 0%nat H1)|].
  apply Hheap. vm_compute. lia.
Defined.


(** *** Enlisting unhealthy claims *)

Section Unhealthy.

Variables HeartbeatInterval nowTime : Z.

(** The body of the loop of [getUnhealthyClaims] on one claim object:
    whether it is enlisted, and the object as the loop leaves it. *)
Definition verdict (c : consumerClaim) : bool * consumerClaim :=
  if claimed c =? 0 then (true, c)
  else if offsetCurrent c >=? offsetLatest c then (false, c)
  else if (offsetCurrent c =? startOffset c) || (nowTime =? startTime c) then (false, c)
  else
    let velocity :=
      Float64.div
        (Float64.of_int64 (Int.sub64 (offsetCurrent c) (startOffset c)))
        (Float64.of_int64 (Int.sub64 nowTime (startTime c))) in
    let secondsBehind :=
      Float64.div
        (Float64.of_int64 (Int.sub64 (offsetLatest c) (offsetCurrent c)))
        velocity in
    if PrimFloat.ltb (Float64.of_int64 (HeartbeatInterval * 2)) secondsBehind
    then
      let c' := with_cyclesBehind (Int.add64 (cyclesBehind c) 1) c in
      (cyclesBehind c' >=? 3, c')
    else (false, with_cyclesBehind 0 c).

(** One turn of the loop is the verdict on the claim visited. *)
Lemma getUnhealthyClaims_range_cons p l rest acc w :
  exists w1,
    getUnhealthyClaims_range HeartbeatInterval nowTime ((p, l) :: rest) acc w =
      getUnhealthyClaims_range HeartbeatInterval nowTime rest
        (if fst (verdict (heap w l)) then acc ++ [l] else acc) w1 /\
    cons w1 = cons w /\ log w1 = log w /\ next w1 = next w /\
    heap w1 l = snd (verdict (heap w l)) /\
    (forall l', l' <> l -> heap w1 l' = heap w l').
Proof.
  cbn [getUnhealthyClaims_range]. unfold verdict.
  destruct (claimed (heap w l) =? 0); [exists w; cbn; auto 10|].
  destruct (offsetCurrent (heap w l) >=? offsetLatest (heap w l));
    [exists w; cbn; auto 10|].
  destruct ((offsetCurrent (heap w l) =? startOffset (heap w l))
            || (nowTime =? startTime (heap w l))); [exists w; cbn; auto 10|].
  cbv zeta.
  destruct (PrimFloat.ltb _ _).
  - cbn [modify heap]. rewrite Nat.eqb_refl.
    cbn [cyclesBehind with_cyclesBehind].
    eexists (modify l _ w).
    destruct (Int.add64 (cyclesBehind (heap w l)) 1 >=? 3); cbn [fst snd];
      (split; [reflexivity|]); cbn; rewrite Nat.eqb_refl;
      repeat (split; [reflexivity|]); intros l' Hl';
      destruct (Nat.eqb_spec l' l); [contradiction|reflexivity|contradiction|reflexivity].
  - eexists (modify l _ w). cbn [fst snd]. split; [reflexivity|].
    cbn. rewrite Nat.eqb_refl. repeat (split; [reflexivity|]).
    intros l' Hl'. destruct (Nat.eqb_spec l' l); [contradiction|reflexivity].
Qed.

Lemma getUnhealthyClaims_range_spec order : forall acc w,
  List.NoDup order.*2 ->
  let r := getUnhealthyClaims_range HeartbeatInterval nowTime order acc w in
  cons (snd r) = cons w /\ log (snd r) = log w /\ next (snd r) = next w /\
  (forall l, ~ In l order.*2 -> heap (snd r) l = heap w l) /\
  (forall l, In l order.*2 -> heap (snd r) l = snd (verdict (heap w l))) /\
  fst r = acc ++ List.filter (fun l => fst (verdict (heap w l))) order.*2.
Proof.
  induction order as [|[p l] rest IH]; intros acc w Hnd.
  - cbn. rewrite app_nil_r. repeat split; auto. intros l [].
  - rewrite fmap_cons in Hnd |- *. cbn [snd] in Hnd |- *.
    apply List.NoDup_cons_iff in Hnd as [Hl Hnd].
    destruct (getUnhealthyClaims_range_cons p l rest acc w)
      as (w1 & -> & Hc & Hlog & Hn & Hheap & Hother).
    destruct (IH (if fst (verdict (heap w l)) then acc ++ [l] else acc) w1 Hnd)
      as (Hc' & Hlog' & Hn' & Hout & Hin & Hlist).
    cbv zeta. split; [congruence|]. split; [congruence|]. split; [congruence|].
    split; [|split].
    + intros l' Hl'. cbn [In] in Hl'.
      rewrite Hout by tauto. apply Hother. intros ->. tauto.
    + intros l' [<-|Hl'].
      * rewrite Hout by assumption. exact Hheap.
      * rewrite (Hin l' Hl'), Hother; [reflexivity|]. intros ->. contradiction.
    + rewrite Hlist. cbn [List.filter].
      assert (Hext : List.filter (fun l0 => fst (verdict (heap w1 l0))) rest.*2 =
                     List.filter (fun l0 => fst (verdict (heap w l0))) rest.*2).
      { apply List.filter_ext_in. intros l' Hl'. rewrite Hother; [reflexivity|].
        intros ->. contradiction. }
      rewrite Hext. destruct (fst (verdict (heap w l)));
        [rewrite <- app_assoc|]; reflexivity.
Qed.

Lemma verdict_frame c :
  snd (verdict c) = with_cyclesBehind (cyclesBehind (snd (verdict c))) c.
Proof.
  unfold verdict.
  repeat match goal with
         | |- context [if ?b then _ else _] => destruct b
         end; cbn; try reflexivity; now destruct c.
Qed.

Lemma verdict_released c : claimed c = 0 -> verdict c = (true, c).
Proof. intros H. unfold verdict. now rewrite H. Qed.

Lemma verdict_spared c :
  claimed c <> 0 ->
  offsetCurrent c >= offsetLatest c \/ offsetCurrent c = startOffset c \/
  nowTime = startTime c ->
  verdict c = (false, c).
Proof.
  intros Hc H. unfold verdict.
  destruct (Z.eqb_spec (claimed c) 0); [contradiction|].
  rewrite Z.geb_leb.
  destruct (Z.leb_spec (offsetLatest c) (offsetCurrent c)); [reflexivity|].
  destruct (Z.eqb_spec (offsetCurrent c) (startOffset c)); [reflexivity|].
  destruct (Z.eqb_spec nowTime (startTime c)); [reflexivity|]. lia.
Qed.

Lemma verdict_enlisted c :
  fst (verdict c) = true ->
  claimed c = 0 \/
  (offsetCurrent c < offsetLatest c /\
   cyclesBehind (snd (verdict c)) = Int.add64 (cyclesBehind c) 1 /\
   3 <= cyclesBehind (snd (verdict c))).
Proof.
  unfold verdict.
  destruct (Z.eqb_spec (claimed c) 0); [auto|].
  rewrite Z.geb_leb.
  destruct (Z.leb_spec (offsetLatest c) (offsetCurrent c)); [discriminate|].
  destruct (_ || _); [discriminate|]. cbv zeta.
  destruct (PrimFloat.ltb _ _); [|discriminate].
  cbn [fst snd cyclesBehind with_cyclesBehind]. rewrite Z.geb_leb.
  intros Hge. apply Z.leb_le in Hge. auto.
Qed.

(** X13. [getUnhealthyClaims] makes no call and leaves the mapping alone;
    the only field it writes is [cyclesBehind].  Over a range that visits
    each claim once, it enlists each claim at most once; every claim whose
    flag is already released is enlisted, untouched; a claim with an active
    flag is enlisted only when it is behind ([offsetCurrent < offsetLatest])
    and this visit has brought its [cyclesBehind] to 3 or more; and a claim
    with an active flag that is caught up, has never consumed, or was
    claimed in this very second is not enlisted and not touched. *)
Theorem getUnhealthyClaims_enlists (order : list (Z * loc)) (w : World) :
  List.NoDup order.*2 ->
  let r := getUnhealthyClaims HeartbeatInterval nowTime order w in
  cons (snd r) = cons w /\ log (snd r) = log w /\
  (forall l, heap (snd r) l =
               with_cyclesBehind (cyclesBehind (heap (snd r) l)) (heap w l)) /\
  List.NoDup (fst r) /\
  (forall l, In l (fst r) ->
     In l order.*2 /\
     (claimed (heap w l) = 0 \/
      (offsetCurrent (heap w l) < offsetLatest (heap w l) /\
       cyclesBehind (heap (snd r) l) = Int.add64 (cyclesBehind (heap w l)) 1 /\
       3 <= cyclesBehind (heap (snd r) l)))) /\
  (forall l, In l order.*2 -> claimed (heap w l) = 0 ->
     In l (fst r) /\ heap (snd r) l = heap w l) /\
  (forall l, In l order.*2 -> claimed (heap w l) <> 0 ->
     offsetCurrent (heap w l) >= offsetLatest (heap w l) \/
     offsetCurrent (heap w l) = startOffset (heap w l) \/
     nowTime = startTime (heap w l) ->
     ~ In l (fst r) /\ heap (snd r) l = heap w l).
Proof.
  intros Hnd. unfold getUnhealthyClaims.
  destruct (getUnhealthyClaims_range_spec order [] w Hnd)
    as (Hc & Hlog & _ & Hout & Hin & Hlist).
  cbv zeta. cbn [app] in Hlist.
  split; [exact Hc|]. split; [exact Hlog|]. split; [|split; [|split; [|split]]].
  - intros l. destruct (in_dec Nat.eq_dec l order.*2) as [Hl|Hl].
    + rewrite (Hin l Hl). apply verdict_frame.
    + rewrite (Hout l Hl). now destruct (heap w l).
  - rewrite Hlist. now apply List.NoDup_filter.
  - intros l Hl. rewrite Hlist in Hl. apply filter_In in Hl as [Hl Hv].
    split; [exact Hl|]. rewrite (Hin l Hl). now apply verdict_enlisted.
  - intros l Hl Hflag. rewrite Hlist, (Hin l Hl), filter_In.
    rewrite (verdict_released _ Hflag). auto.
  - intros l Hl Hflag Hs. rewrite Hlist, (Hin l Hl), filter_In.
    rewrite (verdict_spared _ Hflag Hs). split; [|reflexivity].
    intros [_ H]. discriminate H.
Qed.

End Unhealthy.

(** Two claims, one with its flag released and one that has never consumed:
    the first is enlisted, the second is not. *)
Lemma getUnhealthyClaims_enlists_witness :
  let stale := Fixtures.marshaler 2 Fixtures.yes Fixtures.yes Fixtures.yes
                 Fixtures.yes Fixtures.yes (Some Kafka.ErrOffsetOutOfRange) in
  let w0 := ClaimingFacts.sweep (Fixtures.healthy_marshaler 2) 0
              (ClaimingFacts.fresh_world 2 CbAggressive) in
  let w := snd (messagePump_iter stale 0%nat w0) in
  let r := getUnhealthyClaims 60 160 [(0, 0%nat); (1, 1%nat)] w in
  In 0%nat (fst r) /\ ~ In 1%nat (fst r) /\ log (snd r) = log w.
Proof.
  cbv zeta.
  set (w := snd (messagePump_iter _ 0%nat _)).
  destruct (getUnhealthyClaims_enlists 60 160 [(0, 0%nat); (1, 1%nat)] w)
    as (_ & Hlog & _ & _ & _ & Hrel & Hspare).
  - repeat constructor; cbn; intuition discriminate.
  - split; [|split; [|exact Hlog]].
    + apply Hrel; [cbn; auto|vm_compute; reflexivity].
    + apply Hspare; [cbn; auto|vm_compute; discriminate|].
      right. left. vm_compute. reflexivity.
Defined.


(** *** Shedding and termination *)

(** The release message the consumer sends for a claim object. *)
Definition release_of (c : consumerClaim) : Event :=
  Call (CReleasePartition (topic c) (partID c) (offsetCurrent c)).

Lemma with_claimed_twice v c : with_claimed v (with_claimed v c) = with_claimed v c.
Proof. reflexivity. Qed.

Lemma partition_among_dec (w : World) (p : Z) (ls : list loc) :
  (exists l, In l ls /\ partID (heap w l) = p) \/
  (forall l, In l ls -> partID (heap w l) <> p).
Proof.
  induction ls as [|l ls [(l' & Hl' & Hp)|IH]].
  - right. intros l [].
  - left. exists l'. split; [now right|exact Hp].
  - destruct (Z.eq_dec (partID (heap w l)) p) as [Hp|Hp].
    + left. exists l. split; [now left|exact Hp].
    + right. intros l' [<-|Hl']; auto.
Qed.

(** The loop under the lock, object by object and entry by entry. *)
Lemma unclaim_loop_spec unclaimPartitions : forall k w,
  k <= Int.max64 ->
  let shed := take (Z.to_nat k) unclaimPartitions in
  let w' := unclaim_loop unclaimPartitions k w in
  log w' = log w /\
  (forall l, In l shed -> heap w' l = with_claimed 0 (heap w l)) /\
  (forall l, ~ In l shed -> heap w' l = heap w l) /\
  (forall l, In l shed -> claims_lookup w' (partID (heap w l)) = None) /\
  (forall p, (forall l, In l shed -> partID (heap w l) <> p) ->
             claims_lookup w' p = claims_lookup w p).
Proof.
  induction unclaimPartitions as [|claim rest IH]; intros k w Hk;
    cbn [unclaim_loop].
  - rewrite take_nil. cbv zeta. repeat split; auto; intros l [].
  - destruct (Z.leb_spec k 0) as [Hle|Hgt].
    + replace (Z.to_nat k) with 0%nat by lia. cbn [take]. cbv zeta.
      repeat split; auto; intros l [].
    + rewrite IntFacts.sub64_id by (unfold Int.in64, Int.min64, Int.max64 in *; lia).
      replace (Z.to_nat k) with (S (Z.to_nat (k - 1))) by lia. cbn [take].
      set (w1 := set_claims _ _).
      assert (Hheap1 : forall l, heap w1 l =
                if Nat.eqb l claim then with_claimed 0 (heap w claim) else heap w l)
        by reflexivity.
      assert (Hpart1 : forall l, partID (heap w1 l) = partID (heap w l)).
      { intros l. rewrite Hheap1. now destruct (Nat.eqb_spec l claim) as [->|]. }
      assert (Hlook1 : forall p, claims_lookup w1 p =
                if Z.eqb p (partID (heap w claim)) then None else claims_lookup w p).
      { intros p. unfold claims_lookup. subst w1. cbn. rewrite Nat.eqb_refl.
        cbn [partID with_claimed].
        destruct (claims (cons w)) as [cl|]; cbn.
        - destruct (Z.eqb_spec p (partID (heap w claim))) as [->|Hne].
          + apply lookup_delete_eq.
          + now apply lookup_delete_ne.
        - now destruct (p =? _). }
      destruct (IH (k - 1) w1 ltac:(lia)) as (Hlog & Hin & Hout & Hgone & Hkept).
      cbv zeta. split; [exact Hlog|]. split; [|split; [|split]].
      * intros l Hl.
        destruct (in_dec Nat.eq_dec l (take (Z.to_nat (k - 1)) rest)) as [Hr|Hr].
        -- rewrite (Hin l Hr), Hheap1.
           now destruct (Nat.eqb_spec l claim) as [->|].
        -- rewrite (Hout l Hr), Hheap1. destruct Hl as [<-|Hl]; [|contradiction].
           now rewrite Nat.eqb_refl.
      * intros l Hl. rewrite Hout by (intros Hr; apply Hl; now right).
        rewrite Hheap1. destruct (Nat.eqb_spec l claim) as [->|]; [|reflexivity].
        exfalso. apply Hl. now left.
      * intros l Hl.
        destruct (in_dec Nat.eq_dec l (take (Z.to_nat (k - 1)) rest)) as [Hr|Hr].
        -- rewrite <- (Hpart1 l). now apply Hgone.
        -- destruct Hl as [<-|Hl]; [|contradiction].
           destruct (partition_among_dec w (partID (heap w claim))
                       (take (Z.to_nat (k - 1)) rest)) as [(l' & Hl' & Heq)|Hnone].
           ++ rewrite <- Heq, <- (Hpart1 l'). now apply Hgone.
           ++ rewrite Hkept.
              ** rewrite Hlook1. now rewrite Z.eqb_refl.
              ** intros l' Hl'. rewrite Hpart1. now apply Hnone.
      * intros p Hp. rewrite Hkept.
        -- rewrite Hlook1. destruct (Z.eqb_spec p (partID (heap w claim))) as [->|];
             [|reflexivity].
           exfalso. apply (Hp claim); [now left|reflexivity].
        -- intros l Hl. rewrite Hpart1. apply Hp. now right.
Qed.

(** The loop outside the lock: one release message for each enlisted claim,
    in order, with the object's topic, partition and cursor. *)
Lemma release_loop_log m unclaimPartitions : forall w,
  let w' := release_loop m unclaimPartitions w in
  log w' = log w ++ map (fun l => release_of (heap w l)) unclaimPartitions /\
  heap w' = heap w /\ cons w' = cons w /\ next w' = next w.
Proof.
  induction unclaimPartitions as [|claim rest IH]; intros w; cbn [release_loop map].
  - cbv zeta. rewrite app_nil_r. auto.
  - cbv zeta. destruct (IH (emit (release_of (heap w claim)) w))
      as (Hlog & Hheap & Hcons & Hnext).
    unfold release_of in *. rewrite Hlog, Hheap, Hcons, Hnext.
    cbn [emit log heap cons next]. rewrite <- app_assoc. auto.
Qed.

(** X14. What the shedding step of [manageClaims] does with the enlisted
    claims.  With [claimCount] claims counted at the top of the iteration,
    the first [claimCount / 2] enlisted claims are shed: their flag is
    cleared and their partition leaves the mapping.  No other claim object
    is written and no other partition leaves the mapping.  Then one
    [ReleasePartition] is sent for each enlisted claim, shed or not, in
    order, carrying the claim's topic, partition and cursor. *)
Theorem releaseUnhealthy_sheds_first_half (m : Marshaler) (claimCount : Z)
    (unclaimPartitions : list loc) (w : World) :
  0 <= claimCount <= Int.max64 ->
  let shed := take (Z.to_nat (claimCount / 2)) unclaimPartitions in
  let w' := releaseUnhealthy m claimCount unclaimPartitions w in
  (forall l, In l shed ->
     heap w' l = with_claimed 0 (heap w l) /\
     claims_lookup w' (partID (heap w l)) = None) /\
  (forall l, ~ In l shed -> heap w' l = heap w l) /\
  (forall p, (forall l, In l shed -> partID (heap w l) <> p) ->
     claims_lookup w' p = claims_lookup w p) /\
  log w' = log w ++ map (fun l => release_of (heap w l)) unclaimPartitions.
Proof.
  intros Hc. unfold releaseUnhealthy.
  destruct unclaimPartitions as [|claim rest]; cbn [length Nat.ltb Nat.leb].
  { rewrite take_nil. cbv zeta. cbn [map]. rewrite app_nil_r.
    split; [intros l []|auto]. }
  assert (Hhalf : 0 <= claimCount / 2 <= claimCount).
  { split; [apply Z.div_pos; lia|apply Z.div_le_upper_bound; lia]. }
  assert (Hq : Int.div64 claimCount 2 = claimCount / 2).
  { unfold Int.div64. rewrite Z.quot_div_nonneg by lia.
    apply IntFacts.wrap64_id. unfold Int.in64, Int.min64, Int.max64 in *. lia. }
  rewrite Hq. cbv zeta.
  destruct (unclaim_loop_spec (claim :: rest) (claimCount / 2) w ltac:(lia))
    as (Hlog & Hin & Hout & Hgone & Hkept).
  destruct (release_loop_log m (claim :: rest)
              (unclaim_loop (claim :: rest) (claimCount / 2) w))
    as (Hlog' & Hheap & Hcons & _).
  unfold claims_lookup in *. rewrite Hheap, Hcons, Hlog', Hlog.
  split; [|split; [|split]]; auto.
  f_equal. apply map_ext_in. intros l _. unfold release_of.
  destruct (in_dec Nat.eq_dec l (take (Z.to_nat (claimCount / 2)) (claim :: rest)))
    as [Hl|Hl]; [rewrite (Hin l Hl)|rewrite (Hout l Hl)]; reflexivity.
Qed.

(** Four claims are held and three are enlisted: two are shed, the third
    keeps its flag and stays in the mapping, and three releases are sent. *)
Lemma releaseUnhealthy_sheds_first_half_witness :
  let w := ClaimingFacts.sweep (Fixtures.healthy_marshaler 4) 0
             (ClaimingFacts.fresh_world 4 CbAggressive) in
  let w' := releaseUnhealthy (Fixtures.healthy_marshaler 4) 4 [0; 1; 2]%nat w in
  claims_len w = 4 /\
  claims_lookup w' 0 = None /\ claims_lookup w' 1 = None /\
  heap w' 2%nat = heap w 2%nat /\
  claims_lookup w' 2 = Some 2%nat /\
  log w' = log w ++ map (fun l => release_of (heap w l)) [0; 1; 2]%nat.
Proof.
  cbv zeta.
  set (w := ClaimingFacts.sweep _ _ _).
  destruct (releaseUnhealthy_sheds_first_half (Fixtures.healthy_marshaler 4) 4
              [0; 1; 2]%nat w) as (Hshed & Hrest & Hmap & Hlog).
  - vm_compute. split; discriminate.
  - split; [vm_compute; reflexivity|].
    split; [|split; [|split; [|split; [|exact Hlog]]]].
    + assert (Hin : In 0%nat (take (Z.to_nat (4 / 2)) [0; 1; 2]%nat))
        by (vm_compute; auto).
      exact (proj2 (Hshed 0%nat Hin)).
    + assert (Hin : In 1%nat (take (Z.to_nat (4 / 2)) [0; 1; 2]%nat))
        by (vm_compute; auto).
      exact (proj2 (Hshed 1%nat Hin)).
    + apply Hrest. vm_compute. intros [H|[H|[]]]; discriminate H.
    + rewrite Hmap; [vm_compute; reflexivity|].
      vm_compute. intros l [<-|[<-|[]]]; discriminate.
Defined.


Lemma Terminate_range_spec m order : forall w,
  let w' := Terminate_range m order w in
  cons w' = cons w /\ next w' = next w /\
  (forall l, In l order.*2 -> heap w' l = with_claimed 0 (heap w l)) /\
  (forall l, ~ In l order.*2 -> heap w' l = heap w l) /\
  log w' = log w ++
    map (fun e => Call (CReleasePartition (ctopic (cons w)) (fst e)
                          (offsetCurrent (heap w (snd e))))) order.
Proof.
  induction order as [|[p l] rest IH]; intros w; cbn [Terminate_range].
  - cbv zeta. cbn [map]. rewrite app_nil_r. repeat split; auto. intros l [].
  - cbv zeta. set (w1 := emit _ _).
    assert (Hheap1 : forall l', heap w1 l' =
              if Nat.eqb l' l then with_claimed 0 (heap w l) else heap w l')
      by reflexivity.
    assert (Hcur : forall l', offsetCurrent (heap w1 l') = offsetCurrent (heap w l')).
    { intros l'. rewrite Hheap1. now destruct (Nat.eqb_spec l' l) as [->|]. }
    destruct (IH w1) as (Hcons & Hnext & Hin & Hout & Hlog).
    rewrite fmap_cons. cbn [snd fst map].
    split; [exact Hcons|]. split; [exact Hnext|]. split; [|split].
    + intros l' Hl'.
      destruct (in_dec Nat.eq_dec l' rest.*2) as [Hr|Hr].
      * rewrite (Hin l' Hr), Hheap1. now destruct (Nat.eqb_spec l' l) as [->|].
      * rewrite (Hout l' Hr), Hheap1. destruct Hl' as [<-|Hl']; [|contradiction].
        now rewrite Nat.eqb_refl.
    + intros l' Hl'. rewrite Hout by (intros Hr; apply Hl'; now right).
      rewrite Hheap1. destruct (Nat.eqb_spec l' l) as [->|]; [|reflexivity].
      exfalso. apply Hl'. now left.
    + rewrite Hlog. subst w1. cbn [emit log modify heap cons].
      rewrite Nat.eqb_refl, <- app_assoc. cbn [app offsetCurrent with_claimed].
      do 2 f_equal. apply map_ext. intros [p' l']. cbn [fst snd].
      now destruct (Nat.eqb_spec l' l) as [->|].
Qed.

(** X15. [Terminate] clears the flag of every claim it ranges over, sends
    one [ReleasePartition] for each entry in the order of the range, with
    the consumer's topic, the entry's partition and the claim's cursor, and
    leaves the consumer with the nil mapping and load 0.  The results of the
    releases are not acted on; no other claim object is written. *)
Theorem Terminate_releases_every_claim (m : Marshaler) (order : list (Z * loc))
    (w : World) :
  let w' := Terminate m order w in
  claims (cons w') = None /\ GetCurrentLoad w' = 0 /\
  (forall l, In l order.*2 -> heap w' l = with_claimed 0 (heap w l)) /\
  (forall l, ~ In l order.*2 -> heap w' l = heap w l) /\
  log w' = log w ++
    map (fun e => Call (CReleasePartition (ctopic (cons w)) (fst e)
                          (offsetCurrent (heap w (snd e))))) order.
Proof.
  destruct (Terminate_range_spec m order w) as (_ & _ & Hin & Hout & Hlog).
  cbv zeta. unfold Terminate, GetCurrentLoad, claims_len. cbn. auto.
Qed.

(** A marshaler that refuses every release: the termination is the same. *)
Example Terminate_ignores_release_errors :
  let deaf := Fixtures.marshaler 2 Fixtures.yes Fixtures.yes Fixtures.yes
                Fixtures.no Fixtures.yes None in
  let w := ClaimingFacts.sweep (Fixtures.healthy_marshaler 2) 0
             (ClaimingFacts.fresh_world 2 CbAggressive) in
  let w' := Terminate deaf [(1, 1%nat); (0, 0%nat)] w in
  ReleasePartition deaf (log w) "events" 1 0 <> None /\
  claims (cons w') = None /\
  claimed (heap w' 0%nat) = 0 /\ claimed (heap w' 1%nat) = 0 /\
  log w' = log w ++ [Call (CReleasePartition "events" 1 0);
                     Call (CReleasePartition "events" 0 0)].
Proof. vm_compute. repeat split. discriminate. Qed.

(** *** The terminated consumer *)

(** The operations that can run after, or race with, [Terminate]. *)
Inductive operation :=
| OpTryClaim (m : Marshaler) (now partID : Z)
| OpClaimSweep (m : Marshaler) (now offset : Z) (n : nat) (i : Z)
| OpPump (m : Marshaler) (l : loc)
| OpHealthSweep (m : Marshaler) (HeartbeatInterval nowTime claimCount : Z)
    (order1 order2 : list (Z * loc))
| OpManage (m : Marshaler) (HeartbeatInterval nowTime : Z) (due : bool)
    (order1 order2 : list (Z * loc)) (offset pause : Z)
| OpConsume (HeartbeatInterval now : Z) (orders : list (list (Z * loc)))
| OpTerminate (m : Marshaler) (order : list (Z * loc)).

Definition run (op : operation) (w : World) : World :=
  match op with
  | OpTryClaim m now partID => snd (tryClaimPartition m now partID w)
  | OpClaimSweep m now offset n i => claimPartitions_loop m now offset n i w
  | OpPump m l => snd (messagePump_iter m l w)
  | OpHealthSweep m hi nowTime claimCount order1 order2 =>
      healthSweep m hi nowTime claimCount order1 order2 w
  | OpManage m hi nowTime due order1 order2 offset pause =>
      snd (manageClaims_iter m hi nowTime due order1 order2 offset pause w)
  | OpConsume hi now orders => snd (Consume hi now orders w)
  | OpTerminate m order => Terminate m order w
  end.

Lemma frame_nil w w' :
  claims (cons w) = None -> frame w w' -> forall p, claims_lookup w' p = None.
Proof.
  intros Hnil (_ & _ & _ & _ & _ & _ & Hsub) p.
  destruct (claims_lookup w' p) as [l|] eqn:Hp; [|reflexivity].
  apply Hsub in Hp. unfold claims_lookup in Hp. rewrite Hnil in Hp. discriminate.
Qed.

Lemma frame_stays_nil w w' :
  frame w w' -> claims (cons w) = None -> claims (cons w') = None.
Proof.
  intros (_ & _ & _ & _ & _ & Hs & _) Hnil.
  destruct (claims (cons w')) as [cl|] eqn:Hcl; [|reflexivity].
  destruct (proj2 Hs (ex_intro _ cl eq_refl)) as [cl' Hcl'].
  rewrite Hnil in Hcl'. discriminate.
Qed.

Lemma tryClaimPartition_stays_nil m now p w :
  claims (cons w) = None ->
  claims (cons (snd (tryClaimPartition m now p w))) = None.
Proof.
  intros Hnil.
  destruct (tryClaimPartition_world m now p w)
    as (evs & [(_ & ->)|(c & _ & -> & _)]); cbn; [exact Hnil|].
  now rewrite Hnil.
Qed.

Lemma claimPartitions_loop_stays_nil m now offset n : forall i w,
  claims (cons w) = None ->
  claims (cons (claimPartitions_loop m now offset n i w)) = None.
Proof.
  induction n as [|n IH]; intros i w Hnil; cbn [claimPartitions_loop];
    [exact Hnil|].
  destruct (claims_lookup w _); [now apply IH|].
  pose proof (tryClaimPartition_stays_nil m now
                (Int.rem64 (Int.add64 i offset) (partitions (cons w))) w Hnil) as H1.
  destruct (tryClaimPartition m now _ w) as [ok w1]. cbn [snd] in H1.
  destruct (negb ok); [now apply IH|].
  destruct (behavior_eqb _ _); [exact H1|now apply IH].
Qed.

Lemma run_stays_nil op w :
  claims (cons w) = None -> claims (cons (run op w)) = None.
Proof.
  intros Hnil. destruct op; cbn [run].
  - now apply tryClaimPartition_stays_nil.
  - now apply claimPartitions_loop_stays_nil.
  - eapply frame_stays_nil; [apply messagePump_iter_frame|exact Hnil].
  - eapply frame_stays_nil; [apply healthSweep_frame|exact Hnil].
  - unfold manageClaims_iter. now rewrite Hnil.
  - eapply frame_stays_nil; [apply Consume_frame|exact Hnil].
  - reflexivity.
Qed.

Lemma range_of_nil w order : claims (cons w) = None -> range_of w order -> order = [].
Proof.
  unfold range_of. intros ->. cbn. rewrite map_to_list_empty.
  apply Permutation_nil_r.
Qed.

Lemma range_of_terminated w : claims (cons w) = None -> range_of w [].
Proof. unfold range_of. intros ->. cbn. now rewrite map_to_list_empty. Qed.

(** X16. Termination is final.  Once the mapping is nil, no sequence of
    claim attempts, claim sweeps, pump trips, health sweeps, [manageClaims]
    iterations, [Consume] calls and further [Terminate] calls brings it
    back: the mapping stays nil and the load stays 0, even where a claim
    attempt that raced with the termination wins its partition. *)
Theorem terminated_consumer_stays_terminated (ops : list operation) (w : World) :
  claims (cons w) = None ->
  let w' := fold_left (fun w op => run op w) ops w in
  claims (cons w') = None /\ GetCurrentLoad w' = 0 /\
  (forall p, claims_lookup w' p = None).
Proof.
  intros Hnil. cbv zeta.
  assert (H : claims (cons (fold_left (fun w op => run op w) ops w)) = None).
  { revert w Hnil. induction ops as [|op ops IH]; intros w Hnil; cbn [fold_left];
      [exact Hnil|].
    apply IH. now apply run_stays_nil. }
  unfold GetCurrentLoad, claims_len, claims_lookup. rewrite H. auto.
Qed.

(** After [Terminate], a claim attempt that wins its partition at the
    marshaler, a pump trip and a claim sweep leave the consumer terminated;
    the partition won is not in the mapping. *)
Lemma terminated_consumer_stays_terminated_witness :
  let m := Fixtures.healthy_marshaler 2 in
  let w0 := ClaimingFacts.sweep m 0 (ClaimingFacts.fresh_world 2 CbAggressive) in
  let w := Terminate m [(0, 0%nat); (1, 1%nat)] w0 in
  let ops := [OpTryClaim m 100 0; OpPump m 2%nat; OpClaimSweep m 100 0 2 0] in
  let w' := fold_left (fun w op => run op w) ops w in
  fst (tryClaimPartition m 100 0 w) = true /\
  claims (cons w') = None /\ GetCurrentLoad w' = 0.
Proof.
  cbv zeta. split; [vm_compute; reflexivity|].
  set (m := Fixtures.healthy_marshaler 2).
  set (w := Terminate m _ _).
  destruct (terminated_consumer_stays_terminated
              [OpTryClaim m 100 0; OpPump m 2%nat; OpClaimSweep m 100 0 2 0] w)
    as (Hnil & Hload & _); [reflexivity|].
  split; [exact Hnil|exact Hload].
Defined.

(** X17. The terminated consumer is inert.  An iteration of [manageClaims]
    returns at once and does nothing; a second [Terminate] sends no release
    and changes nothing; and [Consume] never returns: every scan finds no
    claim to read from and goes to sleep for 50 ms. *)
Theorem terminated_consumer_is_inert (w : World) :
  claims (cons w) = None ->
  (forall m hi nowTime due order1 order2 offset pause,
     manageClaims_iter m hi nowTime due order1 order2 offset pause w =
       (LoopReturn, w)) /\
  (forall m order, range_of w order -> Terminate m order w = w) /\
  (forall hi now orders, Forall (range_of w) orders ->
     Consume hi now orders w =
       (None, ClaimingFacts.extend w (replicate (length orders) (Sleep 50)))).
Proof.
  intros Hnil. split; [|split].
  - intros. unfold manageClaims_iter. now rewrite Hnil.
  - intros m order Hr. rewrite (range_of_nil w order Hnil Hr).
    unfold Terminate, set_claims, with_claims. cbn.
    destruct w as [h n [t ps cl b] lg]. cbn in *. now subst cl.
  - intros hi now orders. revert w Hnil.
    induction orders as [|order later IH]; intros w Hnil Hall.
    + cbn. unfold ClaimingFacts.extend. rewrite app_nil_r. now destruct w.
    + apply List.Forall_cons_iff in Hall as [Hr Hall].
      rewrite (range_of_nil w order Hnil Hr). cbn [Consume Consume_scan].
      rewrite IH; [|exact Hnil|exact Hall].
      cbn [length replicate]. unfold emit, ClaimingFacts.extend. cbn.
      now rewrite <- app_assoc.
Qed.

Lemma terminated_consumer_is_inert_witness :
  let m := Fixtures.healthy_marshaler 2 in
  let w0 := ClaimingFacts.sweep m 0 (ClaimingFacts.fresh_world 2 CbAggressive) in
  let w := Terminate m [(0, 0%nat); (1, 1%nat)] w0 in
  GetCurrentLoad w0 = 2 /\
  Terminate m [] w = w /\
  fst (Consume 60 200 [[]; []; []] w) = None.
Proof.
  cbv zeta. split; [vm_compute; reflexivity|].
  set (m := Fixtures.healthy_marshaler 2).
  set (w := Terminate m [(0, 0%nat); (1, 1%nat)] _).
  assert (Hnil : claims (cons w) = None) by reflexivity.
  destruct (terminated_consumer_is_inert w Hnil) as (_ & Hterm & Hconsume).
  pose proof (range_of_terminated w Hnil) as Hr.
  split.
  - exact (Hterm m [] Hr).
  - rewrite (Hconsume 60 200 [[]; []; []]); [reflexivity|].
    repeat (apply List.Forall_cons; [exact Hr|]). apply List.Forall_nil.
Defined.


(** *** The scan of [Consume] *)

(** What the channels of the claims visited hold at the front, in the order
    of the visit. *)
Definition channel_heads (w : World) (order : list (Z * loc))
  : list (option Kafka.Message) :=
  flat_map (fun l => match messages (heap w l) with
                     | [] => []
                     | received :: _ => [received]
                     end) order.*2.

Lemma last_cons_default {A} (x d : A) (l : list A) :
  List.last (x :: l) d = List.last l x.
Proof.
  revert x d. induction l as [|y l IH]; intros x d; [reflexivity|].
  change (List.last (x :: y :: l) d) with (List.last (y :: l) d).
  rewrite (IH y d), (IH y x). reflexivity.
Qed.

Lemma channel_heads_ext w w' order :
  (forall l, In l order.*2 -> messages (heap w' l) = messages (heap w l)) ->
  channel_heads w' order = channel_heads w order.
Proof.
  unfold channel_heads. induction (order.*2) as [|l ls IH]; intros H; [reflexivity|].
  cbn [flat_map]. rewrite (H l (or_introl eq_refl)).
  rewrite IH; [reflexivity|]. intros l' Hl'. apply H. now right.
Qed.

Lemma with_messages_id (c : consumerClaim) : with_messages (messages c) c = c.
Proof. now destruct c. Qed.

Lemma Consume_scan_spec order : forall msg w,
  List.NoDup order.*2 ->
  let r := Consume_scan order msg w in
  cons (snd r) = cons w /\ log (snd r) = log w /\ next (snd r) = next w /\
  (forall l, In l order.*2 ->
     heap (snd r) l = with_messages (tail (messages (heap w l))) (heap w l)) /\
  (forall l, ~ In l order.*2 -> heap (snd r) l = heap w l) /\
  fst r = List.last (channel_heads w order) msg.
Proof.
  induction order as [|[p l] rest IH]; intros msg w Hnd.
  - cbn. repeat split; auto. intros l [].
  - rewrite fmap_cons in Hnd |- *. cbn [snd] in Hnd |- *.
    apply List.NoDup_cons_iff in Hnd as [Hl Hnd].
    unfold channel_heads. rewrite fmap_cons. cbn [snd flat_map Consume_scan].
    fold (channel_heads w rest).
    destruct (messages (heap w l)) as [|received queue] eqn:Hq.
    + destruct (IH msg w Hnd) as (Hc & Hlog & Hn & Hin & Hout & Hres).
      cbv zeta. repeat (split; [assumption|]). split; [|split].
      * intros l' [<-|Hl']; [|now apply Hin].
        rewrite (Hout l Hl), Hq. cbn [tail]. rewrite <- Hq.
        symmetry. apply with_messages_id.
      * intros l' Hl'. apply Hout. cbn [In] in Hl'. tauto.
      * exact Hres.
    + set (w1 := modify l (with_messages queue) w).
      assert (Hother : forall l', l' <> l -> heap w1 l' = heap w l').
      { intros l' Hne. subst w1. cbn. now destruct (Nat.eqb_spec l' l). }
      assert (Hheads : channel_heads w1 rest = channel_heads w rest).
      { apply channel_heads_ext. intros l' Hl'.
        rewrite Hother; [reflexivity|]. intros ->. contradiction. }
      destruct (IH received w1 Hnd) as (Hc & Hlog & Hn & Hin & Hout & Hres).
      cbv zeta. repeat (split; [assumption|]). split; [|split].
      * intros l' [<-|Hl'].
        -- rewrite (Hout l Hl). subst w1. cbn. now rewrite Nat.eqb_refl, Hq.
        -- rewrite (Hin l' Hl'), Hother; [reflexivity|]. intros ->. contradiction.
      * intros l' Hl'. cbn [In] in Hl'.
        rewrite Hout by tauto. apply Hother. intros ->. tauto.
      * rewrite Hres, Hheads. cbn [app]. symmetry. apply last_cons_default.
Qed.

(** X18. One scan of [Consume] over its claims takes the message at the
    front of every channel that is not empty and keeps only the last one
    taken (or what it held before, if every channel was empty).  It writes
    no other field, makes no call and leaves the mapping alone.  So a scan
    that meets [n] non-empty channels removes [n] messages from the
    channels and hands on one. *)
Theorem Consume_scan_takes_every_head (order : list (Z * loc))
    (msg : option Kafka.Message) (w : World) :
  List.NoDup order.*2 ->
  let r := Consume_scan order msg w in
  fst r = List.last (channel_heads w order) msg /\
  (forall l, In l order.*2 ->
     messages (heap (snd r) l) = tail (messages (heap w l))) /\
  (forall l, heap (snd r) l = with_messages (messages (heap (snd r) l)) (heap w l)) /\
  (forall l, ~ In l order.*2 -> heap (snd r) l = heap w l) /\
  cons (snd r) = cons w /\ log (snd r) = log w /\
  list_sum (map (fun l => length (messages (heap w l))) order.*2) =
    (list_sum (map (fun l => length (messages (heap (snd r) l))) order.*2)
     + length (channel_heads w order))%nat.
Proof.
  intros Hnd.
  destruct (Consume_scan_spec order msg w Hnd) as (Hc & Hlog & _ & Hin & Hout & Hres).
  cbv zeta. split; [exact Hres|]. split; [|split; [|split; [|split; [|split]]]]; auto.
  - intros l Hl. now rewrite (Hin l Hl).
  - intros l. destruct (in_dec Nat.eq_dec l order.*2) as [Hl|Hl].
    + now rewrite (Hin l Hl).
    + rewrite (Hout l Hl). symmetry. apply with_messages_id.
  - unfold channel_heads.
    assert (Hsub : forall l, In l order.*2 ->
              messages (heap (snd (Consume_scan order msg w)) l) =
              tail (messages (heap w l))).
    { intros l Hl. now rewrite (Hin l Hl). }
    clear - Hsub. induction (order.*2) as [|l ls IH]; [reflexivity|].
    cbn [map list_sum flat_map]. rewrite List.length_app.
    rewrite (Hsub l (or_introl eq_refl)).
    assert (IH' := IH (fun l' Hl' => Hsub l' (or_intror Hl'))).
    unfold list_sum in *.
    destruct (messages (heap w l)); cbn [tail length fold_right]; lia.
Qed.

(** Three claims, two with a message waiting: both messages leave their
    channels, and the scan hands on the one it met last. *)
Lemma Consume_scan_takes_every_head_witness :
  let m := Fixtures.healthy_marshaler 3 in
  let w0 := ClaimingFacts.sweep m 0 (ClaimingFacts.fresh_world 3 CbAggressive) in
  let w := snd (messagePump_iter m 2%nat (snd (messagePump_iter m 0%nat w0))) in
  let order := [(0, 0%nat); (1, 1%nat); (2, 2%nat)] in
  let r := Consume_scan order None w in
  length (channel_heads w order) = 2%nat /\
  fst r = Some (Fixtures.a_message 2 0 Byte.x01) /\
  messages (heap (snd r) 0%nat) = [] /\ messages (heap (snd r) 2%nat) = [].
Proof.
  cbv zeta.
  set (w := snd (messagePump_iter _ 2%nat _)).
  set (order := [(0, 0%nat); (1, 1%nat); (2, 2%nat)]).
  destruct (Consume_scan_takes_every_head order None w) as (Hres & Htail & _).
  - repeat constructor; cbn; intuition discriminate.
  - split; [vm_compute; reflexivity|].
    split; [rewrite Hres; vm_compute; reflexivity|].
    split.
    + rewrite (Htail 0%nat) by (cbn; auto). vm_compute. reflexivity.
    + rewrite (Htail 2%nat) by (cbn; auto). vm_compute. reflexivity.
Defined.


(** *** What [Consume] does to the consumer *)

(** Messages have left channels, the consumer has slept, and nothing else
    has happened. *)
Definition drained (w w' : World) : Prop :=
  cons w' = cons w /\
  (forall l, exists queue,
     heap w' l = with_messages queue (heap w l) /\
     queue `suffix_of` messages (heap w l)) /\
  exists k, log w' = log w ++ replicate k (Sleep 50).

Lemma drained_refl w : drained w w.
Proof.
  split; [reflexivity|]. split.
  - intros l. exists (messages (heap w l)).
    split; [symmetry; apply with_messages_id|reflexivity].
  - exists 0%nat. cbn. now rewrite app_nil_r.
Qed.

Lemma drained_trans w1 w2 w3 : drained w1 w2 -> drained w2 w3 -> drained w1 w3.
Proof.
  intros (Hc1 & Hh1 & k1 & Hl1) (Hc2 & Hh2 & k2 & Hl2).
  split; [congruence|]. split.
  - intros l. destruct (Hh1 l) as (q1 & Hq1 & Hs1), (Hh2 l) as (q2 & Hq2 & Hs2).
    exists q2. split.
    + rewrite Hq2, Hq1. reflexivity.
    + rewrite Hq1 in Hs2. cbn in Hs2. etrans; eassumption.
  - exists (k1 + k2)%nat. rewrite Hl2, Hl1, replicate_add, app_assoc. reflexivity.
Qed.

Lemma drained_sleep w : drained w (emit (Sleep 50) w).
Proof.
  split; [reflexivity|]. split.
  - intros l. exists (messages (heap w l)).
    split; [symmetry; apply with_messages_id|reflexivity].
  - exists 1%nat. reflexivity.
Qed.

Lemma drained_receive w l received queue :
  messages (heap w l) = received :: queue ->
  drained w (modify l (with_messages queue) w).
Proof.
  intros Hq. split; [reflexivity|]. split.
  - intros l'. cbn. destruct (Nat.eqb_spec l' l) as [->|_].
    + exists queue. split; [reflexivity|]. rewrite Hq. now apply suffix_cons_r.
    + exists (messages (heap w l')).
      split; [symmetry; apply with_messages_id|reflexivity].
  - exists 0%nat. cbn. now rewrite app_nil_r.
Qed.

Lemma Consume_scan_drains order : forall msg w,
  drained w (snd (Consume_scan order msg w)).
Proof.
  induction order as [|[p l] rest IH]; intros msg w; cbn [Consume_scan].
  - apply drained_refl.
  - destruct (messages (heap w l)) as [|received queue] eqn:Hq; [apply IH|].
    eapply drained_trans; [|apply IH]. eapply drained_receive, Hq.
Qed.

Lemma drained_buffered w w' msg :
  drained w w' -> ConsumeFacts.buffered w' msg -> ConsumeFacts.buffered w msg.
Proof.
  intros (_ & Hh & _) (l & Hin). exists l.
  destruct (Hh l) as (q & Hq & [front Hs]). rewrite Hq in Hin. cbn in Hin.
  rewrite Hs. apply in_or_app. now right.
Qed.

(** What a call of [Consume] has done when it is over; [known] holds of
    the message whose payload is returned. *)
Definition Consume_post (HeartbeatInterval now : Z) (known : Kafka.Message -> Prop)
    (w : World) (r : option (list Byte.byte) * World) : Prop :=
  cons (snd r) = cons w /\
  (fst r = None -> drained w (snd r)) /\
  (forall v, fst r = Some v ->
     exists msg l,
       known msg /\ Kafka.Value msg = v /\
       claims_lookup w (Kafka.Partition msg) = Some l /\
       claimed (heap w l) = 1 /\
       offsetCurrent (heap (snd r) l) = Int.add64 (Kafka.Offset msg) 1 /\
       lastHeartbeat (heap (snd r) l) =
         (if lastHeartbeat (heap w l) <=? Int.sub64 now HeartbeatInterval
          then now else lastHeartbeat (heap w l)) /\
       (exists k, log (snd r) =
          log w ++ replicate k (Sleep 50) ++
          (if lastHeartbeat (heap w l) <=? Int.sub64 now HeartbeatInterval
           then [Go (GoMarshalHeartbeat (Kafka.Topic msg) (Kafka.Partition msg)
                       (Kafka.Offset msg))]
           else [])) /\
       (forall l', l' <> l -> exists queue,
          heap (snd r) l' = with_messages queue (heap w l') /\
          queue `suffix_of` messages (heap w l'))).

Lemma Consume_post_drained HeartbeatInterval now (known known' : _ -> Prop) w w' r :
  drained w w' -> (forall msg, known' msg -> known msg) ->
  Consume_post HeartbeatInterval now known' w' r ->
  Consume_post HeartbeatInterval now known w r.
Proof.
  intros Hd Hknown (Hc & Hnone & Hsome).
  pose proof Hd as (Hc1 & Hh1 & k1 & Hl1).
  split; [congruence|]. split.
  - intros Hr. eapply drained_trans; [exact Hd|auto].
  - intros v Hv.
    destruct (Hsome v Hv)
      as (msg & l & Hb & Hval & Hlook & Hfl & Hcur & Hhb & [k Hlog] & Hrest).
    destruct (Hh1 l) as (q & Hq & _).
    assert (Hlast : lastHeartbeat (heap w' l) = lastHeartbeat (heap w l))
      by now rewrite Hq.
    exists msg, l.
    split; [auto|]. split; [exact Hval|].
    split; [unfold claims_lookup in *; now rewrite <- Hc1|].
    split; [now rewrite Hq in Hfl|]. split; [exact Hcur|].
    rewrite <- Hlast. split; [exact Hhb|]. split.
    + exists (k1 + k)%nat.
      rewrite Hlog, Hl1, replicate_add, <- !app_assoc. reflexivity.
    + intros l' Hne. destruct (Hrest l' Hne) as (q2 & Hq2 & Hs2).
      destruct (Hh1 l') as (q1 & Hq1 & Hs1).
      exists q2. split.
      * rewrite Hq2, Hq1. reflexivity.
      * rewrite Hq1 in Hs2. cbn in Hs2. etrans; eassumption.
Qed.

Lemma Consume_post_holds HeartbeatInterval now orders : forall w,
  Consume_post HeartbeatInterval now (ConsumeFacts.buffered w) w
    (Consume HeartbeatInterval now orders w).
Proof.
  induction orders as [|order later IH]; intros w; cbn [Consume].
  - split; [reflexivity|]. split; [intros _; apply drained_refl|discriminate].
  - pose proof (Consume_scan_drains order None w) as Hd.
    pose proof (ConsumeFacts.Consume_scan_sound order None w) as Hsound.
    cbv zeta in Hsound.
    destruct (Consume_scan order None w) as [msg w1]. cbn [fst snd] in Hd, Hsound.
    destruct Hsound as [Hres _].
    destruct msg as [msg|].
    2:{ assert (Hd2 : drained w (emit (Sleep 50) w1))
          by (eapply drained_trans; [exact Hd|apply drained_sleep]).
        eapply Consume_post_drained; [exact Hd2| |apply IH].
        intros msg. now apply drained_buffered. }
    destruct (claims_lookup w1 (Kafka.Partition msg)) as [claim|] eqn:Hlook.
    2:{ eapply Consume_post_drained; [exact Hd| |apply IH].
        intros msg'. now apply drained_buffered. }
    destruct (Z.eqb_spec (claimed (heap w1 claim)) 1) as [Hfl|Hfl].
    2:{ eapply Consume_post_drained; [exact Hd| |apply IH].
        intros msg'. now apply drained_buffered. }
    apply (Consume_post_drained _ _ _ (fun msg' => msg' = msg) w w1); [exact Hd| |].
    { intros msg' ->. destruct (Hres msg eq_refl) as [|Hb]; [discriminate|exact Hb]. }
    cbv zeta. cbn [modify heap]. rewrite Nat.eqb_refl.
    cbn [lastHeartbeat with_offsetCurrent].
    split; [now destruct (_ <=? _)|].
    split; [discriminate|].
    intros v [= <-]. exists msg, claim.
    split; [reflexivity|]. split; [reflexivity|]. split; [exact Hlook|].
    split; [exact Hfl|].
    destruct (lastHeartbeat (heap w1 claim) <=? Int.sub64 now HeartbeatInterval);
      cbn [snd emit modify heap log]; rewrite ?Nat.eqb_refl;
      (split; [reflexivity|]); (split; [reflexivity|]);
      (split; [exists 0%nat; cbn; now rewrite ?app_nil_r|]);
      intros l' Hne; exists (messages (heap w1 l'));
      destruct (Nat.eqb_spec l' claim) as [|_]; try contradiction;
      (split; [symmetry; apply with_messages_id|reflexivity]).
Qed.

(** X19. What a call of [Consume] does.  It does not touch the mapping and
    calls neither the marshaler nor the broker itself.  While it has nothing
    to return it only takes messages out of channels and sleeps for 50 ms
    after a scan that found none.  When it returns a payload, this is the
    payload of a message that was buffered when it was called, whose
    partition is in the mapping with an active claim; the cursor of that
    claim is the message's offset plus one; if the claim's last heartbeat
    was [HeartbeatInterval] or more ago, it is stamped with the current time
    and exactly one heartbeat goroutine is started, carrying the message's
    own offset, and otherwise none is; and the other claim objects have
    only lost messages from the front of their channels. *)
Theorem Consume_contract (HeartbeatInterval now : Z)
    (orders : list (list (Z * loc))) (w : World) :
  let r := Consume HeartbeatInterval now orders w in
  cons (snd r) = cons w /\
  (fst r = None ->
     (forall l, exists queue,
        heap (snd r) l = with_messages queue (heap w l) /\
        queue `suffix_of` messages (heap w l)) /\
     exists k, log (snd r) = log w ++ replicate k (Sleep 50)) /\
  (forall v, fst r = Some v ->
     exists msg l,
       ConsumeFacts.buffered w msg /\ Kafka.Value msg = v /\
       claims_lookup w (Kafka.Partition msg) = Some l /\
       claimed (heap w l) = 1 /\
       offsetCurrent (heap (snd r) l) = Int.add64 (Kafka.Offset msg) 1 /\
       lastHeartbeat (heap (snd r) l) =
         (if lastHeartbeat (heap w l) <=? Int.sub64 now HeartbeatInterval
          then now else lastHeartbeat (heap w l)) /\
       (exists k, log (snd r) =
          log w ++ replicate k (Sleep 50) ++
          (if lastHeartbeat (heap w l) <=? Int.sub64 now HeartbeatInterval
           then [Go (GoMarshalHeartbeat (Kafka.Topic msg) (Kafka.Partition msg)
                       (Kafka.Offset msg))]
           else [])) /\
       (forall l', l' <> l -> exists queue,
          heap (snd r) l' = with_messages queue (heap w l') /\
          queue `suffix_of` messages (heap w l'))).
Proof.
  destruct (Consume_post_holds HeartbeatInterval now orders w) as (Hc & Hnone & Hsome).
  cbv zeta. split; [exact Hc|]. split; [|exact Hsome].
  intros Hr. destruct (Hnone Hr) as (_ & Hh & Hlog). auto.
Qed.

(** A heartbeat is due (the claim was stamped at 100, it is 200 now): the
    call returns the payload and starts the heartbeat with the offset of
    the message, while the cursor is one past it. *)
Example Consume_heartbeats_with_message_offset :
  let m := Fixtures.healthy_marshaler 1 in
  let w0 := ClaimingFacts.sweep m 0 (ClaimingFacts.fresh_world 1 CbBalanced) in
  let w := snd (messagePump_iter m 0%nat w0) in
  let r := Consume 60 200 [[]; [(0, 0%nat)]] w in
  fst r = Some [Byte.x00] /\
  offsetCurrent (heap (snd r) 0%nat) = 1 /\
  lastHeartbeat (heap (snd r) 0%nat) = 200 /\
  log (snd r) = log w ++ [Sleep 50; Go (GoMarshalHeartbeat "events" 0 0)].
Proof. vm_compute. repeat split. Qed.


(** *** From the pump to [Consume] *)

Lemma channel_heads_empty w order :
  (forall l, In l order.*2 -> messages (heap w l) = []) ->
  channel_heads w order = [].
Proof.
  unfold channel_heads. induction (order.*2) as [|l ls IH]; intros H; [reflexivity|].
  cbn [flat_map]. rewrite (H l (or_introl eq_refl)).
  apply IH. intros l' Hl'. apply H. now right.
Qed.

Lemma channel_heads_single w order l received queue :
  List.NoDup order.*2 -> In l order.*2 ->
  messages (heap w l) = received :: queue ->
  (forall l', In l' order.*2 -> l' <> l -> messages (heap w l') = []) ->
  channel_heads w order = [received].
Proof.
  unfold channel_heads. induction (order.*2) as [|a ls IH]; intros Hnd Hin Hq Hothers.
  - destruct Hin.
  - apply List.NoDup_cons_iff in Hnd as [Ha Hnd]. cbn [flat_map].
    destruct (Nat.eq_dec a l) as [->|Hne].
    + rewrite Hq. cbn [app]. f_equal.
      assert (Hempty : forall l', In l' ls -> messages (heap w l') = []).
      { intros l' Hl'. apply Hothers; [now right|]. intros ->. contradiction. }
      clear - Hempty. induction ls as [|b ls IH]; [reflexivity|].
      cbn [flat_map]. rewrite (Hempty b (or_introl eq_refl)).
      apply IH. intros l' Hl'. apply Hempty. now right.
    + rewrite (Hothers a (or_introl eq_refl) Hne). cbn [app].
      destruct Hin as [Heq|Hin]; [contradiction|].
      apply IH; auto. intros l' Hl'. apply Hothers. now right.
Qed.

(** X20. From the broker to the caller.  The channels of the claims are
    empty and the pump of an active claim [l] fetches a message of the
    partition that the mapping has for [l]: the pump queues it, and the
    next call of [Consume] returns the payload of that very message at its
    first scan, moves the cursor of [l] one past the message's offset, and
    leaves the channel empty again. *)
Theorem pumped_message_is_consumed (m : Marshaler) (HeartbeatInterval now : Z)
    (order : list (Z * loc)) (later : list (list (Z * loc)))
    (l : loc) (h : Kafka.Consumer) (msg : Kafka.Message) (w : World) :
  List.NoDup order.*2 -> In l order.*2 ->
  (forall l', In l' order.*2 -> messages (heap w l') = []) ->
  claimed (heap w l) = 1 -> consumer (heap w l) = Some h ->
  BrokerConsume m (log w) h = (Some msg, None) ->
  claims_lookup w (Kafka.Partition msg) = Some l ->
  let pumped := messagePump_iter m l w in
  let r := Consume HeartbeatInterval now (order :: later) (snd pumped) in
  fst pumped = PumpNext /\
  messages (heap (snd pumped) l) = [Some msg] /\
  fst r = Some (Kafka.Value msg) /\
  offsetCurrent (heap (snd r) l) = Int.add64 (Kafka.Offset msg) 1 /\
  messages (heap (snd r) l) = [].
Proof.
  intros Hnd Hin Hempty Hfl Hcons Hfetch Hlook.
  assert (Hpump : messagePump_iter m l w =
            (PumpNext, modify l (fun c => with_messages (messages c ++ [Some msg]) c)
                         (emit (Call (CConsume h)) w))).
  { unfold messagePump_iter. rewrite Hfl, Hcons, Hfetch. cbn.
    unfold messagePump_send. cbn [emit heap]. rewrite (Hempty l Hin). reflexivity. }
  cbv zeta. rewrite Hpump. cbn [fst snd].
  set (w1 := modify l _ _).
  assert (Hq : messages (heap w1 l) = [Some msg]).
  { subst w1. cbn. now rewrite Nat.eqb_refl, (Hempty l Hin). }
  assert (Hothers : forall l', In l' order.*2 -> l' <> l -> messages (heap w1 l') = []).
  { intros l' Hl' Hne. subst w1. cbn.
    destruct (Nat.eqb_spec l' l); [contradiction|]. now apply Hempty. }
  split; [reflexivity|]. split; [exact Hq|].
  cbn [Consume].
  destruct (Consume_scan_spec order None w1 Hnd) as (Hc & _ & _ & Hvis & _ & Hres).
  rewrite (channel_heads_single w1 order l (Some msg) [] Hnd Hin Hq Hothers) in Hres.
  cbn [List.last] in Hres.
  destruct (Consume_scan order None w1) as [got w2]. cbn [fst snd] in Hc, Hvis, Hres.
  subst got.
  assert (Hlook2 : claims_lookup w2 (Kafka.Partition msg) = Some l).
  { unfold claims_lookup in *. rewrite Hc. exact Hlook. }
  rewrite Hlook2.
  assert (Hl2 : heap w2 l = with_messages [] (heap w1 l)).
  { rewrite (Hvis l Hin), Hq. reflexivity. }
  assert (Hfl2 : claimed (heap w2 l) = 1).
  { rewrite Hl2. subst w1. cbn. now rewrite Nat.eqb_refl. }
  rewrite Hfl2. cbn [Z.eqb Pos.eqb]. cbv zeta.
  cbn [modify heap]. rewrite Nat.eqb_refl.
  split; [reflexivity|].
  destruct (_ <=? _); cbn [snd emit modify heap]; rewrite ?Nat.eqb_refl;
    cbn [offsetCurrent messages with_offsetCurrent with_lastHeartbeat];
    rewrite Hl2; split; reflexivity.
Qed.

Lemma pumped_message_is_consumed_witness :
  let m := Fixtures.healthy_marshaler 2 in
  let w := ClaimingFacts.sweep m 0 (ClaimingFacts.fresh_world 2 CbAggressive) in
  let msg := Fixtures.a_message 1 0 Byte.x01 in
  let r := Consume 60 100 [[(0, 0%nat); (1, 1%nat)]]
             (snd (messagePump_iter m 1%nat w)) in
  fst r = Some (Kafka.Value msg) /\ offsetCurrent (heap (snd r) 1%nat) = 1.
Proof.
  cbv zeta.
  set (m := Fixtures.healthy_marshaler 2).
  set (w := ClaimingFacts.sweep m 0 _).
  destruct (pumped_message_is_consumed m 60 100 [(0, 0%nat); (1, 1%nat)] []
              1%nat 1%nat (Fixtures.a_message 1 0 Byte.x01) w)
    as (_ & _ & Hres & Hcur & _).
  - repeat constructor; cbn; intuition discriminate.
  - cbn. auto.
  - intros l' [<-|[<-|[]]]; vm_compute; reflexivity.
  - vm_compute. reflexivity.
  - vm_compute. reflexivity.
  - vm_compute. reflexivity.
  - vm_compute. reflexivity.
  - split; [exact Hres|]. etrans; [exact Hcur|]. vm_compute. reflexivity.
Defined.


(** *** The lag of the consumer *)

(** What one claim adds to the lag in the loop of [GetCurrentLag]. *)
Definition claim_lag (c : consumerClaim) : Z :=
  if offsetLatest c >? offsetCurrent c
  then Int.sub64 (offsetLatest c) (offsetCurrent c)
  else 0.

Definition lag_total (w : World) (order : list (Z * loc)) : Z :=
  fold_right Z.add 0 ((fun l => claim_lag (heap w l)) <$> order.*2).

Lemma wrap64_add_wrap64 a b : Int.wrap64 (Int.wrap64 a + b) = Int.wrap64 (a + b).
Proof.
  unfold Int.wrap64, Int.wrap. f_equal.
  replace ((a + 2 ^ (64 - 1)) mod 2 ^ 64 - 2 ^ (64 - 1) + b + 2 ^ (64 - 1))
    with ((a + 2 ^ (64 - 1)) mod 2 ^ 64 + b) by lia.
  rewrite Zplus_mod_idemp_l. f_equal. lia.
Qed.

Lemma wrap64_in64 z : Int.in64 (Int.wrap64 z).
Proof.
  unfold Int.in64, Int.min64, Int.max64, Int.wrap64, Int.wrap.
  pose proof (Z.mod_pos_bound (z + 2 ^ (64 - 1)) (2 ^ 64) ltac:(lia)). lia.
Qed.

Lemma GetCurrentLag_range_sum order : forall lag w,
  Int.in64 lag ->
  GetCurrentLag_range order lag w = Int.wrap64 (lag + lag_total w order).
Proof.
  unfold lag_total.
  induction order as [|[p l] rest IH]; intros lag w Hlag; cbn [GetCurrentLag_range].
  - cbn. rewrite Z.add_0_r. symmetry. now apply IntFacts.wrap64_id.
  - rewrite !fmap_cons. cbn [snd fold_right]. unfold claim_lag at 1.
    destruct (offsetLatest (heap w l) >? offsetCurrent (heap w l)).
    + rewrite IH by apply wrap64_in64. unfold Int.add64.
      rewrite wrap64_add_wrap64. f_equal. lia.
    + rewrite IH by assumption. f_equal.
Qed.

Lemma lag_total_perm w order order' :
  order ≡ₚ order' -> lag_total w order = lag_total w order'.
Proof.
  unfold lag_total. intros Hp.
  induction Hp as [|[p l] o o' _ IH|[p l] [p' l'] o|o1 o2 o3 _ IH1 _ IH2].
  - reflexivity.
  - rewrite !fmap_cons. cbn [fold_right]. now rewrite IH.
  - rewrite !fmap_cons. cbn [fold_right]. lia.
  - congruence.
Qed.

(** X21. The lag that [GetCurrentLag] returns is the sum, in 64-bit
    arithmetic, of the distances [offsetLatest - offsetCurrent] of the
    claims that are behind; claims that are caught up or ahead add nothing.
    It does not depend on the order in which the [range] goes over the
    mapping. *)
Theorem GetCurrentLag_is_order_independent (order order' : list (Z * loc))
    (w : World) :
  order ≡ₚ order' ->
  GetCurrentLag order w = Int.wrap64 (lag_total w order) /\
  GetCurrentLag order' w = GetCurrentLag order w /\
  ((forall l, In l order.*2 -> offsetLatest (heap w l) <= offsetCurrent (heap w l)) ->
   GetCurrentLag order w = 0).
Proof.
  intros Hp. unfold GetCurrentLag.
  assert (H0 : Int.in64 0) by (unfold Int.in64, Int.min64, Int.max64; lia).
  rewrite !GetCurrentLag_range_sum by exact H0. cbn [Z.add].
  split; [reflexivity|]. split; [now rewrite (lag_total_perm w order order' Hp)|].
  intros Hup.
  assert (Hz : lag_total w order = 0).
  { unfold lag_total. clear Hp. induction (order.*2) as [|l ls IH]; [reflexivity|].
    rewrite fmap_cons. cbn [fold_right].
    rewrite IH by (intros l' Hl'; apply Hup; now right).
    unfold claim_lag. pose proof (Hup l (or_introl eq_refl)) as Hl.
    destruct (Z.gtb_spec (offsetLatest (heap w l)) (offsetCurrent (heap w l))); lia. }
  rewrite Hz. reflexivity.
Qed.

(** Two claims at offset 0 of 10: the lag is 20, whichever way round. *)
Lemma GetCurrentLag_is_order_independent_witness :
  let w := ClaimingFacts.sweep (Fixtures.healthy_marshaler 2) 0
             (ClaimingFacts.fresh_world 2 CbAggressive) in
  GetCurrentLag [(1, 1%nat); (0, 0%nat)] w = 20 /\
  GetCurrentLag [(0, 0%nat); (1, 1%nat)] w = 20.
Proof.
  cbv zeta. set (w := ClaimingFacts.sweep _ _ _).
  destruct (GetCurrentLag_is_order_independent
              [(0, 0%nat); (1, 1%nat)] [(1, 1%nat); (0, 0%nat)] w)
    as (Hsum & Hsame & _); [apply perm_swap|].
  assert (H20 : GetCurrentLag [(0, 0%nat); (1, 1%nat)] w = 20)
    by (etrans; [exact Hsum|vm_compute; reflexivity]).
  split; [etrans; [exact Hsame|exact H20]|exact H20].
Defined.

(** *** One iteration of [manageClaims] *)

Lemma consumer_updateOffsets_cons m order : forall w,
  cons (snd (updateOffsets m order w)) = cons w.
Proof.
  induction order as [|[p l] rest IH]; intros w; cbn [updateOffsets]; [reflexivity|].
  destruct (GetPartitionOffsets _ _ _ _) as [[[e la] cu] er].
  destruct (negb (Kafka.is_nil er)); cbn [snd]; [reflexivity|].
  rewrite IH. reflexivity.
Qed.

Lemma getUnhealthyClaims_range_cons_same HeartbeatInterval nowTime order :
  forall acc w,
  cons (snd (getUnhealthyClaims_range HeartbeatInterval nowTime order acc w)) = cons w.
Proof.
  induction order as [|[p l] rest IH]; intros acc w; [reflexivity|].
  destruct (getUnhealthyClaims_range_cons HeartbeatInterval nowTime p l rest acc w)
    as (w1 & -> & Hc & _).
  rewrite IH. exact Hc.
Qed.

Lemma healthSweep_keeps_half m HeartbeatInterval nowTime order1 order2 w :
  claims_len w <= Int.max64 ->
  claims_len w <=
    claims_len (healthSweep m HeartbeatInterval nowTime (claims_len w) order1 order2 w)
    + claims_len w / 2.
Proof.
  intros Hmax. unfold healthSweep, getUnhealthyClaims.
  pose proof (consumer_updateOffsets_cons m order1 w) as H1.
  destruct (updateOffsets m order1 w) as [err w1]. cbn [snd] in H1.
  pose proof (getUnhealthyClaims_range_cons_same HeartbeatInterval nowTime order2 [] w1)
    as H2.
  destruct (getUnhealthyClaims_range _ _ _ _ _) as [unclaim w2]. cbn [snd] in H2.
  assert (Hlen : claims_len w2 = claims_len w)
    by (unfold claims_len; now rewrite H2, H1).
  assert (Hpos : 0 <= claims_len w)
    by (unfold claims_len; destruct (claims (cons w)); lia).
  destruct (SheddingFacts.releaseUnhealthy_effect m (claims_len w) unclaim w2
              ltac:(lia)) as (Hbound & _).
  lia.
Qed.

Lemma claimPartitions_loop_stays_live m now offset n : forall i w,
  is_Some (claims (cons w)) ->
  is_Some (claims (cons (claimPartitions_loop m now offset n i w))).
Proof.
  induction n as [|n IH]; intros i w Hlive; cbn [claimPartitions_loop];
    [exact Hlive|].
  destruct (claims_lookup w _); [now apply IH|].
  assert (H1 : is_Some (claims (cons (snd (tryClaimPartition m now
                 (Int.rem64 (Int.add64 i offset) (partitions (cons w))) w))))).
  { destruct (tryClaimPartition_world m now
                (Int.rem64 (Int.add64 i offset) (partitions (cons w))) w)
      as (evs & [(_ & ->)|(c & _ & -> & _)]); cbn; [exact Hlive|].
    destruct Hlive as [cl ->]. cbn. eauto. }
  destruct (tryClaimPartition m now _ w) as [ok w1]. cbn [snd] in H1.
  destruct (negb ok); [now apply IH|].
  destruct (behavior_eqb _ _); [exact H1|now apply IH].
Qed.

(** X22. One iteration of [manageClaims] on a consumer that has not been
    terminated.  If the topic has no partitions, the iteration panics in
    the claim sweep ([rand.Intn] of a number that is not positive).
    Otherwise it goes on to the next iteration after its sleep, the
    consumer is still not terminated, and of the claims counted at the top
    of the iteration at most half have left the mapping; when the health
    sweep was not due, none has. *)
Theorem manageClaims_iter_keeps_half (m : Marshaler)
    (HeartbeatInterval nowTime : Z) (due : bool)
    (order1 order2 : list (Z * loc)) (offset pause : Z) (w : World) :
  is_Some (claims (cons w)) -> claims_len w <= Int.max64 ->
  let r := manageClaims_iter m HeartbeatInterval nowTime due order1 order2
             offset pause w in
  (partitions (cons w) <= 0 -> fst r = LoopPanic) /\
  (0 < partitions (cons w) ->
     fst r = LoopNext /\
     is_Some (claims (cons (snd r))) /\
     (exists evs, log (snd r) = evs ++ [Sleep pause]) /\
     claims_len w - claims_len w / 2 <= GetCurrentLoad (snd r) /\
     (due = false -> claims_len w <= GetCurrentLoad (snd r))).
Proof.
  intros Hlive Hmax. unfold manageClaims_iter.
  destruct Hlive as [cl Hcl]. rewrite Hcl.
  assert (Hlive : is_Some (claims (cons w))) by (rewrite Hcl; eauto).
  set (w1 := if due then healthSweep _ _ _ _ _ _ _ else w).
  assert (Hframe : frame w w1)
    by (subst w1; destruct due; [apply healthSweep_frame|apply frame_refl]).
  assert (Hpos : 0 <= claims_len w)
    by (unfold claims_len; destruct (claims (cons w)); lia).
  assert (Hhalf : claims_len w <= claims_len w1 + claims_len w / 2).
  { subst w1. destruct due; [now apply healthSweep_keeps_half|].
    assert (0 <= claims_len w / 2) by (apply Z.div_pos; lia). lia. }
  assert (Hsame : due = false -> w1 = w) by (intros ->; reflexivity).
  pose proof Hframe as (_ & _ & Hparts & _ & _ & Hsome & _).
  clearbody w1.
  cbv zeta. unfold claimPartitions. rewrite Hparts.
  split.
  - intros Hp. apply Z.leb_le in Hp. now rewrite Hp.
  - intros Hp. destruct (Z.leb_spec (partitions (cons w)) 0) as [|_]; [lia|].
    cbn [fst snd].
    pose proof (claimPartitions_loop_only_adds m nowTime offset
                  (Z.to_nat (partitions (cons w))) 0 w1) as (_ & _ & _ & Hlen).
    pose proof (claimPartitions_loop_stays_live m nowTime offset
                  (Z.to_nat (partitions (cons w))) 0 w1 (proj1 Hsome Hlive)) as Hl.
    split; [reflexivity|]. split; [exact Hl|]. split; [eexists; reflexivity|].
    change (GetCurrentLoad (emit (Sleep pause) ?x)) with (claims_len x).
    split; [lia|]. intros Hd.
    assert (claims_len w1 = claims_len w) by now rewrite (Hsame Hd).
    lia.
Qed.

(** A consumer of a topic without partitions: the first iteration panics. *)
Example manageClaims_panics_without_partitions :
  fst (manageClaims_iter (Fixtures.healthy_marshaler 0) 60 100 false [] [] 0 0
         (ClaimingFacts.fresh_world 0 CbBalanced)) = LoopPanic.
Proof. reflexivity. Qed.

(** Four claims, of which three have lost their pump to an offset out of
    range, and a marshaler that grants no new claim: the health sweep sheds
    two of the three, and two claims are left. *)
Lemma manageClaims_iter_keeps_half_witness :
  let stale := Fixtures.marshaler 4 Fixtures.yes Fixtures.no Fixtures.yes
                 Fixtures.yes Fixtures.yes (Some Kafka.ErrOffsetOutOfRange) in
  let w0 := ClaimingFacts.sweep (Fixtures.healthy_marshaler 4) 0
              (ClaimingFacts.fresh_world 4 CbAggressive) in
  let w := snd (messagePump_iter stale 2%nat
             (snd (messagePump_iter stale 1%nat
                (snd (messagePump_iter stale 0%nat w0))))) in
  let order := [(0, 0%nat); (1, 1%nat); (2, 2%nat); (3, 3%nat)] in
  let r := manageClaims_iter stale 60 160 true order order 0 500 w in
  claims_len w = 4 /\ fst r = LoopNext /\ 2 <= GetCurrentLoad (snd r) /\
  GetCurrentLoad (snd r) = 2.
Proof.
  cbv zeta.
  set (m := Fixtures.marshaler 4 _ _ _ _ _ _).
  set (w := snd (messagePump_iter m 2%nat _)).
  set (order := [(0, 0%nat); (1, 1%nat); (2, 2%nat); (3, 3%nat)]).
  assert (Hlen : claims_len w = 4) by (vm_compute; reflexivity).
  destruct (manageClaims_iter_keeps_half m 60 160 true order order 0 500 w)
    as (_ & Hnext).
  - vm_compute. eauto.
  - rewrite Hlen. vm_compute. discriminate.
  - destruct Hnext as (Hstep & _ & _ & Hhalf & _); [vm_compute; reflexivity|].
    split; [exact Hlen|]. split; [exact Hstep|].
    split; [rewrite Hlen in Hhalf; exact Hhalf|].
    vm_compute. reflexivity.
Defined.


End ConsumerExtras.
